(** * magnetic_system: a shallow embedding of [magnetic_system.py]

    The Python class [magnetic_system] keeps a five dimensional numpy array
    [Bs] of field samples on a regular grid, derives the three coordinate
    axes from the sample coordinates, precomputes three finite-difference
    derivative arrays and wraps the four arrays in interpolators.

    Modelling decisions, in the order of the file:
    - numbers: numpy's binary64 values are idealised as exact rationals
      ([Qc], canonical fractions with Leibniz equality); where a property
      turns on the rounding of binary64 itself, the operation is embedded a
      second time on binary64 numbers (the rounding of
      [extract_unique_vals_tol], the true division of [_linidx2volidx]);
    - arrays: an [ndarray] is its shape together with its indexing function;
      arrays live in a heap and the object refers to them by location, so
      that rebinding an attribute ([self.Bx = np.zeros(...)]) and writing
      through it ([self.Bx[i,j,k,:,:] = ...]) are different operations;
    - effects: a state-and-exception monad over the pair of the object and the
      heap; an exception leaves the state as it was when it was raised. *)

From Stdlib Require Import QArith Qcanon.
From Stdlib Require Floats.
From stdpp Require Import base numbers list sorting gmap strings.
Import Floats.PrimFloat.

Close Scope Q_scope.
Close Scope Qc_scope.
Open Scope nat_scope.

(* decimal float literals stand for the nearest binary64 number, as in Python *)
Set Warnings "-inexact-float".

(** ** Python exceptions *)

(** [OutOfBoundsError] is the error of an interpolator queried outside its
    grid; [Dangling] has no Python counterpart: it is what a read of an
    unallocated heap location gives in the model. *)
Inductive exn : Set :=
  | IndexError
  | ValueError
  | AttributeError
  | OutOfBoundsError
  | Dangling.

Definition Exc (A : Type) : Type := exn + A.

#[global] Instance Exc_ret : MRet Exc := fun A a => inr a.
#[global] Instance Exc_bind : MBind Exc := fun A B f m =>
  match m with
  | inl e => inl e
  | inr a => f a
  end.

(** ** Arrays *)

Record Shape : Set := mkShape { n0 : nat; n1 : nat; n2 : nat; n3 : nat; n4 : nat }.

(** A five dimensional array, indexed [(ix, iy, iz, component, coil)]. Only
    entries inside [shape] are meaningful: every read checks its indices. *)
Record ndarray : Type := mkArr {
  shape : Shape;
  item : nat -> nat -> nat -> nat -> nat -> Qc
}.

(** [np.zeros(shape)] *)
Definition np_zeros (sh : Shape) : ndarray :=
  mkArr sh (fun _ _ _ _ _ => Q2Qc 0).

(** [a[i,j,k,:,:]], the (component, coil) matrix at one grid node. *)
Definition get_node (a : ndarray) (i j k : nat) : Exc (nat -> nat -> Qc) :=
  if (i <? n0 (shape a)) && (j <? n1 (shape a)) && (k <? n2 (shape a))
  then inr (item a i j k)
  else inl IndexError.

(** [a[i,j,k,:,:] = v] *)
Definition set_node (a : ndarray) (i j k : nat) (v : nat -> nat -> Qc) : Exc ndarray :=
  if (i <? n0 (shape a)) && (j <? n1 (shape a)) && (k <? n2 (shape a))
  then inr (mkArr (shape a)
              (fun i' j' k' => if (i' =? i) && (j' =? j) && (k' =? k) then v else item a i' j' k'))
  else inl IndexError.

(** numpy's reading of an integer index [v] on an axis of length [n]:
    negative indices count from the end. *)
Definition np_index (n : nat) (v : Z) : Exc nat :=
  if ((0 <=? v) && (v <? Z.of_nat n))%Z then inr (Z.to_nat v)
  else if ((- Z.of_nat n <=? v) && (v <? 0))%Z then inr (Z.to_nat (v + Z.of_nat n))
  else inl IndexError.

(** [a[:,:,:,:,v]], the samples of one coil. *)
Definition get_coil (a : ndarray) (v : Z) : Exc (nat -> nat -> nat -> nat -> Qc) :=
  n ← np_index (n4 (shape a)) v;
  mret (fun i j k c => item a i j k c n).

(** [a[:,:,:,:,v] = s] *)
Definition set_coil (a : ndarray) (v : Z) (s : nat -> nat -> nat -> nat -> Qc) : Exc ndarray :=
  n ← np_index (n4 (shape a)) v;
  mret (mkArr (shape a)
          (fun i j k c n' => if n' =? n then s i j k c else item a i j k c n')).

(** A two dimensional result, as the list of its rows. *)
Abbreviation matrix := (list (list Qc)) (only parsing).

Definition to_matrix (r c : nat) (f : nat -> nat -> Qc) : matrix :=
  map (fun i => map (fun j => f i j) (seq 0 c)) (seq 0 r).

(** ** The object and the heap *)

Abbreviation loc := nat (only parsing).

(** [scipy.interpolate.RegularGridInterpolator]: the three axes it was built
    on (copied at construction) and a reference to the array of values. *)
Record interpolator : Type := mkInterp {
  grid : list Qc * list Qc * list Qc;
  values : loc
}.

(** The attributes of a [magnetic_system]. The attributes that [__init__]
    binds from its line 48 on are optional: they are missing while
    [_compute_gradient_tensor] runs for the first time. *)
Record magnetic_system : Type := mkSys {
  Bs : loc;
  coordinates : list (Qc * Qc * Qc);
  Ncoils : nat;
  xcoords : list Qc; deltax : Qc; xmin : Qc; xmax : Qc;
  ycoords : list Qc; deltay : Qc; ymin : Qc; ymax : Qc;
  zcoords : list Qc; deltaz : Qc; zmin : Qc; zmax : Qc;
  BactInterpolator : option interpolator;
  Bx : option loc;
  By : option loc;
  Bz : option loc;
  BxInterpolator : option interpolator;
  ByInterpolator : option interpolator;
  BzInterpolator : option interpolator
}.

Record world : Type := mkWorld {
  self : magnetic_system;
  heap : list ndarray
}.

Definition M (A : Type) : Type := world -> Exc A * world.

#[global] Instance M_ret : MRet M := fun A a w => (inr a, w).
#[global] Instance M_bind : MBind M := fun A B f m w =>
  match m w with
  | (inl e, w') => (inl e, w')
  | (inr a, w') => f a w'
  end.

Definition raise {A} (e : exn) : M A := fun w => (inl e, w).

Definition lift {A} (r : Exc A) : M A := fun w => (r, w).

(** reading an attribute that is always bound *)
Definition attr {A} (f : magnetic_system -> A) : M A :=
  fun w => (inr (f (self w)), w).

(** reading an attribute that may not be bound yet *)
Definition attr_opt {A} (f : magnetic_system -> option A) : M A :=
  fun w => match f (self w) with
           | Some a => (inr a, w)
           | None => (inl AttributeError, w)
           end.

Definition modify (f : magnetic_system -> magnetic_system) : M unit :=
  fun w => (inr tt, mkWorld (f (self w)) (heap w)).

Definition alloc (a : ndarray) : M loc :=
  fun w => (inr (length (heap w)), mkWorld (self w) (heap w ++ [a])).

Definition load (l : loc) : M ndarray :=
  fun w => match heap w !! l with
           | Some a => (inr a, w)
           | None => (inl Dangling, w)
           end.

Definition store (l : loc) (a : ndarray) : M unit :=
  fun w => (inr tt, mkWorld (self w) (<[l := a]> (heap w))).

(** [for i in range(lo, lo + n): body(i)] *)
Fixpoint for_range (lo n : nat) (body : nat -> M unit) : M unit :=
  match n with
  | 0 => mret tt
  | S n' => body lo ≫= fun _ => for_range (S lo) n' body
  end.

(** Rebinding one attribute ([self.Bs = ...] and the like). *)
Definition set_Bs (l : loc) (o : magnetic_system) : magnetic_system :=
  mkSys l (coordinates o) (Ncoils o)
    (xcoords o) (deltax o) (xmin o) (xmax o)
    (ycoords o) (deltay o) (ymin o) (ymax o)
    (zcoords o) (deltaz o) (zmin o) (zmax o)
    (BactInterpolator o) (Bx o) (By o) (Bz o)
    (BxInterpolator o) (ByInterpolator o) (BzInterpolator o).

Definition set_BactInterpolator (i : interpolator) (o : magnetic_system) : magnetic_system :=
  mkSys (Bs o) (coordinates o) (Ncoils o)
    (xcoords o) (deltax o) (xmin o) (xmax o)
    (ycoords o) (deltay o) (ymin o) (ymax o)
    (zcoords o) (deltaz o) (zmin o) (zmax o)
    (Some i) (Bx o) (By o) (Bz o)
    (BxInterpolator o) (ByInterpolator o) (BzInterpolator o).

Definition set_Bx (l : loc) (o : magnetic_system) : magnetic_system :=
  mkSys (Bs o) (coordinates o) (Ncoils o)
    (xcoords o) (deltax o) (xmin o) (xmax o)
    (ycoords o) (deltay o) (ymin o) (ymax o)
    (zcoords o) (deltaz o) (zmin o) (zmax o)
    (BactInterpolator o) (Some l) (By o) (Bz o)
    (BxInterpolator o) (ByInterpolator o) (BzInterpolator o).

Definition set_By (l : loc) (o : magnetic_system) : magnetic_system :=
  mkSys (Bs o) (coordinates o) (Ncoils o)
    (xcoords o) (deltax o) (xmin o) (xmax o)
    (ycoords o) (deltay o) (ymin o) (ymax o)
    (zcoords o) (deltaz o) (zmin o) (zmax o)
    (BactInterpolator o) (Bx o) (Some l) (Bz o)
    (BxInterpolator o) (ByInterpolator o) (BzInterpolator o).

Definition set_Bz (l : loc) (o : magnetic_system) : magnetic_system :=
  mkSys (Bs o) (coordinates o) (Ncoils o)
    (xcoords o) (deltax o) (xmin o) (xmax o)
    (ycoords o) (deltay o) (ymin o) (ymax o)
    (zcoords o) (deltaz o) (zmin o) (zmax o)
    (BactInterpolator o) (Bx o) (By o) (Some l)
    (BxInterpolator o) (ByInterpolator o) (BzInterpolator o).

Definition set_BxInterpolator (i : interpolator) (o : magnetic_system) : magnetic_system :=
  mkSys (Bs o) (coordinates o) (Ncoils o)
    (xcoords o) (deltax o) (xmin o) (xmax o)
    (ycoords o) (deltay o) (ymin o) (ymax o)
    (zcoords o) (deltaz o) (zmin o) (zmax o)
    (BactInterpolator o) (Bx o) (By o) (Bz o)
    (Some i) (ByInterpolator o) (BzInterpolator o).

Definition set_ByInterpolator (i : interpolator) (o : magnetic_system) : magnetic_system :=
  mkSys (Bs o) (coordinates o) (Ncoils o)
    (xcoords o) (deltax o) (xmin o) (xmax o)
    (ycoords o) (deltay o) (ymin o) (ymax o)
    (zcoords o) (deltaz o) (zmin o) (zmax o)
    (BactInterpolator o) (Bx o) (By o) (Bz o)
    (BxInterpolator o) (Some i) (BzInterpolator o).

Definition set_BzInterpolator (i : interpolator) (o : magnetic_system) : magnetic_system :=
  mkSys (Bs o) (coordinates o) (Ncoils o)
    (xcoords o) (deltax o) (xmin o) (xmax o)
    (ycoords o) (deltay o) (ymin o) (ymax o)
    (zcoords o) (deltaz o) (zmin o) (zmax o)
    (BactInterpolator o) (Bx o) (By o) (Bz o)
    (BxInterpolator o) (ByInterpolator o) (Some i).

(** ** [_compute_gradient_tensor] *)

(** [self.Bs[i,j,k,:,:]] *)
Definition Bs_node (i j k : nat) : M (nat -> nat -> Qc) :=
  l ← attr Bs; a ← load l; lift (get_node a i j k).

(** [self.F[i,j,k,:,:] = v] for [F] one of [Bx], [By], [Bz] *)
Definition assign_node (F : magnetic_system -> option loc) (i j k : nat)
    (v : nat -> nat -> Qc) : M unit :=
  l ← attr_opt F; a ← load l; a' ← lift (set_node a i j k v); store l a'.

(** [(p - q) / d] on two (component, coil) matrices and a scalar *)
Definition diff_quot (p q : nat -> nat -> Qc) (d : Qc) : nat -> nat -> Qc :=
  fun c n => ((p c n - q c n) / d)%Qc.

Definition _compute_gradient_tensor : M unit :=
  l ← attr Bs; B ← load l;
  let Nx := n0 (shape B) in
  let Ny := n1 (shape B) in
  let Nz := n2 (shape B) in
  (* compute x derivatives *)
  l ← attr Bs; B ← load l;
  lx ← alloc (np_zeros (shape B));
  modify (set_Bx lx);;
  for_range 0 Nx (fun nx =>
    for_range 0 Ny (fun ny =>
      for_range 0 Nz (fun nz =>
        if nx =? 0 then
          p ← Bs_node (nx + 1) ny nz; q ← Bs_node nx ny nz; d ← attr deltax;
          assign_node Bx nx ny nz (diff_quot p q d)
        else if nx =? Nx - 1 then
          p ← Bs_node nx ny nz; q ← Bs_node (nx - 1) ny nz; d ← attr deltax;
          assign_node Bx nx ny nz (diff_quot p q d)
        else
          p ← Bs_node (nx + 1) ny nz; q ← Bs_node (nx - 1) ny nz; d ← attr deltax;
          assign_node Bx nx ny nz (diff_quot p q d))));;
  (* compute y derivatives *)
  l ← attr Bs; B ← load l;
  ly ← alloc (np_zeros (shape B));
  modify (set_By ly);;
  for_range 0 Nx (fun nx =>
    for_range 0 Ny (fun ny =>
      for_range 0 Nz (fun nz =>
        if ny =? 0 then
          p ← Bs_node nx (ny + 1) nz; q ← Bs_node nx ny nz; d ← attr deltay;
          assign_node By nx ny nz (diff_quot p q d)
        else if ny =? Ny - 1 then
          p ← Bs_node nx ny nz; q ← Bs_node nx (ny - 1) nz; d ← attr deltay;
          assign_node By nx ny nz (diff_quot p q d)
        else
          p ← Bs_node nx (ny + 1) nz; q ← Bs_node nx (ny - 1) nz; d ← attr deltay;
          assign_node By nx ny nz (diff_quot p q d))));;
  (* compute z derivatives *)
  l ← attr Bs; B ← load l;
  lz ← alloc (np_zeros (shape B));
  modify (set_Bz lz);;
  for_range 0 Nx (fun nx =>
    for_range 0 Ny (fun ny =>
      for_range 0 Nz (fun nz =>
        if nz =? 0 then
          p ← Bs_node nx ny (nz + 1); q ← Bs_node nx ny nz; d ← attr deltaz;
          assign_node Bz nx ny nz (diff_quot p q d)
        else if nz =? Nz - 1 then
          p ← Bs_node nx ny nz; q ← Bs_node nx ny (nz - 1); d ← attr deltaz;
          assign_node Bz nx ny nz (diff_quot p q d)
        else
          p ← Bs_node nx ny (nz + 1); q ← Bs_node nx ny (nz - 1); d ← attr deltaz;
          assign_node Bz nx ny nz (diff_quot p q d)))).

(** ** [RegularGridInterpolator] *)

Fixpoint strictly_ascending (g : list Qc) : bool :=
  match g with
  | [] => true
  | x :: g' =>
      match g' with
      | [] => true
      | y :: _ => bool_decide (x < y)%Qc && strictly_ascending g'
      end
  end.

(** Modelled from the spec: [scipy.interpolate.RegularGridInterpolator] is a
    library class and not part of the sources. The constructor binds the
    three axes and one array ("a read-only view bound to one tensor plus the
    three Axes"); as in scipy it refuses axes that are not strictly ascending
    and an array whose first three dimensions are not the axis lengths. *)
Definition RegularGridInterpolator (points : list Qc * list Qc * list Qc)
    (vals : loc) : M interpolator :=
  V ← load vals;
  let '(gx, gy, gz) := points in
  if negb (strictly_ascending gx && strictly_ascending gy && strictly_ascending gz)
  then raise ValueError
  else if negb ((length gx =? n0 (shape V)) && (length gy =? n1 (shape V))
                && (length gz =? n2 (shape V)))
  then raise ValueError
  else mret (mkInterp points vals).

(** The number of leading values of [g] below [x]: on an ascending axis, the
    position at which [x] would be inserted ([np.searchsorted]). *)
Fixpoint searchsorted (g : list Qc) (x : Qc) : nat :=
  match g with
  | [] => 0
  | v :: g' => if bool_decide (v < x)%Qc then S (searchsorted g' x) else 0
  end.

(** [g[i]] on a Python list or a one dimensional array, [i] not negative *)
Definition index {A} (g : list A) (i : nat) : Exc A :=
  match g !! i with
  | Some v => inr v
  | None => inl IndexError
  end.

(** The cell of the axis [g] that holds [x], as the index of its lower node,
    and the position of [x] inside the cell, from 0 at the lower node to 1
    at the upper one. *)
Definition find_index (g : list Qc) (x : Qc) : Exc (nat * Qc) :=
  let i := Nat.min (searchsorted g x - 1) (length g - 2) in
  lo ← index g i;
  hi ← index g (i + 1);
  mret (i, ((x - lo) / (hi - lo))%Qc).

(** [x] lies outside [[g[0], g[-1]]]; no point lies on an empty axis. *)
Definition out_of_bounds (g : list Qc) (x : Qc) : bool :=
  match head g, last g with
  | Some lo, Some hi => bool_decide (x < lo)%Qc || bool_decide (hi < x)%Qc
  | _, _ => true
  end.

(** Modelled from the spec: the query of a [RegularGridInterpolator], missing
    from the sources like its constructor. "Uses trilinear interpolation over
    the 8 grid nodes surrounding position, linear independently along each
    axis, applied identically to every (component, coil) slice. Fails with
    OutOfBoundsError if position lies outside
    [xmin,xmax]x[ymin,ymax]x[zmin,zmax] (no extrapolation)." The result has
    the shape of the two last dimensions of the array. *)
Definition RegularGridInterpolator_call (itp : interpolator) (pos : Qc * Qc * Qc)
    : M matrix :=
  let '(gx, gy, gz) := grid itp in
  let '(x, y, z) := pos in
  if out_of_bounds gx x || out_of_bounds gy y || out_of_bounds gz z
  then raise OutOfBoundsError
  else
    V ← load (values itp);
    '(i, tx) ← lift (find_index gx x);
    '(j, ty) ← lift (find_index gy y);
    '(k, tz) ← lift (find_index gz z);
    v000 ← lift (get_node V i j k);
    v001 ← lift (get_node V i j (k + 1));
    v010 ← lift (get_node V i (j + 1) k);
    v011 ← lift (get_node V i (j + 1) (k + 1));
    v100 ← lift (get_node V (i + 1) j k);
    v101 ← lift (get_node V (i + 1) j (k + 1));
    v110 ← lift (get_node V (i + 1) (j + 1) k);
    v111 ← lift (get_node V (i + 1) (j + 1) (k + 1));
    mret (to_matrix (n3 (shape V)) (n4 (shape V)) (fun c n =>
      ((1 - tx) * (1 - ty) * (1 - tz) * v000 c n
       + (1 - tx) * (1 - ty) * tz * v001 c n
       + (1 - tx) * ty * (1 - tz) * v010 c n
       + (1 - tx) * ty * tz * v011 c n
       + tx * (1 - ty) * (1 - tz) * v100 c n
       + tx * (1 - ty) * tz * v101 c n
       + tx * ty * (1 - tz) * v110 c n
       + tx * ty * tz * v111 c n)%Qc)).

(** ** Axis extraction *)

Definition Z2Qc (z : Z) : Qc := Q2Qc (inject_Z z).

(** Python's [round(x)] with one argument: the nearest integer, a tie going
    to the even neighbour. *)
Definition py_round (q : Qc) : Z :=
  let n := Qnum (this q) in
  let d := Zpos (Qden (this q)) in
  let f := (n / d)%Z in
  let r2 := (2 * (n mod d))%Z in
  if (r2 <? d)%Z then f
  else if (d <? r2)%Z then (f + 1)%Z
  else if Z.even f then f else (f + 1)%Z.

Definition round_1e6 (c : Qc) : Qc :=
  (Q2Qc (1 # 1000000) * Z2Qc (py_round (Q2Qc (1000000 # 1) * c)))%Qc.

(** [list(set(list([1e-6*round(1e6*c) for c in arr])))]; the order of the
    result is that of the set: Python's depends on the hashes of the values,
    the one here is that of [elements]. Every caller sorts the result, and
    the sorted list is the same for every order ([axis_order_independent]). *)
Definition extract_unique_vals_tol (arr : list Qc) : list Qc :=
  elements (list_to_set (map round_1e6 arr) : gset Qc).

(** [l.sort()] on a list of numbers *)
Definition list_sort (l : list Qc) : list Qc := merge_sort Qcle l.

Definition Qcmin (a b : Qc) : Qc := if bool_decide (b < a)%Qc then b else a.
Definition Qcmax (a b : Qc) : Qc := if bool_decide (a < b)%Qc then b else a.

(** [min(l)] and [max(l)] *)
Definition py_min (l : list Qc) : Exc Qc :=
  match l with
  | [] => inl ValueError
  | x :: l' => inr (foldl Qcmin x l')
  end.

Definition py_max (l : list Qc) : Exc Qc :=
  match l with
  | [] => inl ValueError
  | x :: l' => inr (foldl Qcmax x l')
  end.

(** ** The constructor *)

(** [self.coordinates*=1e-3] *)
Definition scale_mm (coords : list (Qc * Qc * Qc)) : list (Qc * Qc * Qc) :=
  map (fun p => let '(x, y, z) := p in
         ((x * Q2Qc (1 # 1000))%Qc, (y * Q2Qc (1 # 1000))%Qc, (z * Q2Qc (1 # 1000))%Qc))
      coords.

(** Lines 29 to 47 of [__init__]: the object with every attribute bound
    before the interpolators are built. The array and the coordinates are
    what [get_magfield_data_comsol] or [get_magfield_data_sampled] read from
    the calibration files; the array is stored at location 0 of a new heap. *)
Definition init_axes (loaded : ndarray * list (Qc * Qc * Qc)) (Ncoils_ : nat)
    (posunit : string) : Exc world :=
  let '(Bs_, coordinates_) := loaded in
  let coordinates_ :=
    if String.eqb posunit "mm" then scale_mm coordinates_ else coordinates_ in
  (* extract the coordinate values of the grid *)
  let xcoords_ := list_sort (extract_unique_vals_tol (map (fun p => p.1.1) coordinates_)) in
  x1 ← index xcoords_ 1; x0 ← index xcoords_ 0;
  let deltax_ := (x1 - x0)%Qc in
  xmin_ ← py_min xcoords_;
  xmax_ ← py_max xcoords_;
  let ycoords_ := list_sort (extract_unique_vals_tol (map (fun p => p.1.2) coordinates_)) in
  y1 ← index ycoords_ 1; y0 ← index ycoords_ 0;
  let deltay_ := (y1 - y0)%Qc in
  ymin_ ← py_min ycoords_;
  ymax_ ← py_max ycoords_;
  let zcoords_ := list_sort (extract_unique_vals_tol (map (fun p => p.2) coordinates_)) in
  z1 ← index zcoords_ 1; z0 ← index zcoords_ 0;
  let deltaz_ := (z1 - z0)%Qc in
  zmin_ ← py_min zcoords_;
  zmax_ ← py_max zcoords_;
  mret (mkWorld
          (mkSys 0 coordinates_ Ncoils_
             xcoords_ deltax_ xmin_ xmax_
             ycoords_ deltay_ ymin_ ymax_
             zcoords_ deltaz_ zmin_ zmax_
             None None None None None None None)
          [Bs_]).

(** [RegularGridInterpolator((self.xcoords,self.ycoords,self.zcoords),self.F)] *)
Definition new_interpolator (F : M loc) : M interpolator :=
  xs ← attr xcoords; ys ← attr ycoords; zs ← attr zcoords;
  l ← F;
  RegularGridInterpolator (xs, ys, zs) l.

(** Lines 48 to 53 of [__init__]. *)
Definition init_interpolators : M unit :=
  i ← new_interpolator (attr Bs);
  modify (set_BactInterpolator i);;
  (* compute the gradient tensor *)
  _compute_gradient_tensor;;
  i ← new_interpolator (attr_opt Bx);
  modify (set_BxInterpolator i);;
  i ← new_interpolator (attr_opt By);
  modify (set_ByInterpolator i);;
  i ← new_interpolator (attr_opt Bz);
  modify (set_BzInterpolator i).

(** [magnetic_system(calibration_data_files, calibration_type, Nx, Ny, Nz,
    Ncoils, posunit)], from the point where the calibration data are loaded.
    A constructor that raises leaves no object. *)
Definition __init__ (loaded : ndarray * list (Qc * Qc * Qc)) (Ncoils_ : nat)
    (posunit : string) : Exc world :=
  w ← init_axes loaded Ncoils_ posunit;
  match init_interpolators w with
  | (inl e, _) => inl e
  | (inr _, w') => inr w'
  end.

(** ** The methods *)

(** The three queries [getBact], [getDerMatrices] and [getA] take the
    position as a tuple of three numbers, as the script at the end of the
    source passes it; [getBact_at], [getDerMatrices_at] and [getA_at] below
    take a position of either kind. *)

Definition getBact (pos : Qc * Qc * Qc) : M matrix :=
  i ← attr_opt BactInterpolator;
  RegularGridInterpolator_call i pos.

Definition getCoords : M (list Qc * list Qc * list Qc) :=
  xs ← attr xcoords; ys ← attr ycoords; zs ← attr zcoords;
  mret (xs, ys, zs).

Definition getBArray : M loc := attr Bs.

Definition permutate_coils (coilvec : list Z) : M unit :=
  (* create a copy of the field array and permutate it *)
  l ← attr Bs; B ← load l;
  Bs_temp ← alloc B;
  for_range 0 6 (fun idx =>
    v ← lift (index coilvec idx);
    l ← attr Bs; B ← load l;
    s ← lift (get_coil B v);
    T ← load Bs_temp;
    T' ← lift (set_coil T (Z.of_nat idx) s);
    store Bs_temp T');;
  (* update internal variables *)
  modify (set_Bs Bs_temp);;
  i ← new_interpolator (attr Bs);
  modify (set_BactInterpolator i);;
  _compute_gradient_tensor.

Definition getDerMatrices (pos : Qc * Qc * Qc) : M (matrix * matrix * matrix) :=
  ix ← attr_opt BxInterpolator; dx ← RegularGridInterpolator_call ix pos;
  iy ← attr_opt ByInterpolator; dy ← RegularGridInterpolator_call iy pos;
  iz ← attr_opt BzInterpolator; dz ← RegularGridInterpolator_call iz pos;
  mret (dx, dy, dz).

Definition ncols (A : matrix) : nat :=
  match A with
  | [] => 0
  | r :: _ => length r
  end.

(** [m.dot(A)] for a vector [m] and a matrix [A]: the contraction of [m]
    against the first axis of [A]. *)
Definition dot (m : list Qc) (A : matrix) : Exc (list Qc) :=
  if length m =? length A
  then inr (map (fun n =>
              foldr (fun mr acc => (mr.1 * nth n mr.2 (Q2Qc 0) + acc)%Qc) (Q2Qc 0) (zip m A))
              (seq 0 (ncols A)))
  else inl ValueError.

(** [np.vstack(blocks)], every vector already made a one-row matrix. *)
Definition np_vstack (blocks : list matrix) : Exc matrix :=
  match blocks with
  | [] => inl ValueError
  | b :: bs =>
      if forallb (fun b' => ncols b' =? ncols b) bs
      then inr (concat blocks)
      else inl ValueError
  end.

Definition getA (pos : Qc * Qc * Qc) (m : list Qc) : M matrix :=
  '(dx, dy, dz) ← getDerMatrices pos;
  Bact ← getBact pos;
  rx ← lift (dot m dx);
  ry ← lift (dot m dy);
  rz ← lift (dot m dz);
  lift (np_vstack [Bact; [rx]; [ry]; [rz]]).

(** [a[i,j,k,c,n]] *)
Definition get_item (a : ndarray) (i j k c n : nat) : Exc Qc :=
  if (i <? n0 (shape a)) && (j <? n1 (shape a)) && (k <? n2 (shape a))
     && (c <? n3 (shape a)) && (n <? n4 (shape a))
  then inr (item a i j k c n)
  else inl IndexError.

(** [self.Bs[i,j,k,c,n]] and [self.Bx[i,j,k,c,n]] *)
Definition Bs_item (i j k c n : nat) : M Qc :=
  l ← attr Bs; a ← load l; lift (get_item a i j k c n).

Definition Bx_item (i j k c n : nat) : M Qc :=
  l ← attr_opt Bx; a ← load l; lift (get_item a i j k c n).

(** ** Index arithmetic *)

(** Python's arithmetic exceptions *)
Inductive arith_exn : Set :=
  | ZeroDivisionError
  | OverflowError.

Definition Arith (A : Type) : Type := arith_exn + A.

#[global] Instance Arith_ret : MRet Arith := fun A a => inr a.
#[global] Instance Arith_bind : MBind Arith := fun A B f m =>
  match m with
  | inl e => inl e
  | inr a => f a
  end.

(** A finite binary64 number, by its value [mant * 2 ^ expo]. *)
Record binary64 : Set := mkB64 { mant : Z; expo : Z }.

(** the integer nearest to [N / D], a tie going to the even one; [D] positive *)
Definition round_half_even (N D : Z) : Z :=
  let f := (N / D)%Z in
  let r2 := (2 * (N mod D))%Z in
  if (r2 <? D)%Z then f
  else if (D <? r2)%Z then (f + 1)%Z
  else if Z.even f then f else (f + 1)%Z.

(** the exponent of the leading bit of [p / q], for positive [p] and [q] *)
Definition ilog2_quot (p q : Z) : Z :=
  let d := (Z.log2 p - Z.log2 q)%Z in
  if (q * 2 ^ Z.max d 0 <=? p * 2 ^ Z.max (- d) 0)%Z then d else (d - 1)%Z.

(** [a / b] on two Python integers: the binary64 number nearest to the exact
    quotient, ties to even (a significand of 53 bits, exponents from -1074),
    OverflowError when that number would be 2^1024 or more. *)
Definition int_truediv (a b : Z) : Arith binary64 :=
  if (b =? 0)%Z then inl ZeroDivisionError
  else if (a =? 0)%Z then inr (mkB64 0 0)
  else
    let p := Z.abs a in
    let q := Z.abs b in
    let e := Z.max (ilog2_quot p q - 52) (-1074) in
    let m := round_half_even (p * 2 ^ Z.max (- e) 0) (q * 2 ^ Z.max e 0) in
    if (2 ^ 1024 <=? m * 2 ^ Z.max e 0)%Z then inl OverflowError
    else inr (mkB64 (Z.sgn a * Z.sgn b * m) e).

(** [a % b] on two Python integers *)
Definition int_mod (a b : Z) : Arith Z :=
  if (b =? 0)%Z then inl ZeroDivisionError else inr (a mod b)%Z.

(** [math.floor(x)] on a float *)
Definition math_floor (x : binary64) : Z :=
  if (0 <=? expo x)%Z then (mant x * 2 ^ expo x)%Z else (mant x / 2 ^ (- expo x))%Z.

(** [_linidx2volidx(self, n)], with [Nx] and [Ny] the attributes [self.Nx]
    and [self.Ny]: the two quotients are true divisions, made in binary64
    before [floor] is taken. *)
Definition _linidx2volidx (Nx Ny : Z) (n : Z) : Arith (Z * Z * Z) :=
  nx ← int_mod n Nx;
  r ← int_mod n (Nx * Ny);
  y ← int_truediv r Nx;
  z ← int_truediv n (Nx * Ny);
  mret (nx, math_floor y, math_floor z).

(** [_volidx2linidx(nx, ny, nz, N)] *)
Definition _volidx2linidx (nx ny nz N : Z) : Z := (nz * N ^ 2 + ny * N + nx)%Z.

(** ** Loading sampled calibration data *)

(** The dictionary that [pickle.load] returns in [get_magfield_data_sampled].
    [sampled_points] is an array of shape (3, Npoints), held as the list of
    its columns [coords[:,i]]; [field_measurements[ncoil][i]] is the field
    vector that coil [ncoil] gives at the point [i]. *)
Record calibration_data : Type := mkCal {
  sampled_points : list (Qc * Qc * Qc);
  field_measurements : list (list (Qc * Qc * Qc));
  calibration_current : Qc
}.

(** [for i in range(lo, lo + n)] over a local value, outside the object *)
Fixpoint for_each {T} (lo n : nat) (body : nat -> T -> Exc T) (s : T) : Exc T :=
  match n with
  | 0 => inr s
  | S n' => s' ← body lo s; for_each (S lo) n' body s'
  end.

Definition component (c : nat) (v : Qc * Qc * Qc) : Qc :=
  match c with
  | 0 => v.1.1
  | 1 => v.1.2
  | _ => v.2
  end.

(** [a[ix,iy,iz,:,n] = v] for a vector [v] of three components *)
Definition set_vector (a : ndarray) (ix iy iz : Z) (n : nat) (v : Qc * Qc * Qc)
    : Exc ndarray :=
  i ← np_index (n0 (shape a)) ix;
  j ← np_index (n1 (shape a)) iy;
  k ← np_index (n2 (shape a)) iz;
  if negb (n <? n4 (shape a)) then inl IndexError
  else if negb (n3 (shape a) =? 3) then inl ValueError
  else inr (mkArr (shape a)
              (fun i' j' k' c n' =>
                 if (i' =? i) && (j' =? j) && (k' =? k) && (n' =? n)
                 then component c v else item a i' j' k' c n')).

(** the lower end and the step of the three axes of the sampled points *)
Record sampling : Type := mkSampling {
  lo_x : Qc; hi_x : Qc; delta_x : Qc;
  lo_y : Qc; hi_y : Qc; delta_y : Qc;
  lo_z : Qc; hi_z : Qc; delta_z : Qc
}.

(** Lines 185 to 192 of [get_magfield_data_sampled]: [deltas] and [ranges]. *)
Definition sampling_steps (coords : list (Qc * Qc * Qc)) : Exc sampling :=
  let cs := list_sort (extract_unique_vals_tol (map (fun p => p.1.1) coords)) in
  a1 ← index cs 1; a0 ← index cs 0;
  lo0 ← py_min cs; hi0 ← py_max cs;
  let cs := list_sort (extract_unique_vals_tol (map (fun p => p.1.2) coords)) in
  b1 ← index cs 1; b0 ← index cs 0;
  lo1 ← py_min cs; hi1 ← py_max cs;
  let cs := list_sort (extract_unique_vals_tol (map (fun p => p.2) coords)) in
  c1 ← index cs 1; c0 ← index cs 0;
  lo2 ← py_min cs; hi2 ← py_max cs;
  mret (mkSampling lo0 hi0 (a1 - a0)%Qc lo1 hi1 (b1 - b0)%Qc lo2 hi2 (c1 - c0)%Qc).

(** [int(round((c - lo) / delta))] *)
Definition nearest_index (c lo delta : Qc) : Z := py_round ((c - lo) / delta)%Qc.

(** a dimension of [np.zeros]: a negative one is refused *)
Definition np_dim (z : Z) : Exc nat :=
  if (z <? 0)%Z then inl ValueError else inr (Z.to_nat z).

(** [Bs / calibration_current], for a current that is not zero: numpy
    divides by zero without an exception and gives nan or an infinity, which
    the rationals do not have (here the quotient by zero is zero). *)
Definition np_divide (a : ndarray) (d : Qc) : ndarray :=
  mkArr (shape a) (fun i j k c n => (item a i j k c n / d)%Qc).

(** [get_magfield_data_sampled(self, filename, Ncoils)] from the loaded
    dictionary on. The result is the pair that the method returns, with the
    values it binds to [self.Nx], [self.Ny] and [self.Nz]. *)
Definition get_magfield_data_sampled (data : calibration_data) (Ncoils_ : nat)
    : Exc (ndarray * list (Qc * Qc * Qc) * (nat * nat * nat)) :=
  let coords := sampled_points data in
  let fields := field_measurements data in
  (* determine the sampling step widths and sample numbers for each direction *)
  g ← sampling_steps coords;
  let Nx := (1 + py_round ((hi_x g - lo_x g) / delta_x g)%Qc)%Z in
  let Ny := (1 + py_round ((hi_y g - lo_y g) / delta_y g)%Qc)%Z in
  let Nz := (1 + py_round ((hi_z g - lo_z g) / delta_z g)%Qc)%Z in
  Nx ← np_dim Nx; Ny ← np_dim Ny; Nz ← np_dim Nz;
  let Bs_ := np_zeros (mkShape Nx Ny Nz 3 Ncoils_) in
  (* compute the 3 dimensional field array *)
  Bs_ ← for_each 0 Ncoils_ (fun ncoil Bs_ =>
          f0 ← index fields 0;
          for_each 0 (length f0) (fun i Bs_ =>
            (* compute the three integer indices of the current measurement point *)
            c ← index coords i;
            let idx := nearest_index c.1.1 (lo_x g) (delta_x g) in
            let idy := nearest_index c.1.2 (lo_y g) (delta_y g) in
            let idz := nearest_index c.2 (lo_z g) (delta_z g) in
            fn ← index fields ncoil;
            v ← index fn i;
            set_vector Bs_ idx idy idz ncoil v) Bs_) Bs_;
  mret (np_divide Bs_ (calibration_current data), coords, (Nx, Ny, Nz)).

(** [magnetic_system(filename, calibration_type, Nx, Ny, Nz, Ncoils, posunit)]
    with a [calibration_type] other than "comsol_csv": line 28 loads the
    sampled data and the constructor goes on with them. *)
Definition magnetic_system_sampled (data : calibration_data) (Ncoils_ : nat)
    (posunit : string) : Exc world :=
  r ← get_magfield_data_sampled data Ncoils_;
  __init__ (r.1.1, r.1.2) Ncoils_ posunit.

(** ** The rounding of [extract_unique_vals_tol] in binary64 *)

(** The exceptions of the conversions between floats and integers:
    [round] of a nan is a ValueError, [round] of an infinity and the
    conversion of an integer beyond the floats are OverflowErrors. *)
Inductive float_exn : Set :=
  | NanToInteger
  | InfinityToInteger
  | IntTooLarge.

(** [round(x)] on a float: the nearest integer, a tie going to the even one *)
Definition round_float (x : float) : float_exn + Z :=
  match FloatOps.Prim2SF x with
  | SpecFloat.S754_zero _ => inr 0%Z
  | SpecFloat.S754_infinity _ => inl InfinityToInteger
  | SpecFloat.S754_nan => inl NanToInteger
  | SpecFloat.S754_finite s m e =>
      let z := if (0 <=? e)%Z then (Zpos m * 2 ^ e)%Z
               else round_half_even (Zpos m) (2 ^ (- e)) in
      inr (if s then (- z)%Z else z)
  end.

(** the float that an integer becomes as an operand of a float product: the
    nearest one, ties to even *)
Definition float_of_int (k : Z) : float_exn + float :=
  match SpecFloat.binary_normalize FloatOps.prec FloatOps.emax k 0 false with
  | SpecFloat.S754_infinity _ => inl IntTooLarge
  | f => inr (FloatOps.SF2Prim f)
  end.

(** [1e-6*round(1e6*c)] on a binary64 coordinate *)
Definition round_1e6_binary64 (c : float) : float_exn + float :=
  match round_float (1e6 * c)%float with
  | inl e => inl e
  | inr k =>
      match float_of_int k with
      | inl e => inl e
      | inr f => inr (1e-6 * f)%float
      end
  end.

(** ** Positions and the rank of the results *)

(** A position as a caller passes it to the queries:
    - [as_tuple]: a tuple of three numbers, as in [system.getBact((0,0,0))];
    - [as_array]: a one-dimensional array or a list of three numbers, the
      type that the docstrings name.
    scipy reads a tuple as the coordinates of one point, an array of shape
    (3,), and turns every other one-dimensional input into an array of
    points of shape (1, 3); what a call returns has the leading axes of the
    points, none or one of length 1, in front of the axes (3, Ncoils) of the
    value. The queries above are the calls on a tuple. *)
Inductive position : Type :=
  | as_tuple (p : Qc * Qc * Qc)
  | as_array (p : Qc * Qc * Qc).

Definition point (pos : position) : Qc * Qc * Qc :=
  match pos with
  | as_tuple p => p
  | as_array p => p
  end.

(** An array of any rank: its shape and its entries in row-major order. *)
Record array : Type := mkArray { dims : list nat; entries : list Qc }.

(** a matrix as an array of rank 2 *)
Definition of_matrix (A : matrix) : array := mkArray [length A; ncols A] (concat A).

(** [interpolator(pos)] on a position of either kind. The values are those
    of [RegularGridInterpolator_call]; the shape is the one scipy gives the
    result, [xi.shape[:-1] + values.shape[3:]] for the array of points [xi]
    that it makes of the argument. This reading of the argument is the
    library's own: it is neither in the sources nor in the specification,
    which speaks of a position without saying how it is passed. *)
Definition call_at (itp : interpolator) (pos : position) : M array :=
  A ← RegularGridInterpolator_call itp (point pos);
  mret (match pos with
        | as_tuple _ => of_matrix A
        | as_array _ => mkArray (1 :: dims (of_matrix A)) (entries (of_matrix A))
        end).

(** the [k] rows of length [n] that the entries [l] hold *)
Definition rows_of (k n : nat) (l : list Qc) : matrix :=
  map (fun i => take n (drop (i * n) l)) (seq 0 k).

(** the sum over [c] of [m[c] * A[c][j]], for every column [j] below [n] *)
Definition contract_rows (m : list Qc) (A : matrix) (n : nat) : list Qc :=
  map (fun j => foldr (fun mr acc => (mr.1 * nth j mr.2 (Q2Qc 0) + acc)%Qc) (Q2Qc 0) (zip m A))
      (seq 0 n).

(** [m.dot(B)] for a one-dimensional [m]: the sum of products over the last
    axis of [m] and the last axis but one of [B] (the only axis of a
    one-dimensional [B]); a scalar [B] multiplies [m]. *)
Definition array_dot (m : list Qc) (B : array) : Exc array :=
  match rev (dims B) with
  | [] => inr (mkArray [length m] (map (fun x => (x * nth 0 (entries B) (Q2Qc 0))%Qc) m))
  | [k] =>
      if length m =? k
      then inr (mkArray [] (contract_rows m (map (fun x => [x]) (entries B)) 1))
      else inl ValueError
  | n :: k :: lead =>
      if length m =? k
      then inr (mkArray (rev lead ++ [n])
                  (flat_map (fun b =>
                     contract_rows m
                       (rows_of k n (take (k * n) (drop (b * (k * n)) (entries B)))) n)
                     (seq 0 (foldr Nat.mul 1 lead))))
      else inl ValueError
  end.

(** [np.atleast_2d(a)] *)
Definition atleast_2d (a : array) : array :=
  match dims a with
  | [] => mkArray [1; 1] (entries a)
  | [n] => mkArray [1; n] (entries a)
  | _ => a
  end.

(** [np.vstack(arrays)]: the arrays, each made two-dimensional at least,
    joined along the first axis; arrays of different ranks, or that differ
    in another axis, are refused. *)
Definition array_vstack (arrays : list array) : Exc array :=
  match map atleast_2d arrays with
  | [] => inl ValueError
  | a :: rest =>
      if forallb (fun b => (length (dims b) =? length (dims a))
                           && bool_decide (tail (dims b) = tail (dims a))) rest
      then inr (mkArray (sum_list (map (fun b => hd 0 (dims b)) (a :: rest)) :: tail (dims a))
                  (flat_map entries (a :: rest)))
      else inl ValueError
  end.

(** [getBact], [getDerMatrices] and [getA] on a position of either kind *)
Definition getBact_at (pos : position) : M array :=
  i ← attr_opt BactInterpolator;
  call_at i pos.

Definition getDerMatrices_at (pos : position) : M (array * array * array) :=
  ix ← attr_opt BxInterpolator; dx ← call_at ix pos;
  iy ← attr_opt ByInterpolator; dy ← call_at iy pos;
  iz ← attr_opt BzInterpolator; dz ← call_at iz pos;
  mret (dx, dy, dz).

Definition getA_at (pos : position) (m : list Qc) : M array :=
  '(dx, dy, dz) ← getDerMatrices_at pos;
  Bact ← getBact_at pos;
  rx ← lift (array_dot m dx);
  ry ← lift (array_dot m dy);
  rz ← lift (array_dot m dz);
  lift (array_vstack [Bact; rx; ry; rz]).

(** * Vocabulary of the proofs *)

#[global] Instance exn_eq_dec : EqDecision exn.
Proof. solve_decision. Defined.

#[global] Instance Exc_eq_dec {A} `{EqDecision A} : EqDecision (Exc A).
Proof. unfold Exc. apply _. Defined.

(** ** Arrays under construction *)

(** the array [T] after [T[i,j,k,:,:] = v] *)
Definition write (T : ndarray) (i j k : nat) (v : nat -> nat -> Qc) : ndarray :=
  mkArr (shape T)
    (fun i' j' k' => if (i' =? i) && (j' =? j) && (k' =? k) then v else item T i' j' k').

(** the world while the array at [lF] is being filled *)
Definition during (o : magnetic_system) (h0 : list ndarray) (lF : nat) (T : ndarray) : world :=
  mkWorld o (<[lF := T]> h0).

(** the nodes written before three nested loops reach [(a, b, c)] *)
Definition visited (a b c i j k : nat) : Prop :=
  i < a \/ (i = a /\ (j < b \/ (j = b /\ k < c))).

Definition filled (o : magnetic_system) (h0 : list ndarray) (lF : nat) (sh : Shape)
    (val : nat -> nat -> nat -> nat -> nat -> Qc) (a b c : nat) (w : world) : Prop :=
  exists T, w = during o h0 lF T /\ shape T = sh /\
    forall i j k, i < n0 sh -> j < n1 sh -> k < n2 sh -> visited a b c i j k ->
      item T i j k = val i j k.

(** ** The three derivative arrays *)

Definition grad_x (B : ndarray) (d : Qc) (i j k : nat) : nat -> nat -> Qc :=
  if i =? 0 then diff_quot (item B (i + 1) j k) (item B i j k) d
  else if i =? n0 (shape B) - 1 then diff_quot (item B i j k) (item B (i - 1) j k) d
  else diff_quot (item B (i + 1) j k) (item B (i - 1) j k) d.

Definition grad_y (B : ndarray) (d : Qc) (i j k : nat) : nat -> nat -> Qc :=
  if j =? 0 then diff_quot (item B i (j + 1) k) (item B i j k) d
  else if j =? n1 (shape B) - 1 then diff_quot (item B i j k) (item B i (j - 1) k) d
  else diff_quot (item B i (j + 1) k) (item B i (j - 1) k) d.

Definition grad_z (B : ndarray) (d : Qc) (i j k : nat) : nat -> nat -> Qc :=
  if k =? 0 then diff_quot (item B i j (k + 1)) (item B i j k) d
  else if k =? n2 (shape B) - 1 then diff_quot (item B i j k) (item B i j (k - 1)) d
  else diff_quot (item B i j (k + 1)) (item B i j (k - 1)) d.

Inductive direction : Set := dX | dY | dZ.

Definition axis_len (d : direction) (sh : Shape) : nat :=
  match d with dX => n0 sh | dY => n1 sh | dZ => n2 sh end.

Definition pos_along (d : direction) (i j k : nat) : nat :=
  match d with dX => i | dY => j | dZ => k end.

(** the entry of [B] at the node [(i, j, k)] moved to index [t] along [d] *)
Definition along (d : direction) (B : ndarray) (t i j k : nat) : nat -> nat -> Qc :=
  match d with
  | dX => item B t j k
  | dY => item B i t k
  | dZ => item B i j t
  end.

(** [G] holds the difference quotients of [B] along [d]: forward at the first
    node, backward at the last, over the two neighbours in between, each
    divided by [delta] *)
Definition finite_differences (d : direction) (delta : Qc) (B G : ndarray) : Prop :=
  shape G = shape B /\
  forall i j k c n, i < n0 (shape B) -> j < n1 (shape B) -> k < n2 (shape B) ->
    let t := pos_along d i j k in
    let last := axis_len d (shape B) - 1 in
    (t = 0 ->
       item G i j k c n = ((along d B 1 i j k c n - along d B 0 i j k c n) / delta)%Qc)
    /\ (t = last ->
       item G i j k c n
       = ((along d B last i j k c n - along d B (last - 1) i j k c n) / delta)%Qc)
    /\ (0 < t < last ->
       item G i j k c n
       = ((along d B (t + 1) i j k c n - along d B (t - 1) i j k c n) / delta)%Qc).

(** ** Queries *)

(** the interpolation in the cell of lower node [(i, j, k)], at the position
    [(tx, ty, tz)] inside the cell *)
Definition trilinear (V : ndarray) (i j k : nat) (tx ty tz : Qc) (c n : nat) : Qc :=
  ((1 - tx) * (1 - ty) * (1 - tz) * item V i j k c n
   + (1 - tx) * (1 - ty) * tz * item V i j (k + 1) c n
   + (1 - tx) * ty * (1 - tz) * item V i (j + 1) k c n
   + (1 - tx) * ty * tz * item V i (j + 1) (k + 1) c n
   + tx * (1 - ty) * (1 - tz) * item V (i + 1) j k c n
   + tx * (1 - ty) * tz * item V (i + 1) j (k + 1) c n
   + tx * ty * (1 - tz) * item V (i + 1) (j + 1) k c n
   + tx * ty * tz * item V (i + 1) (j + 1) (k + 1) c n)%Qc.

Definition outside_box (o : magnetic_system) (pos : Qc * Qc * Qc) : Prop :=
  let '(x, y, z) := pos in
  (x < xmin o)%Qc \/ (xmax o < x)%Qc \/ (y < ymin o)%Qc \/ (ymax o < y)%Qc
  \/ (z < zmin o)%Qc \/ (zmax o < z)%Qc.

Definition in_box (o : magnetic_system) (pos : Qc * Qc * Qc) : Prop :=
  let '(x, y, z) := pos in
  (xmin o <= x)%Qc /\ (x <= xmax o)%Qc /\ (ymin o <= y)%Qc /\ (y <= ymax o)%Qc
  /\ (zmin o <= z)%Qc /\ (z <= zmax o)%Qc.

(** [m.dot(D)] entry by entry, for a vector of three components *)
Definition contract (m : list Qc) (D : list (list Qc)) (ncoils : nat) : list Qc :=
  map (fun n => (nth 0 m (Q2Qc 0) * nth n (nth 0 D []) (Q2Qc 0)
                 + nth 1 m (Q2Qc 0) * nth n (nth 1 D []) (Q2Qc 0)
                 + nth 2 m (Q2Qc 0) * nth n (nth 2 D []) (Q2Qc 0))%Qc)
      (seq 0 ncoils).

(** ** Well-formed systems *)

Definition axes (o : magnetic_system) : list Qc * list Qc * list Qc :=
  (xcoords o, ycoords o, zcoords o).

Definition grid_shape (o : magnetic_system) : Shape :=
  mkShape (length (xcoords o)) (length (ycoords o)) (length (zcoords o)) 3 (Ncoils o).

(** an interpolator attribute bound to the axes of the object and to an
    allocated array of the shape of the grid *)
Definition bound (w : world) (oi : option interpolator) : Prop :=
  exists i V, oi = Some i /\ grid i = axes (self w)
    /\ heap w !! values i = Some V /\ shape V = grid_shape (self w).

Definition axis_ok (g : list Qc) (lo hi : Qc) : Prop :=
  strictly_ascending g = true /\ 2 <= length g /\ head g = Some lo /\ last g = Some hi.

Record wf (w : world) : Prop := mk_wf {
  wf_x : axis_ok (xcoords (self w)) (xmin (self w)) (xmax (self w));
  wf_y : axis_ok (ycoords (self w)) (ymin (self w)) (ymax (self w));
  wf_z : axis_ok (zcoords (self w)) (zmin (self w)) (zmax (self w));
  wf_Bs : exists B, heap w !! Bs (self w) = Some B /\ shape B = grid_shape (self w);
  wf_Bact : exists i, BactInterpolator (self w) = Some i
              /\ grid i = axes (self w) /\ values i = Bs (self w);
  wf_BxI : bound w (BxInterpolator (self w));
  wf_ByI : bound w (ByInterpolator (self w));
  wf_BzI : bound w (BzInterpolator (self w))
}.

(** ** The constructor *)

(** [self.xcoords] as lines 33 and 34 build it from one column *)
Definition axis (col : list Qc) : list Qc := list_sort (extract_unique_vals_tol col).

(** the coordinates the axes are extracted from *)
Definition used_coordinates (posunit : string) (coords : list (Qc * Qc * Qc))
    : list (Qc * Qc * Qc) :=
  if decide (posunit = "mm") then scale_mm coords else coords.

Definition xcol (cs : list (Qc * Qc * Qc)) : list Qc := map (fun p => p.1.1) cs.
Definition ycol (cs : list (Qc * Qc * Qc)) : list Qc := map (fun p => p.1.2) cs.
Definition zcol (cs : list (Qc * Qc * Qc)) : list Qc := map (fun p => p.2) cs.

(** [g] is the axis of the column [col], with spacing [delta] *)
Definition axis_of (col g : list Qc) (delta : Qc) : Prop :=
  g = list_sort (extract_unique_vals_tol col)
  /\ (forall v, v ∈ g <-> exists c, c ∈ col /\ v = round_1e6 c)
  /\ StronglySorted Qclt g
  /\ 2 <= length g
  /\ exists a b, g !! 0 = Some a /\ g !! 1 = Some b /\ delta = (b - a)%Qc.

(** ** Coil permutation *)

Definition is_permutation (n : nat) (cv : list Z) : Prop :=
  length cv = n /\ NoDup cv /\ Forall (fun v => (0 <= v < Z.of_nat n)%Z) cv.

(** the attributes after a permutation that ran to its end, in a heap that
    had [L] arrays *)
Definition after_permutation (o : magnetic_system) (L : nat) : magnetic_system :=
  set_Bz (L + 3) (set_By (L + 2) (set_Bx (L + 1)
    (set_BactInterpolator (mkInterp (axes o) L) (set_Bs L o)))).

(** [idx] coils are in place in the copy of [B] *)
Definition permuted_upto (o : magnetic_system) (h : list ndarray) (B : ndarray)
    (coilvec : list Z) (idx : nat) (w : world) : Prop :=
  exists T, w = mkWorld o (h ++ [T]) /\ shape T = shape B /\
    forall n,
      (n < idx -> exists v c, coilvec !! n = Some v
                  /\ np_index (n4 (shape B)) v = inr c /\ n < n4 (shape B)
                  /\ forall i j k comp, item T i j k comp n = item B i j k comp c)
      /\ (idx <= n -> forall i j k comp, item T i j k comp n = item B i j k comp n).

(** what makes the step [idx] of the loop of [permutate_coils] raise *)
Definition bad_entry (B : ndarray) (coilvec : list Z) (idx : nat) : Prop :=
  coilvec !! idx = None
  \/ (exists v, coilvec !! idx = Some v /\ np_index (n4 (shape B)) v = inl IndexError)
  \/ n4 (shape B) <= idx.

Definition raised_in_loop (o : magnetic_system) (h : list ndarray) (B : ndarray)
    (coilvec : list Z) (idx : nat) (e : exn) (w : world) : Prop :=
  e = IndexError /\ bad_entry B coilvec idx /\ exists T, w = mkWorld o (h ++ [T]).

(** ** Rounding to significant digits, as the specification words it *)

Definition pow10 (e : Z) : Qc :=
  if (0 <=? e)%Z then Z2Qc (10 ^ e) else (/ Z2Qc (10 ^ (- e)))%Qc.

Definition Qc_abs (q : Qc) : Qc := if bool_decide (q < Q2Qc 0)%Qc then (- q)%Qc else q.

(** the exponent of the leading decimal digit of [q], [q] not zero *)
Definition decimal_exponent (q : Qc) : Z :=
  let digits (p : positive) := Z.of_nat (Decimal.nb_digits (Pos.to_uint p)) in
  let e0 := (digits (Z.to_pos (Z.abs (Qnum (this q)))) - digits (Qden (this q)))%Z in
  if bool_decide (pow10 e0 <= Qc_abs q)%Qc then e0 else (e0 - 1)%Z.

Definition round_sig (digits : nat) (q : Qc) : Qc :=
  if bool_decide (q = Q2Qc 0) then Q2Qc 0
  else
    let s := pow10 (decimal_exponent q - (Z.of_nat digits - 1)) in
    (Z2Qc (py_round (q / s)) * s)%Qc.

(** the axis as the specification words it: the values rounded to 6
    significant digits, without duplicates, ascending *)
Definition axis_sig6 (col : list Qc) : list Qc :=
  list_sort (elements (list_to_set (map (round_sig 6) col) : gset Qc)).

(** ** Example systems *)

Definition grid_points (xs ys zs : list Qc) : list (Qc * Qc * Qc) :=
  flat_map (fun x => flat_map (fun y => map (fun z => (x, y, z)) zs) ys) xs.

Definition cm (n : Z) : Qc := Q2Qc (n # 100).

Definition no_system : world :=
  mkWorld (mkSys 0 [] 0 [] (Q2Qc 0) (Q2Qc 0) (Q2Qc 0) [] (Q2Qc 0) (Q2Qc 0) (Q2Qc 0)
             [] (Q2Qc 0) (Q2Qc 0) (Q2Qc 0) None None None None None None None) [].

(** the object a constructor call returned *)
Definition built (r : Exc world) : world :=
  match r with inr w => w | inl _ => no_system end.

(** six coils on a 3 x 2 x 2 grid of spacing 1 cm; the field of coil [n]
    grows with the node index, [n + 1] times as fast as that of coil 0 *)
Definition B6 : ndarray :=
  mkArr (mkShape 3 2 2 3 6)
    (fun i j k c n => Z2Qc (Z.of_nat ((n + 1) * (i + 10 * j + 100 * k) + 1000 * c))).
Definition pts6 : list (Qc * Qc * Qc) :=
  grid_points [cm 0; cm 1; cm 2] [cm 0; cm 1] [cm 0; cm 1].
Definition sys6 : world := built (__init__ (B6, pts6) 6 "m").

(** three coils and seven coils on a 2 x 2 x 2 grid; the field of coil [n]
    is [n + 1] everywhere *)
Definition Bconst (ncoils : nat) : ndarray :=
  mkArr (mkShape 2 2 2 3 ncoils) (fun i j k c n => Z2Qc (Z.of_nat (n + 1))).
Definition pts2 : list (Qc * Qc * Qc) :=
  grid_points [cm 0; cm 1] [cm 0; cm 1] [cm 0; cm 1].
Definition sys3 : world := built (__init__ (Bconst 3, pts2) 3 "m").
Definition sys7 : world := built (__init__ (Bconst 7, pts2) 7 "m").

(** one coil on a 3 x 3 x 3 grid of spacing 1 cm, field [B = 5 x] *)
Definition Blin : ndarray :=
  mkArr (mkShape 3 3 3 3 1) (fun i j k c n => (Z2Qc 5 * cm (Z.of_nat i))%Qc).
Definition pts3 : list (Qc * Qc * Qc) :=
  grid_points [cm 0; cm 1; cm 2] [cm 0; cm 1; cm 2] [cm 0; cm 1; cm 2].
Definition sys_lin : world := built (__init__ (Blin, pts3) 1 "m").

(** a grid whose second x value has ten significant digits *)
Definition pts9 : list (Qc * Qc * Qc) :=
  grid_points [cm 0; Q2Qc (123456789 # 10000000000)] [cm 0; cm 1] [cm 0; cm 1].
Definition sys9 : world := built (__init__ (Bconst 1, pts9) 1 "m").

(** deciding a closed statement by evaluation *)
Ltac by_eval := apply (bool_decide_unpack _); vm_compute; exact I.
Ltac evals := repeat match goal with |- _ /\ _ => split end; by_eval.

(** ** Further vocabulary *)

(** the first six entries of [coilvec] exist and index an axis of [ncoils]
    coils, six or more *)
Definition accepted (ncoils : nat) (coilvec : list Z) : Prop :=
  6 <= ncoils /\
  forall idx, idx < 6 ->
    exists v, coilvec !! idx = Some v /\ (- Z.of_nat ncoils <= v < Z.of_nat ncoils)%Z.

(** a computation that leaves the object and the heap as they are *)
Definition read_only {A} (m : M A) : Prop := forall w, snd (m w) = w.

(** sample points that all share one x value *)
Definition pts_flat : list (Qc * Qc * Qc) :=
  grid_points [cm 0] [cm 0; cm 1] [cm 0; cm 1].

(** a field array with a single node along x, alone in a heap *)
Definition B_single : ndarray := np_zeros (mkShape 1 2 2 3 1).
Definition world_single : world := mkWorld (self no_system) [B_single].

(** the coordinates multiplied by [k], the rescaling of the specification *)
Definition rescaled (k : Qc) (coords : list (Qc * Qc * Qc)) : list (Qc * Qc * Qc) :=
  map (fun p => ((k * p.1.1)%Qc, (k * p.1.2)%Qc, (k * p.2)%Qc)) coords.

(** the sample points of [sys6], given in millimetres *)
Definition pts6_mm : list (Qc * Qc * Qc) := rescaled (Q2Qc (1000 # 1)) pts6.

(** ** Vocabulary for the loader *)

(** the node that [get_magfield_data_sampled] writes the sample at [p] to, in
    an array of shape [sh] *)
Definition node_of (g : sampling) (sh : Shape) (p : Qc * Qc * Qc) : Exc (nat * nat * nat) :=
  i ← np_index (n0 sh) (nearest_index p.1.1 (lo_x g) (delta_x g));
  j ← np_index (n1 sh) (nearest_index p.1.2 (lo_y g) (delta_y g));
  k ← np_index (n2 sh) (nearest_index p.2 (lo_z g) (delta_z g));
  mret (i, j, k).

(** of the first [m] samples, [i] is the last one that lands on the node [r] *)
Definition last_at (g : sampling) (sh : Shape) (coords : list (Qc * Qc * Qc))
    (m i : nat) (r : nat * nat * nat) : Prop :=
  i < m
  /\ (exists p, coords !! i = Some p /\ node_of g sh p = inr r)
  /\ forall j q, i < j < m -> coords !! j = Some q -> node_of g sh q <> inr r.

(** none of the first [m] samples lands on the node [r] *)
Definition no_sample_at (g : sampling) (sh : Shape) (coords : list (Qc * Qc * Qc))
    (m : nat) (r : nat * nat * nat) : Prop :=
  forall i p, i < m -> coords !! i = Some p -> node_of g sh p <> inr r.

(** [len(fields[0])], the number of samples the loops visit *)
Definition npoints (data : calibration_data) : nat :=
  from_option length 0 (field_measurements data !! 0).

(** [fields[n][i]] *)
Definition measurement (data : calibration_data) (n i : nat) : option (Qc * Qc * Qc) :=
  field_measurements data !! n ≫= (.!! i).

(** the dimension that line 193 computes for one direction *)
Definition dimension (lo hi delta : Qc) : Z := (1 + py_round ((hi - lo) / delta)%Qc)%Z.

(** the axis of one direction as [sampling_steps] reads it *)
Definition steps_of (col : list Qc) (lo hi delta : Qc) : Prop :=
  exists a1 a0, axis col !! 1 = Some a1 /\ axis col !! 0 = Some a0
    /\ delta = (a1 - a0)%Qc /\ axis_ok (axis col) lo hi.

(** what the first [m] samples of the coil [n] leave in [T], written over [T0] *)
Definition placed (data : calibration_data) (g : sampling) (sh : Shape)
    (m n : nat) (T T0 : ndarray) : Prop :=
  (forall i r v comp,
      last_at g sh (sampled_points data) m i r -> measurement data n i = Some v ->
      item T r.1.1 r.1.2 r.2 comp n = component comp v)
  /\ (forall r comp,
      no_sample_at g sh (sampled_points data) m r ->
      item T r.1.1 r.1.2 r.2 comp n = item T0 r.1.1 r.1.2 r.2 comp n).

(** the array after [m] passes of the inner loop for the coil [n] *)
Definition inner_inv (data : calibration_data) (g : sampling) (sh : Shape)
    (n : nat) (T0 : ndarray) (m : nat) (T : ndarray) : Prop :=
  shape T = sh
  /\ (forall n' i j k c, n' <> n -> item T i j k c n' = item T0 i j k c n')
  /\ placed data g sh m n T T0.

(** the array after [nc] passes of the outer loop *)
Definition outer_inv (data : calibration_data) (g : sampling) (sh : Shape)
    (nc : nat) (T : ndarray) : Prop :=
  shape T = sh
  /\ (forall n, n < nc -> placed data g sh (npoints data) n T (np_zeros sh))
  /\ (forall n i j k c, nc <= n -> item T i j k c n = Q2Qc 0).

(** what a run of the loader returned *)
Definition loaded (r : Exc (ndarray * list (Qc * Qc * Qc) * (nat * nat * nat)))
    : ndarray * list (Qc * Qc * Qc) * (nat * nat * nat) :=
  match r with
  | inr x => x
  | inl _ => (np_zeros (mkShape 0 0 0 0 0), [], (0, 0, 0))
  end.

(** eight samples of one coil on a 2 x 2 x 2 grid: the node (1,1,1) is left
    out and the node (0,0,0) is sampled twice, first and last *)
Definition pts_dup : list (Qc * Qc * Qc) := take 7 pts2 ++ take 1 pts2.
Definition cal_dup : calibration_data :=
  mkCal pts_dup [imap (fun i p => (Z2Qc (Z.of_nat i), p.1.1, p.2)) pts_dup] (Z2Qc 2).
Definition B_dup : ndarray := (loaded (get_magfield_data_sampled cal_dup 1)).1.1.

(** the object built from these samples *)
Definition sys_dup : world := built (magnetic_system_sampled cal_dup 1 "m").

(** the steps of a run of [sampling_steps] that returned *)
Definition steps (r : Exc sampling) : sampling :=
  match r with
  | inr g => g
  | inl _ => mkSampling (Q2Qc 0) (Q2Qc 0) (Q2Qc 0) (Q2Qc 0) (Q2Qc 0) (Q2Qc 0)
               (Q2Qc 0) (Q2Qc 0) (Q2Qc 0)
  end.
Definition steps_dup : sampling := steps (sampling_steps pts_dup).

(** samples of one coil on an axis with a gap: x takes the values 0, 1 and
    3 cm *)
Definition pts_gap : list (Qc * Qc * Qc) :=
  grid_points [cm 0; cm 1; cm 3] [cm 0; cm 1] [cm 0; cm 1].
Definition cal_gap : calibration_data := mkCal pts_gap [pts_gap] (Z2Qc 1).
Definition B_gap : ndarray := (loaded (get_magfield_data_sampled cal_gap 1)).1.1.

(** * Lemmas *)


(** * Running the monad *)

Lemma run_bind {A B} (m : M A) (f : A -> M B) w :
  (m ≫= f) w = match m w with
               | (inl e, w') => (inl e, w')
               | (inr a, w') => f a w'
               end.
Proof. reflexivity. Qed.

Lemma run_bind_ok {A B} (m : M A) (f : A -> M B) w a w' :
  m w = (inr a, w') -> (m ≫= f) w = f a w'.
Proof. intros H. rewrite run_bind, H. reflexivity. Qed.

Lemma run_bind_err {A B} (m : M A) (f : A -> M B) w e w' :
  m w = (inl e, w') -> (m ≫= f) w = (inl e, w').
Proof. intros H. rewrite run_bind, H. reflexivity. Qed.

Lemma run_load l w a : heap w !! l = Some a -> load l w = (inr a, w).
Proof. intros H. unfold load. rewrite H. reflexivity. Qed.

Lemma run_attr_opt {A} (F : magnetic_system -> option A) w a :
  F (self w) = Some a -> attr_opt F w = (inr a, w).
Proof. intros H. unfold attr_opt. rewrite H. reflexivity. Qed.

(** [for_range] with an invariant indexed by the loop counter. *)
Lemma for_range_inv (I : nat -> world -> Prop) body n : forall lo,
  (forall i w, lo <= i < lo + n -> I i w -> exists w', body i w = (inr tt, w') /\ I (S i) w') ->
  forall w, I lo w -> exists w', for_range lo n body w = (inr tt, w') /\ I (lo + n) w'.
Proof.
  induction n as [|n IH]; intros lo Hbody w Hw; simpl.
  - exists w. rewrite Nat.add_0_r. split; [reflexivity | assumption].
  - destruct (Hbody lo w) as (w1 & E1 & H1); [lia | assumption |].
    destruct (IH (S lo)) with (w := w1) as (w2 & E2 & H2); [| assumption |].
    + intros i w' Hi. apply Hbody. lia.
    + exists w2. rewrite (run_bind_ok _ _ _ _ _ E1).
      replace (lo + S n) with (S lo + n) by lia. split; assumption.
Qed.

Lemma set_node_ok T i j k v :
  i < n0 (shape T) -> j < n1 (shape T) -> k < n2 (shape T) ->
  set_node T i j k v = inr (write T i j k v).
Proof.
  intros Hi Hj Hk. unfold set_node.
  apply Nat.ltb_lt in Hi, Hj, Hk. rewrite Hi, Hj, Hk. reflexivity.
Qed.

Lemma get_node_ok T i j k :
  i < n0 (shape T) -> j < n1 (shape T) -> k < n2 (shape T) ->
  get_node T i j k = inr (item T i j k).
Proof.
  intros Hi Hj Hk. unfold get_node.
  apply Nat.ltb_lt in Hi, Hj, Hk. rewrite Hi, Hj, Hk. reflexivity.
Qed.

Lemma item_write_eq T i j k v : item (write T i j k v) i j k = v.
Proof. simpl. rewrite !Nat.eqb_refl. reflexivity. Qed.

Lemma item_write_ne T i j k v i' j' k' :
  (i', j', k') <> (i, j, k) -> item (write T i j k v) i' j' k' = item T i' j' k'.
Proof.
  intros H. simpl.
  destruct (i' =? i) eqn:Ei; [| reflexivity].
  destruct (j' =? j) eqn:Ej; [| reflexivity].
  destruct (k' =? k) eqn:Ek; [| reflexivity].
  apply Nat.eqb_eq in Ei, Ej, Ek. congruence.
Qed.

(** * One pass of the gradient computation *)

Section Pass.
Variables (o : magnetic_system) (h0 : list ndarray) (lF : loc) (sh : Shape).
Variable body : nat -> nat -> nat -> M unit.
Variable val : nat -> nat -> nat -> nat -> nat -> Qc.

Hypothesis body_assigns : forall i j k T,
  i < n0 sh -> j < n1 sh -> k < n2 sh -> shape T = sh ->
  body i j k (during o h0 lF T) = (inr tt, during o h0 lF (write T i j k (val i j k))).

Lemma pass_loops T0 :
  shape T0 = sh ->
  exists T,
    for_range 0 (n0 sh) (fun nx =>
      for_range 0 (n1 sh) (fun ny =>
        for_range 0 (n2 sh) (fun nz => body nx ny nz))) (during o h0 lF T0)
    = (inr tt, during o h0 lF T)
    /\ shape T = sh
    /\ forall i j k, i < n0 sh -> j < n1 sh -> k < n2 sh -> item T i j k = val i j k.
Proof.
  intros Hsh.
  destruct (for_range_inv (fun a => filled o h0 lF sh val a 0 0)
              (fun nx => for_range 0 (n1 sh) (fun ny =>
                 for_range 0 (n2 sh) (fun nz => body nx ny nz))) (n0 sh) 0)
    with (w := during o h0 lF T0) as (w' & E & T & -> & HT & Hall).
  - intros a w Ha Hw.
    destruct (for_range_inv (fun b => filled o h0 lF sh val a b 0)
                (fun ny => for_range 0 (n2 sh) (fun nz => body a ny nz)) (n1 sh) 0)
      with (w := w) as (w1 & E1 & T1 & -> & HT1 & H1); [| assumption |].
    + intros b w0 Hb Hw0.
      destruct (for_range_inv (fun c => filled o h0 lF sh val a b c)
                  (fun nz => body a b nz) (n2 sh) 0)
        with (w := w0) as (w2 & E2 & T2 & -> & HT2 & H2); [| assumption |].
      * intros c w3 Hc (T3 & -> & HT3 & H3).
        eexists. split; [apply body_assigns; lia || assumption |].
        exists (write T3 a b c (val a b c)). split; [reflexivity |].
        split; [simpl; assumption |].
        intros i j k Hi Hj Hk Hd.
        destruct (decide ((i, j, k) = (a, b, c))) as [[= -> -> ->] | Hne].
        -- apply item_write_eq.
        -- rewrite item_write_ne by assumption. apply H3; try assumption.
           unfold visited in *.
           assert (k <> c \/ j <> b \/ i <> a) by
             (destruct (decide (k = c)), (decide (j = b)), (decide (i = a)); subst; tauto).
           lia.
      * exists (during o h0 lF T2). split; [assumption |].
        exists T2. split; [reflexivity |]. split; [assumption |].
        intros i j k Hi Hj Hk Hd. apply H2; try assumption. unfold visited in *. lia.
    + exists (during o h0 lF T1). split; [assumption |].
      exists T1. split; [reflexivity |]. split; [assumption |].
      intros i j k Hi Hj Hk Hd. apply H1; try assumption. unfold visited in *. lia.
  - exists T0. split; [reflexivity |]. split; [assumption |].
    intros i j k _ _ _ Hd. unfold visited in Hd. lia.
  - exists T. split; [assumption |]. split; [assumption |].
    intros i j k Hi Hj Hk. apply Hall; try assumption. unfold visited. lia.
Qed.
End Pass.

Lemma insert_snoc {A} (h : list A) (x y : A) : <[length h := x]> (h ++ [y]) = h ++ [x].
Proof.
  rewrite insert_app_r_alt by lia. rewrite Nat.sub_diag. reflexivity.
Qed.

Lemma run_Bs_node w B i j k :
  heap w !! Bs (self w) = Some B ->
  i < n0 (shape B) -> j < n1 (shape B) -> k < n2 (shape B) ->
  Bs_node i j k w = (inr (item B i j k), w).
Proof.
  intros HB Hi Hj Hk. unfold Bs_node.
  rewrite (run_bind_ok _ _ w (Bs (self w)) w) by reflexivity.
  rewrite (run_bind_ok _ _ w B w) by (apply run_load; assumption).
  unfold lift. rewrite get_node_ok by assumption. reflexivity.
Qed.

Lemma run_assign_node F w l T i j k v :
  F (self w) = Some l -> heap w !! l = Some T ->
  i < n0 (shape T) -> j < n1 (shape T) -> k < n2 (shape T) ->
  assign_node F i j k v w
  = (inr tt, mkWorld (self w) (<[l := write T i j k v]> (heap w))).
Proof.
  intros HF HT Hi Hj Hk. unfold assign_node.
  rewrite (run_bind_ok _ _ w l w) by (apply run_attr_opt; assumption).
  rewrite (run_bind_ok _ _ w T w) by (apply run_load; assumption).
  rewrite (run_bind_ok _ _ w (write T i j k v) w)
    by (unfold lift; rewrite set_node_ok by assumption; reflexivity).
  reflexivity.
Qed.

(** One assignment of a difference quotient, as the loops of
    [_compute_gradient_tensor] make it. *)
Lemma assign_diff_quot o h lF F (delta : magnetic_system -> Qc) B T p1 p2 p3 q1 q2 q3 i j k :
  F o = Some lF -> Bs o <> lF -> lF < length h ->
  h !! Bs o = Some B -> shape T = shape B ->
  p1 < n0 (shape B) -> p2 < n1 (shape B) -> p3 < n2 (shape B) ->
  q1 < n0 (shape B) -> q2 < n1 (shape B) -> q3 < n2 (shape B) ->
  i < n0 (shape B) -> j < n1 (shape B) -> k < n2 (shape B) ->
  (p ← Bs_node p1 p2 p3; q ← Bs_node q1 q2 q3; d ← attr delta;
   assign_node F i j k (diff_quot p q d)) (during o h lF T)
  = (inr tt, during o h lF
               (write T i j k (diff_quot (item B p1 p2 p3) (item B q1 q2 q3) (delta o)))).
Proof.
  intros HF Hne Hlt HB HT Hp1 Hp2 Hp3 Hq1 Hq2 Hq3 Hi Hj Hk.
  assert (HB' : heap (during o h lF T) !! Bs (self (during o h lF T)) = Some B).
  { simpl. rewrite list_lookup_insert_ne by congruence. assumption. }
  assert (HT' : heap (during o h lF T) !! lF = Some T).
  { simpl. apply list_lookup_insert_eq. assumption. }
  rewrite (run_bind_ok _ _ _ _ _ (run_Bs_node _ B p1 p2 p3 HB' Hp1 Hp2 Hp3)).
  rewrite (run_bind_ok _ _ _ _ _ (run_Bs_node _ B q1 q2 q3 HB' Hq1 Hq2 Hq3)).
  rewrite (run_bind_ok _ _ _ (delta o) (during o h lF T)) by reflexivity.
  rewrite (run_assign_node F _ lF T) by (rewrite ?HT; assumption).
  unfold during. cbn [self heap]. rewrite list_insert_insert_eq. reflexivity.
Qed.

Ltac pass_body :=
  intros;
  repeat match goal with
         | |- context [if ?b then _ else _] =>
             let E := fresh "E" in destruct b eqn:E;
             [apply Nat.eqb_eq in E | apply Nat.eqb_neq in E]
         end;
  eapply assign_diff_quot; eauto; lia.

Section Passes.
Variables (o : magnetic_system) (h : list ndarray) (lF : loc) (B : ndarray).
Hypothesis HB : h !! Bs o = Some B.
Hypothesis Hne : Bs o <> lF.
Hypothesis Hlt : lF < length h.
Hypothesis H0 : 2 <= n0 (shape B).
Hypothesis H1 : 2 <= n1 (shape B).
Hypothesis H2 : 2 <= n2 (shape B).

Lemma pass_x T0 : Bx o = Some lF -> shape T0 = shape B ->
  exists T,
    for_range 0 (n0 (shape B)) (fun nx =>
      for_range 0 (n1 (shape B)) (fun ny =>
        for_range 0 (n2 (shape B)) (fun nz =>
          if nx =? 0 then
            p ← Bs_node (nx + 1) ny nz; q ← Bs_node nx ny nz; d ← attr deltax;
            assign_node Bx nx ny nz (diff_quot p q d)
          else if nx =? n0 (shape B) - 1 then
            p ← Bs_node nx ny nz; q ← Bs_node (nx - 1) ny nz; d ← attr deltax;
            assign_node Bx nx ny nz (diff_quot p q d)
          else
            p ← Bs_node (nx + 1) ny nz; q ← Bs_node (nx - 1) ny nz; d ← attr deltax;
            assign_node Bx nx ny nz (diff_quot p q d)))) (during o h lF T0)
    = (inr tt, during o h lF T)
    /\ shape T = shape B
    /\ forall i j k, i < n0 (shape B) -> j < n1 (shape B) -> k < n2 (shape B) ->
         item T i j k = grad_x B (deltax o) i j k.
Proof.
  intros HF HT0.
  apply (pass_loops o h lF (shape B) _ (grad_x B (deltax o))); [| assumption].
  unfold grad_x. pass_body.
Qed.

Lemma pass_y T0 : By o = Some lF -> shape T0 = shape B ->
  exists T,
    for_range 0 (n0 (shape B)) (fun nx =>
      for_range 0 (n1 (shape B)) (fun ny =>
        for_range 0 (n2 (shape B)) (fun nz =>
          if ny =? 0 then
            p ← Bs_node nx (ny + 1) nz; q ← Bs_node nx ny nz; d ← attr deltay;
            assign_node By nx ny nz (diff_quot p q d)
          else if ny =? n1 (shape B) - 1 then
            p ← Bs_node nx ny nz; q ← Bs_node nx (ny - 1) nz; d ← attr deltay;
            assign_node By nx ny nz (diff_quot p q d)
          else
            p ← Bs_node nx (ny + 1) nz; q ← Bs_node nx (ny - 1) nz; d ← attr deltay;
            assign_node By nx ny nz (diff_quot p q d)))) (during o h lF T0)
    = (inr tt, during o h lF T)
    /\ shape T = shape B
    /\ forall i j k, i < n0 (shape B) -> j < n1 (shape B) -> k < n2 (shape B) ->
         item T i j k = grad_y B (deltay o) i j k.
Proof.
  intros HF HT0.
  apply (pass_loops o h lF (shape B) _ (grad_y B (deltay o))); [| assumption].
  unfold grad_y. pass_body.
Qed.

Lemma pass_z T0 : Bz o = Some lF -> shape T0 = shape B ->
  exists T,
    for_range 0 (n0 (shape B)) (fun nx =>
      for_range 0 (n1 (shape B)) (fun ny =>
        for_range 0 (n2 (shape B)) (fun nz =>
          if nz =? 0 then
            p ← Bs_node nx ny (nz + 1); q ← Bs_node nx ny nz; d ← attr deltaz;
            assign_node Bz nx ny nz (diff_quot p q d)
          else if nz =? n2 (shape B) - 1 then
            p ← Bs_node nx ny nz; q ← Bs_node nx ny (nz - 1); d ← attr deltaz;
            assign_node Bz nx ny nz (diff_quot p q d)
          else
            p ← Bs_node nx ny (nz + 1); q ← Bs_node nx ny (nz - 1); d ← attr deltaz;
            assign_node Bz nx ny nz (diff_quot p q d)))) (during o h lF T0)
    = (inr tt, during o h lF T)
    /\ shape T = shape B
    /\ forall i j k, i < n0 (shape B) -> j < n1 (shape B) -> k < n2 (shape B) ->
         item T i j k = grad_z B (deltaz o) i j k.
Proof.
  intros HF HT0.
  apply (pass_loops o h lF (shape B) _ (grad_z B (deltaz o))); [| assumption].
  unfold grad_z. pass_body.
Qed.
End Passes.

Lemma during_snoc o (h : list ndarray) (Z0 T : ndarray) :
  during o (h ++ [Z0]) (length h) T = mkWorld o (h ++ [T]).
Proof. unfold during. rewrite insert_snoc. reflexivity. Qed.

Lemma compute_gradient_tensor_run w B :
  heap w !! Bs (self w) = Some B ->
  2 <= n0 (shape B) -> 2 <= n1 (shape B) -> 2 <= n2 (shape B) ->
  exists X Y Z,
    _compute_gradient_tensor w
    = (inr tt,
       mkWorld (set_Bz (length (heap w) + 2)
                  (set_By (length (heap w) + 1) (set_Bx (length (heap w)) (self w))))
               (heap w ++ [X; Y; Z]))
    /\ shape X = shape B /\ shape Y = shape B /\ shape Z = shape B
    /\ (forall i j k, i < n0 (shape B) -> j < n1 (shape B) -> k < n2 (shape B) ->
          item X i j k = grad_x B (deltax (self w)) i j k)
    /\ (forall i j k, i < n0 (shape B) -> j < n1 (shape B) -> k < n2 (shape B) ->
          item Y i j k = grad_y B (deltay (self w)) i j k)
    /\ (forall i j k, i < n0 (shape B) -> j < n1 (shape B) -> k < n2 (shape B) ->
          item Z i j k = grad_z B (deltaz (self w)) i j k).
Proof.
  intros HB H0 H1 H2. destruct w as [o h]. cbn [self heap] in *.
  assert (Hlt : Bs o < length h) by (apply lookup_lt_is_Some; eauto).
  set (L := length h).
  set (o1 := set_Bx L o). set (o2 := set_By (L + 1) o1). set (o3 := set_Bz (L + 2) o2).
  (* x *)
  destruct (pass_x o1 (h ++ [np_zeros (shape B)]) L B) with (T0 := np_zeros (shape B))
    as (X & EX & HX & HXv); try assumption; try reflexivity.
  { rewrite lookup_app_l by assumption. assumption. }
  { simpl. lia. }
  { rewrite length_app. simpl. lia. }
  rewrite !during_snoc in EX.
  (* y *)
  destruct (pass_y o2 (h ++ [X] ++ [np_zeros (shape B)]) (L + 1) B) with (T0 := np_zeros (shape B))
    as (Y & EY & HY & HYv); try assumption; try reflexivity.
  { rewrite lookup_app_l by assumption. assumption. }
  { simpl. lia. }
  { rewrite !length_app. simpl. lia. }
  replace (L + 1) with (length (h ++ [X])) in EY at 1 2 by (rewrite length_app; simpl; lia).
  rewrite !(assoc app), !during_snoc, <- !(assoc app) in EY.
  (* z *)
  destruct (pass_z o3 (h ++ [X; Y] ++ [np_zeros (shape B)]) (L + 2) B) with (T0 := np_zeros (shape B))
    as (Z & EZ & HZ & HZv); try assumption; try reflexivity.
  { rewrite lookup_app_l by assumption. assumption. }
  { simpl. lia. }
  { rewrite !length_app. simpl. lia. }
  replace (L + 2) with (length (h ++ [X; Y])) in EZ at 1 2 by (rewrite length_app; simpl; lia).
  rewrite !(assoc app), !during_snoc, <- !(assoc app) in EZ.
  exists X, Y, Z. split; [| by repeat split].
  unfold _compute_gradient_tensor.
  rewrite (run_bind_ok _ _ _ (Bs o) (mkWorld o h)) by reflexivity.
  rewrite (run_bind_ok _ _ _ B (mkWorld o h)) by (apply run_load; assumption).
  rewrite (run_bind_ok _ _ _ (Bs o) (mkWorld o h)) by reflexivity.
  rewrite (run_bind_ok _ _ _ B (mkWorld o h)) by (apply run_load; assumption).
  rewrite (run_bind_ok _ _ _ L (mkWorld o (h ++ [np_zeros (shape B)]))) by reflexivity.
  rewrite (run_bind_ok _ _ _ tt (mkWorld o1 (h ++ [np_zeros (shape B)]))) by reflexivity.
  rewrite (run_bind_ok _ _ _ tt _ EX).
  rewrite (run_bind_ok _ _ _ (Bs o) (mkWorld o1 (h ++ [X]))) by reflexivity.
  rewrite (run_bind_ok _ _ _ B (mkWorld o1 (h ++ [X])))
    by (apply run_load; simpl; rewrite lookup_app_l by assumption; assumption).
  rewrite (run_bind_ok _ _ _ (L + 1) (mkWorld o1 (h ++ [X] ++ [np_zeros (shape B)])))
    by (unfold alloc; cbn [self heap]; rewrite length_app, <- (assoc app); reflexivity).
  rewrite (run_bind_ok _ _ _ tt (mkWorld o2 (h ++ [X] ++ [np_zeros (shape B)]))) by reflexivity.
  rewrite (run_bind_ok _ _ _ tt _ EY).
  rewrite (run_bind_ok _ _ _ (Bs o) (mkWorld o2 (h ++ [X; Y]))) by reflexivity.
  rewrite (run_bind_ok _ _ _ B (mkWorld o2 (h ++ [X; Y])))
    by (apply run_load; simpl; rewrite lookup_app_l by assumption; assumption).
  rewrite (run_bind_ok _ _ _ (L + 2) (mkWorld o2 (h ++ [X; Y] ++ [np_zeros (shape B)])))
    by (unfold alloc; cbn [self heap]; rewrite length_app, <- (assoc app); reflexivity).
  rewrite (run_bind_ok _ _ _ tt (mkWorld o3 (h ++ [X; Y] ++ [np_zeros (shape B)]))) by reflexivity.
  exact EZ.
Qed.

(** * Axes *)

Lemma strictly_ascending_cons x g :
  strictly_ascending (x :: g) = true ->
  strictly_ascending g = true /\ Forall (fun y => (x < y)%Qc) g.
Proof.
  revert x. induction g as [|y g IH]; intros x H.
  - split; [reflexivity | constructor].
  - cbn [strictly_ascending] in H. fold (strictly_ascending (y :: g)) in H.
    apply andb_prop in H as [Hxy Hg]. apply bool_decide_eq_true_1 in Hxy.
    split; [assumption |].
    destruct (IH y Hg) as [_ Hall]. constructor; [assumption |].
    eapply Forall_impl; [exact Hall |]. intros z Hz. simpl in Hz.
    eapply Qclt_trans; eassumption.
Qed.

Lemma strictly_ascending_lookup g : strictly_ascending g = true ->
  forall i j a b, g !! i = Some a -> g !! j = Some b -> i < j -> (a < b)%Qc.
Proof.
  induction g as [|x g IH]; intros H i j a b Hi Hj Hij; [discriminate |].
  apply strictly_ascending_cons in H as [Hg Hall].
  destruct j as [|j]; [lia |]. destruct i as [|i]; simpl in Hi, Hj.
  - injection Hi as <-. rewrite Forall_forall in Hall. apply Hall.
    eapply list_elem_of_lookup_2. eassumption.
  - eapply IH; try eassumption. lia.
Qed.

Lemma strictly_ascending_sorted g :
  StronglySorted Qclt g -> strictly_ascending g = true.
Proof.
  induction 1 as [|x g Hg IH Hall]; [reflexivity |].
  destruct g as [|y g]; [reflexivity |].
  cbn [strictly_ascending]. fold (strictly_ascending (y :: g)).
  apply andb_true_intro. split; [| assumption].
  apply bool_decide_eq_true_2. inversion Hall; assumption.
Qed.

Lemma searchsorted_node g : strictly_ascending g = true ->
  forall i x, g !! i = Some x -> searchsorted g x = i.
Proof.
  induction g as [|v g IH]; intros H i x Hi; [discriminate |].
  apply strictly_ascending_cons in H as [Hg Hall].
  destruct i as [|i]; simpl in Hi.
  - injection Hi as <-. simpl. rewrite bool_decide_eq_false_2; [reflexivity |].
    intros Hlt. exact (Qclt_not_eq _ _ Hlt eq_refl).
  - simpl. rewrite bool_decide_eq_true_2.
    + f_equal. apply IH; assumption.
    + rewrite Forall_forall in Hall. apply Hall.
      eapply list_elem_of_lookup_2. eassumption.
Qed.

Lemma index_ok {A} (g : list A) i v : g !! i = Some v -> index g i = inr v.
Proof. intros H. unfold index. rewrite H. reflexivity. Qed.

Lemma index_inv {A} (g : list A) i v : index g i = inr v -> g !! i = Some v.
Proof. unfold index. destruct (g !! i); [congruence | discriminate]. Qed.

(** the cell of any abscissa lies inside an axis of two values or more *)
Lemma find_index_ok g x : 2 <= length g ->
  exists i t, find_index g x = inr (i, t) /\ i + 1 < length g.
Proof.
  intros Hlen. unfold find_index.
  set (i := Nat.min (searchsorted g x - 1) (length g - 2)).
  assert (Hi : i + 1 < length g) by lia.
  destruct (lookup_lt_is_Some_2 g i) as [lo Hlo]; [lia |].
  destruct (lookup_lt_is_Some_2 g (i + 1)) as [hi Hhi]; [lia |].
  exists i, ((x - lo) / (hi - lo))%Qc.
  rewrite (index_ok _ _ _ Hlo), (index_ok _ _ _ Hhi). split; [reflexivity | assumption].
Qed.

Lemma Qcminus_diag_ne (a b : Qc) : (a < b)%Qc -> (b - a)%Qc <> Q2Qc 0.
Proof.
  intros Hlt Hz. apply (Qclt_not_eq _ _ Hlt).
  symmetry. rewrite <- (Qcplus_0_l a). rewrite <- Hz. ring.
Qed.

(** at a node the cell is the one above it, entered at 0, or the one below
    it, entered at 1 *)
Lemma find_index_node g i0 x :
  strictly_ascending g = true -> 2 <= length g -> g !! i0 = Some x ->
  exists i t, find_index g x = inr (i, t) /\ i + 1 < length g /\
    ((t = Q2Qc 0 /\ i = i0) \/ (t = Q2Qc 1 /\ i + 1 = i0)).
Proof.
  intros Hasc Hlen Hx. unfold find_index.
  rewrite (searchsorted_node g Hasc i0 x Hx).
  assert (Hi0 : i0 < length g) by (apply lookup_lt_is_Some; eauto).
  destruct i0 as [|i1].
  - replace (Nat.min (0 - 1) (length g - 2)) with 0 by lia.
    destruct (lookup_lt_is_Some_2 g (0 + 1)) as [hi Hhi]; [lia |].
    rewrite (index_ok _ _ _ Hx), (index_ok _ _ _ Hhi).
    eexists _, _. split; [reflexivity |]. split; [lia |]. left. split; [| reflexivity].
    unfold Qcdiv. ring.
  - replace (Nat.min (S i1 - 1) (length g - 2)) with i1 by lia.
    destruct (lookup_lt_is_Some_2 g i1) as [lo Hlo]; [lia |].
    replace (i1 + 1) with (S i1) by lia.
    rewrite (index_ok _ _ _ Hlo), (index_ok _ _ _ Hx).
    eexists _, _. split; [reflexivity |]. split; [lia |]. right. split; [| lia].
    unfold Qcdiv. apply Qcmult_inv_r. apply Qcminus_diag_ne.
    eapply strictly_ascending_lookup; try eassumption. lia.
Qed.

Lemma head_lookup {A} (g : list A) : head g = g !! 0.
Proof. destruct g; reflexivity. Qed.

Lemma in_bounds_node g i x :
  strictly_ascending g = true -> g !! i = Some x -> out_of_bounds g x = false.
Proof.
  intros Hasc Hx. unfold out_of_bounds.
  assert (Hi : i < length g) by (apply lookup_lt_is_Some; eauto).
  destruct (lookup_lt_is_Some_2 g 0) as [lo Hlo]; [lia |].
  destruct (lookup_lt_is_Some_2 g (length g - 1)) as [hi Hhi]; [lia |].
  rewrite head_lookup, Hlo, last_lookup.
  replace (Init.Nat.pred (length g)) with (length g - 1) by lia. rewrite Hhi.
  apply orb_false_intro; apply bool_decide_eq_false_2; intros Hlt.
  - destruct (decide (i = 0)) as [-> | Hne].
    + rewrite Hlo in Hx. injection Hx as ->. exact (Qclt_not_eq _ _ Hlt eq_refl).
    + assert (lo < x)%Qc by (eapply strictly_ascending_lookup; try eassumption; lia).
      apply (Qclt_not_eq x x); [eapply Qclt_trans; eassumption | reflexivity].
  - destruct (decide (i = length g - 1)) as [-> | Hne].
    + rewrite Hhi in Hx. injection Hx as ->. exact (Qclt_not_eq _ _ Hlt eq_refl).
    + assert (x < hi)%Qc by (eapply strictly_ascending_lookup; try eassumption; lia).
      apply (Qclt_not_eq x x); [eapply Qclt_trans; eassumption | reflexivity].
Qed.

Lemma call_out_of_bounds itp gx gy gz x y z w :
  grid itp = (gx, gy, gz) ->
  out_of_bounds gx x || out_of_bounds gy y || out_of_bounds gz z = true ->
  RegularGridInterpolator_call itp (x, y, z) w = (inl OutOfBoundsError, w).
Proof.
  intros Hg Hout. unfold RegularGridInterpolator_call. rewrite Hg, Hout. reflexivity.
Qed.

Lemma call_run itp gx gy gz V x y z i j k tx ty tz w :
  grid itp = (gx, gy, gz) -> heap w !! values itp = Some V ->
  out_of_bounds gx x = false -> out_of_bounds gy y = false -> out_of_bounds gz z = false ->
  find_index gx x = inr (i, tx) -> find_index gy y = inr (j, ty) ->
  find_index gz z = inr (k, tz) ->
  i + 1 < n0 (shape V) -> j + 1 < n1 (shape V) -> k + 1 < n2 (shape V) ->
  RegularGridInterpolator_call itp (x, y, z) w
  = (inr (to_matrix (n3 (shape V)) (n4 (shape V)) (trilinear V i j k tx ty tz)), w).
Proof.
  intros Hg HV Hx Hy Hz Hi Hj Hk Li Lj Lk.
  unfold RegularGridInterpolator_call. rewrite Hg, Hx, Hy, Hz. cbn [orb].
  rewrite (run_bind_ok _ _ w V w) by (apply run_load; assumption).
  rewrite (run_bind_ok _ _ w (i, tx) w) by (unfold lift; rewrite Hi; reflexivity).
  rewrite (run_bind_ok _ _ w (j, ty) w) by (unfold lift; rewrite Hj; reflexivity).
  rewrite (run_bind_ok _ _ w (k, tz) w) by (unfold lift; rewrite Hk; reflexivity).
  repeat (erewrite run_bind_ok;
          [| unfold lift; rewrite get_node_ok by lia; reflexivity]).
  reflexivity.
Qed.

Lemma trilinear_node V i j k tx ty tz i0 j0 k0 c n :
  (tx = Q2Qc 0 /\ i = i0) \/ (tx = Q2Qc 1 /\ i + 1 = i0) ->
  (ty = Q2Qc 0 /\ j = j0) \/ (ty = Q2Qc 1 /\ j + 1 = j0) ->
  (tz = Q2Qc 0 /\ k = k0) \/ (tz = Q2Qc 1 /\ k + 1 = k0) ->
  trilinear V i j k tx ty tz c n = item V i0 j0 k0 c n.
Proof.
  unfold trilinear.
  intros [[-> <-] | [-> <-]] [[-> <-] | [-> <-]] [[-> <-] | [-> <-]]; ring.
Qed.

Lemma lookup_map {A B} (f : A -> B) (l : list A) i : map f l !! i = f <$> l !! i.
Proof. exact (list_lookup_fmap f l i). Qed.

Lemma elem_of_map {A B} (f : A -> B) (l : list A) y :
  y ∈ map f l <-> exists x, y = f x /\ x ∈ l.
Proof. exact (list_elem_of_fmap f l y). Qed.

Lemma to_matrix_lookup r c f a : a < r ->
  to_matrix r c f !! a = Some (map (fun j => f a j) (seq 0 c)).
Proof.
  intros Ha. unfold to_matrix. rewrite lookup_map.
  rewrite lookup_seq_lt by assumption. reflexivity.
Qed.

Lemma to_matrix_entry r c f a b : a < r -> b < c ->
  to_matrix r c f !! a ≫= (fun row => row !! b) = Some (f a b).
Proof.
  intros Ha Hb. rewrite to_matrix_lookup by assumption. cbn [mbind option_bind].
  rewrite lookup_map, lookup_seq_lt by assumption. reflexivity.
Qed.

Lemma to_matrix_length r c f : length (to_matrix r c f) = r.
Proof. unfold to_matrix. rewrite length_map, length_seq. reflexivity. Qed.

Lemma to_matrix_rows r c f : Forall (fun row => length row = c) (to_matrix r c f).
Proof.
  unfold to_matrix. apply Forall_forall. intros row Hrow.
  apply elem_of_map in Hrow as (a & -> & _).
  rewrite length_map, length_seq. reflexivity.
Qed.

Lemma run_RegularGridInterpolator gx gy gz l V w :
  heap w !! l = Some V ->
  strictly_ascending gx = true -> strictly_ascending gy = true ->
  strictly_ascending gz = true ->
  length gx = n0 (shape V) -> length gy = n1 (shape V) -> length gz = n2 (shape V) ->
  RegularGridInterpolator (gx, gy, gz) l w = (inr (mkInterp (gx, gy, gz) l), w).
Proof.
  intros HV Hx Hy Hz Lx Ly Lz. unfold RegularGridInterpolator.
  rewrite (run_bind_ok _ _ w V w) by (apply run_load; assumption).
  rewrite Hx, Hy, Hz, Lx, Ly, Lz, !Nat.eqb_refl. reflexivity.
Qed.

Lemma RegularGridInterpolator_inv gx gy gz l w i w' :
  RegularGridInterpolator (gx, gy, gz) l w = (inr i, w') ->
  w' = w /\ i = mkInterp (gx, gy, gz) l /\
  exists V, heap w !! l = Some V
    /\ strictly_ascending gx = true /\ strictly_ascending gy = true
    /\ strictly_ascending gz = true
    /\ length gx = n0 (shape V) /\ length gy = n1 (shape V) /\ length gz = n2 (shape V).
Proof.
  unfold RegularGridInterpolator. rewrite run_bind. unfold load.
  destruct (heap w !! l) as [V|] eqn:HV; [| discriminate].
  destruct (strictly_ascending gx); [| discriminate].
  destruct (strictly_ascending gy); [| discriminate].
  destruct (strictly_ascending gz); [| discriminate]. cbn [andb negb].
  destruct (length gx =? n0 (shape V)) eqn:Lx; [| discriminate].
  destruct (length gy =? n1 (shape V)) eqn:Ly; [| discriminate].
  destruct (length gz =? n2 (shape V)) eqn:Lz; [| discriminate]. cbn [andb negb].
  intros [= <- <-]. apply Nat.eqb_eq in Lx, Ly, Lz.
  split; [reflexivity |]. split; [reflexivity |]. exists V. auto 10.
Qed.

(** a constructor either returns or raises [ValueError]; it changes nothing *)
Lemma RegularGridInterpolator_pure pts l w :
  snd (RegularGridInterpolator pts l w) = w.
Proof.
  unfold RegularGridInterpolator. rewrite run_bind. unfold load.
  destruct (heap w !! l) as [V|]; [| reflexivity].
  destruct pts as [[gx gy] gz].
  repeat match goal with |- context [if ?b then _ else _] => destruct b end; reflexivity.
Qed.

Lemma run_new_interpolator (F : M loc) w l V :
  F w = (inr l, w) -> heap w !! l = Some V ->
  strictly_ascending (xcoords (self w)) = true ->
  strictly_ascending (ycoords (self w)) = true ->
  strictly_ascending (zcoords (self w)) = true ->
  length (xcoords (self w)) = n0 (shape V) ->
  length (ycoords (self w)) = n1 (shape V) ->
  length (zcoords (self w)) = n2 (shape V) ->
  new_interpolator F w = (inr (mkInterp (axes (self w)) l), w).
Proof.
  intros HF HV Hx Hy Hz Lx Ly Lz. unfold new_interpolator.
  rewrite (run_bind_ok _ _ w (xcoords (self w)) w) by reflexivity.
  rewrite (run_bind_ok _ _ w (ycoords (self w)) w) by reflexivity.
  rewrite (run_bind_ok _ _ w (zcoords (self w)) w) by reflexivity.
  rewrite (run_bind_ok _ _ w l w) by assumption.
  eapply run_RegularGridInterpolator; eassumption.
Qed.

Lemma new_interpolator_Bs_inv w i w' :
  new_interpolator (attr Bs) w = (inr i, w') ->
  w' = w /\ i = mkInterp (axes (self w)) (Bs (self w)) /\
  exists V, heap w !! Bs (self w) = Some V
    /\ strictly_ascending (xcoords (self w)) = true
    /\ strictly_ascending (ycoords (self w)) = true
    /\ strictly_ascending (zcoords (self w)) = true
    /\ length (xcoords (self w)) = n0 (shape V)
    /\ length (ycoords (self w)) = n1 (shape V)
    /\ length (zcoords (self w)) = n2 (shape V).
Proof.
  unfold new_interpolator.
  rewrite (run_bind_ok _ _ w (xcoords (self w)) w) by reflexivity.
  rewrite (run_bind_ok _ _ w (ycoords (self w)) w) by reflexivity.
  rewrite (run_bind_ok _ _ w (zcoords (self w)) w) by reflexivity.
  rewrite (run_bind_ok _ _ w (Bs (self w)) w) by reflexivity.
  apply RegularGridInterpolator_inv.
Qed.

(** Lines 48 to 53 of the constructor, run on an object whose axes fit its
    array. *)
Lemma init_interpolators_run o h B :
  h !! Bs o = Some B ->
  BactInterpolator o = None ->
  strictly_ascending (xcoords o) = true -> strictly_ascending (ycoords o) = true ->
  strictly_ascending (zcoords o) = true ->
  2 <= length (xcoords o) -> 2 <= length (ycoords o) -> 2 <= length (zcoords o) ->
  length (xcoords o) = n0 (shape B) -> length (ycoords o) = n1 (shape B) ->
  length (zcoords o) = n2 (shape B) ->
  exists X Y Z,
    init_interpolators (mkWorld o h)
    = (inr tt,
       mkWorld
         (set_BzInterpolator (mkInterp (axes o) (length h + 2))
            (set_ByInterpolator (mkInterp (axes o) (length h + 1))
               (set_BxInterpolator (mkInterp (axes o) (length h))
                  (set_Bz (length h + 2) (set_By (length h + 1) (set_Bx (length h)
                     (set_BactInterpolator (mkInterp (axes o) (Bs o)) o)))))))
         (h ++ [X; Y; Z]))
    /\ shape X = shape B /\ shape Y = shape B /\ shape Z = shape B
    /\ (forall i j k, i < n0 (shape B) -> j < n1 (shape B) -> k < n2 (shape B) ->
          item X i j k = grad_x B (deltax o) i j k)
    /\ (forall i j k, i < n0 (shape B) -> j < n1 (shape B) -> k < n2 (shape B) ->
          item Y i j k = grad_y B (deltay o) i j k)
    /\ (forall i j k, i < n0 (shape B) -> j < n1 (shape B) -> k < n2 (shape B) ->
          item Z i j k = grad_z B (deltaz o) i j k).
Proof.
  intros HB _ Ax Ay Az L2x L2y L2z Lx Ly Lz.
  set (o1 := set_BactInterpolator (mkInterp (axes o) (Bs o)) o).
  destruct (compute_gradient_tensor_run (mkWorld o1 h) B)
    as (X & Y & Z & E & HX & HY & HZ & VX & VY & VZ); try assumption; try lia.
  cbn [self heap] in E.
  assert (Hlt : Bs o < length h) by (apply lookup_lt_is_Some; eauto).
  exists X, Y, Z. split; [| by repeat split].
  unfold init_interpolators.
  rewrite (run_bind_ok _ _ _ (mkInterp (axes o) (Bs o)) (mkWorld o h))
    by (apply (run_new_interpolator _ (mkWorld o h) (Bs o) B); done).
  rewrite (run_bind_ok _ _ _ tt (mkWorld o1 h)) by reflexivity.
  rewrite (run_bind_ok _ _ _ tt _ E).
  erewrite run_bind_ok;
    [| apply (run_new_interpolator _ _ (length h) X); try done;
       [ cbn [self heap]; rewrite lookup_app_r by lia; rewrite Nat.sub_diag; reflexivity
       | cbn [self]; rewrite HX; assumption ..] ].
  erewrite run_bind_ok; [| reflexivity].
  erewrite run_bind_ok;
    [| apply (run_new_interpolator _ _ (length h + 1) Y); try done;
       [ cbn [self heap]; rewrite lookup_app_r by lia;
         replace (length h + 1 - length h) with 1 by lia; reflexivity
       | cbn [self]; rewrite HY; assumption ..] ].
  erewrite run_bind_ok; [| reflexivity].
  erewrite run_bind_ok;
    [| apply (run_new_interpolator _ _ (length h + 2) Z); try done;
       [ cbn [self heap]; rewrite lookup_app_r by lia;
         replace (length h + 2 - length h) with 2 by lia; reflexivity
       | cbn [self]; rewrite HZ; assumption ..] ].
  reflexivity.
Qed.

(** * Axis extraction *)

Lemma py_round_nearest_Z (q : Qc) :
  let n := Qnum (this q) in
  let d := Zpos (Qden (this q)) in
  (2 * Z.abs (n - py_round q * d) <= d)%Z.
Proof.
  intros n d. unfold py_round. fold n d.
  assert (Hd : (0 < d)%Z) by (unfold d; lia).
  pose proof (Z.div_mod n d ltac:(lia)) as Hdm.
  pose proof (Z.mod_pos_bound n d Hd) as Hb.
  destruct (2 * (n mod d) <? d)%Z eqn:E1.
  - apply Z.ltb_lt in E1. nia.
  - apply Z.ltb_ge in E1. destruct (d <? 2 * (n mod d))%Z eqn:E2.
    + apply Z.ltb_lt in E2. nia.
    + apply Z.ltb_ge in E2. destruct (Z.even (n / d)); nia.
Qed.

Lemma Qc_this_eq (q : Qc) : (this q == Qnum (this q) # Qden (this q))%Q.
Proof. destruct (this q); reflexivity. Qed.

(** [py_round q] is an integer nearest to [q] *)
Lemma py_round_nearest (q : Qc) :
  (Z2Qc (py_round q) - Q2Qc (1 # 2) <= q)%Qc /\ (q <= Z2Qc (py_round q) + Q2Qc (1 # 2))%Qc.
Proof.
  pose proof (py_round_nearest_Z q) as H. cbv zeta in H.
  set (z := py_round q) in *.
  unfold Qcle, Z2Qc, Qcminus, Qcplus, Qcopp. cbn [this Q2Qc].
  rewrite !Qred_correct.
  destruct q as [[n d] Hc]. cbn [this Qnum Qden] in *.
  unfold Qle, Qplus, Qopp, inject_Z. cbn [Qnum Qden].
  split; lia.
Qed.

Lemma round_1e6_multiple (c : Qc) :
  exists z : Z, round_1e6 c = (Q2Qc (1 # 1000000) * Z2Qc z)%Qc
    /\ (Z2Qc z - Q2Qc (1 # 2) <= Q2Qc (1000000 # 1) * c)%Qc
    /\ (Q2Qc (1000000 # 1) * c <= Z2Qc z + Q2Qc (1 # 2))%Qc.
Proof.
  exists (py_round (Q2Qc (1000000 # 1) * c)). split; [reflexivity |].
  apply py_round_nearest.
Qed.

#[local] Instance Qcle_total : Total Qcle.
Proof.
  intros x y. destruct (Qclt_le_dec x y) as [H | H]; [left; apply Qclt_le_weak | right]; assumption.
Qed.

Lemma sorted_nodup_strict (l : list Qc) :
  StronglySorted Qcle l -> NoDup l -> StronglySorted Qclt l.
Proof.
  induction 1 as [|x l Hl IH Hall]; intros Hnd; [constructor |].
  apply NoDup_cons in Hnd as [Hx Hnd]. constructor; [auto |].
  rewrite Forall_forall in Hall |- *. intros y Hy.
  destruct (Qcle_lt_or_eq _ _ (Hall y Hy)) as [Hlt | ->]; [assumption | contradiction].
Qed.

Lemma axis_strictly_sorted col : StronglySorted Qclt (axis col).
Proof.
  unfold axis, list_sort. apply sorted_nodup_strict.
  - apply StronglySorted_merge_sort; apply _.
  - rewrite merge_sort_Permutation. unfold extract_unique_vals_tol. apply NoDup_elements.
Qed.

Lemma elem_of_axis col v : v ∈ axis col <-> exists c, c ∈ col /\ v = round_1e6 c.
Proof.
  unfold axis, list_sort, extract_unique_vals_tol.
  rewrite merge_sort_Permutation, elem_of_elements, elem_of_list_to_set, elem_of_map.
  split; intros (c & H1 & H2); exists c; auto.
Qed.

(** [min] and [max] of an ascending list are its ends *)
Lemma foldl_Qcmin_asc x l : Forall (fun y => (x < y)%Qc) l -> foldl Qcmin x l = x.
Proof.
  induction 1 as [|y l Hy _ IH]; [reflexivity |]. simpl.
  unfold Qcmin at 2. rewrite bool_decide_eq_false_2; [assumption |].
  intros Hlt. apply (Qclt_not_eq x x); [eapply Qclt_trans; eassumption | reflexivity].
Qed.

Lemma foldl_Qcmax_asc l : forall x, strictly_ascending (x :: l) = true ->
  Some (foldl Qcmax x l) = last (x :: l).
Proof.
  induction l as [|y l IH]; intros x H; [reflexivity |].
  pose proof H as H'. apply strictly_ascending_cons in H' as [Hl Hall].
  simpl foldl. unfold Qcmax at 2. rewrite bool_decide_eq_true_2 by (inversion Hall; assumption).
  rewrite IH by assumption. reflexivity.
Qed.

Lemma py_min_asc g m : strictly_ascending g = true -> py_min g = inr m -> head g = Some m.
Proof.
  destruct g as [|x l]; [discriminate |]. intros H [= <-].
  apply strictly_ascending_cons in H as [_ Hall]. simpl. f_equal.
  symmetry. apply foldl_Qcmin_asc. assumption.
Qed.

Lemma py_max_asc g m : strictly_ascending g = true -> py_max g = inr m -> last g = Some m.
Proof.
  destruct g as [|x l]; [discriminate |]. intros H [= <-].
  symmetry. apply foldl_Qcmax_asc. assumption.
Qed.

Lemma axis_ok_of col x1 lo hi :
  index (axis col) 1 = inr x1 -> py_min (axis col) = inr lo -> py_max (axis col) = inr hi ->
  axis_ok (axis col) lo hi.
Proof.
  intros H1 Hlo Hhi.
  assert (Hasc : strictly_ascending (axis col) = true)
    by (apply strictly_ascending_sorted, axis_strictly_sorted).
  split; [assumption |]. split.
  - apply index_inv in H1. apply lookup_lt_Some in H1. lia.
  - split; [apply py_min_asc | apply py_max_asc]; assumption.
Qed.

Lemma Exc_bind_inr {A B} (m : Exc A) (f : A -> Exc B) b :
  m ≫= f = inr b -> exists a, m = inr a /\ f a = inr b.
Proof. destruct m as [e | a]; [discriminate |]. intros H. exists a. auto. Qed.

Lemma init_axes_inv B coords N pu w0 :
  init_axes (B, coords) N pu = inr w0 ->
  let cs := used_coordinates pu coords in
  exists x1 x0 xlo xhi y1 y0 ylo yhi z1 z0 zlo zhi,
    index (axis (xcol cs)) 1 = inr x1 /\ index (axis (xcol cs)) 0 = inr x0
    /\ py_min (axis (xcol cs)) = inr xlo /\ py_max (axis (xcol cs)) = inr xhi
    /\ index (axis (ycol cs)) 1 = inr y1 /\ index (axis (ycol cs)) 0 = inr y0
    /\ py_min (axis (ycol cs)) = inr ylo /\ py_max (axis (ycol cs)) = inr yhi
    /\ index (axis (zcol cs)) 1 = inr z1 /\ index (axis (zcol cs)) 0 = inr z0
    /\ py_min (axis (zcol cs)) = inr zlo /\ py_max (axis (zcol cs)) = inr zhi
    /\ w0 = mkWorld
              (mkSys 0 cs N
                 (axis (xcol cs)) (x1 - x0)%Qc xlo xhi
                 (axis (ycol cs)) (y1 - y0)%Qc ylo yhi
                 (axis (zcol cs)) (z1 - z0)%Qc zlo zhi
                 None None None None None None None)
              [B].
Proof.
  intros H cs. unfold init_axes in H.
  assert (Hcs : (if String.eqb pu "mm" then scale_mm coords else coords) = cs).
  { unfold cs, used_coordinates. destruct (String.eqb_spec pu "mm"); case_decide; first [reflexivity | contradiction]. }
  rewrite Hcs in H. cbv zeta in H.
  fold (xcol cs) (ycol cs) (zcol cs) in H.
  fold (axis (xcol cs)) (axis (ycol cs)) (axis (zcol cs)) in H.
  repeat (apply Exc_bind_inr in H as (? & ? & H)).
  injection H as <-. do 12 eexists. repeat (split; [eassumption |]). reflexivity.
Qed.

Lemma init_inv B coords N pu w :
  __init__ (B, coords) N pu = inr w ->
  exists w0, init_axes (B, coords) N pu = inr w0 /\ init_interpolators w0 = (inr tt, w).
Proof.
  unfold __init__. intros H. apply Exc_bind_inr in H as (w0 & H0 & H).
  exists w0. split; [assumption |].
  cbv beta in H. destruct (init_interpolators w0) as [[e | []] w']; [discriminate |].
  injection H as ->. reflexivity.
Qed.

(** what a successful constructor leaves *)
Lemma init_world B coords N pu w :
  __init__ (B, coords) N pu = inr w ->
  let cs := used_coordinates pu coords in
  exists x1 x0 y1 y0 z1 z0 X Y Z o,
    axis (xcol cs) !! 1 = Some x1 /\ axis (xcol cs) !! 0 = Some x0
    /\ axis (ycol cs) !! 1 = Some y1 /\ axis (ycol cs) !! 0 = Some y0
    /\ axis (zcol cs) !! 1 = Some z1 /\ axis (zcol cs) !! 0 = Some z0
    /\ coordinates o = cs /\ Ncoils o = N /\ Bs o = 0
    /\ xcoords o = axis (xcol cs) /\ ycoords o = axis (ycol cs) /\ zcoords o = axis (zcol cs)
    /\ deltax o = (x1 - x0)%Qc /\ deltay o = (y1 - y0)%Qc /\ deltaz o = (z1 - z0)%Qc
    /\ axis_ok (xcoords o) (xmin o) (xmax o)
    /\ axis_ok (ycoords o) (ymin o) (ymax o)
    /\ axis_ok (zcoords o) (zmin o) (zmax o)
    /\ length (xcoords o) = n0 (shape B) /\ length (ycoords o) = n1 (shape B)
    /\ length (zcoords o) = n2 (shape B)
    /\ shape X = shape B /\ shape Y = shape B /\ shape Z = shape B
    /\ (forall i j k, i < n0 (shape B) -> j < n1 (shape B) -> k < n2 (shape B) ->
          item X i j k = grad_x B (deltax o) i j k)
    /\ (forall i j k, i < n0 (shape B) -> j < n1 (shape B) -> k < n2 (shape B) ->
          item Y i j k = grad_y B (deltay o) i j k)
    /\ (forall i j k, i < n0 (shape B) -> j < n1 (shape B) -> k < n2 (shape B) ->
          item Z i j k = grad_z B (deltaz o) i j k)
    /\ w = mkWorld
             (set_BzInterpolator (mkInterp (axes o) 3)
                (set_ByInterpolator (mkInterp (axes o) 2)
                   (set_BxInterpolator (mkInterp (axes o) 1)
                      (set_Bz 3 (set_By 2 (set_Bx 1
                         (set_BactInterpolator (mkInterp (axes o) 0) o)))))))
             [B; X; Y; Z].
Proof.
  intros H cs. apply init_inv in H as (w0 & H0 & H).
  apply init_axes_inv in H0
    as (x1 & x0 & xlo & xhi & y1 & y0 & ylo & yhi & z1 & z0 & zlo & zhi
        & Hx1 & Hx0 & Hxlo & Hxhi & Hy1 & Hy0 & Hylo & Hyhi & Hz1 & Hz0 & Hzlo & Hzhi & ->).
  fold cs in Hx1, Hx0, Hxlo, Hxhi, Hy1, Hy0, Hylo, Hyhi, Hz1, Hz0, Hzlo, Hzhi, H |- *.
  set (o := mkSys 0 cs N (axis (xcol cs)) (x1 - x0)%Qc xlo xhi
              (axis (ycol cs)) (y1 - y0)%Qc ylo yhi
              (axis (zcol cs)) (z1 - z0)%Qc zlo zhi
              None None None None None None None) in *.
  pose proof (axis_ok_of _ _ _ _ Hx1 Hxlo Hxhi) as Okx.
  pose proof (axis_ok_of _ _ _ _ Hy1 Hylo Hyhi) as Oky.
  pose proof (axis_ok_of _ _ _ _ Hz1 Hzlo Hzhi) as Okz.
  (* the first interpolator checks the array against the axes *)
  assert (Hfit : length (xcoords o) = n0 (shape B) /\ length (ycoords o) = n1 (shape B)
                 /\ length (zcoords o) = n2 (shape B)).
  { unfold init_interpolators in H. rewrite run_bind in H.
    destruct (new_interpolator (attr Bs) (mkWorld o [B])) as [[e | i] w'] eqn:E;
      [discriminate |].
    apply new_interpolator_Bs_inv in E as (_ & _ & V & HV & _ & _ & _ & Lx & Ly & Lz).
    cbn in HV. injection HV as <-. auto. }
  destruct Hfit as (Lx & Ly & Lz).
  destruct (init_interpolators_run o [B] B)
    as (X & Y & Z & E & HX & HY & HZ & VX & VY & VZ);
    try reflexivity; try assumption; try apply Okx; try apply Oky; try apply Okz.
  rewrite E in H. injection H as <-.
  exists x1, x0, y1, y0, z1, z0, X, Y, Z, o.
  apply index_inv in Hx1, Hx0, Hy1, Hy0, Hz1, Hz0.
  repeat (split; [first [assumption | reflexivity] |]). reflexivity.
Qed.

Lemma init_wf B coords N pu w :
  __init__ (B, coords) N pu = inr w ->
  n3 (shape B) = 3 -> n4 (shape B) = N ->
  wf w.
Proof.
  intros H H3 H4. apply init_world in H
    as (x1 & x0 & y1 & y0 & z1 & z0 & X & Y & Z & o
        & _ & _ & _ & _ & _ & _ & _ & HN & HBs & _ & _ & _ & _ & _ & _
        & Okx & Oky & Okz & Lx & Ly & Lz & HX & HY & HZ & _ & _ & _ & ->).
  assert (Hsh : shape B = grid_shape o).
  { unfold grid_shape. rewrite Lx, Ly, Lz, HN, <- H3, <- H4. destruct (shape B); reflexivity. }
  constructor; cbn [self heap]; try assumption.
  - exists B. cbn. rewrite HBs. split; [reflexivity | assumption].
  - eexists. cbn. split; [reflexivity |]. split; [reflexivity |]. cbn. symmetry. exact HBs.
  - exists (mkInterp (axes o) 1), X. unfold axes, grid_shape in *. cbn.
    repeat split; congruence.
  - exists (mkInterp (axes o) 2), Y. unfold axes, grid_shape in *. cbn.
    repeat split; congruence.
  - exists (mkInterp (axes o) 3), Z. unfold axes, grid_shape in *. cbn.
    repeat split; congruence.
Qed.

(** * Coil permutation *)

(** [for_range] with an invariant, for a body that may raise *)
Lemma for_range_outcome (I : nat -> world -> Prop) (E : nat -> exn -> world -> Prop) body n :
  forall lo,
  (forall i w, lo <= i < lo + n -> I i w ->
     (exists w', body i w = (inr tt, w') /\ I (S i) w')
     \/ (exists e w', body i w = (inl e, w') /\ E i e w')) ->
  forall w, I lo w ->
    (exists w', for_range lo n body w = (inr tt, w') /\ I (lo + n) w')
    \/ (exists i e w', lo <= i < lo + n
          /\ for_range lo n body w = (inl e, w') /\ E i e w').
Proof.
  induction n as [|n IH]; intros lo Hbody w Hw; simpl.
  - left. exists w. rewrite Nat.add_0_r. split; [reflexivity | assumption].
  - destruct (Hbody lo w) as [(w1 & E1 & H1) | (e & w1 & E1 & H1)]; [lia | assumption | |].
    + rewrite (run_bind_ok _ _ _ _ _ E1).
      replace (lo + S n) with (S lo + n) by lia.
      destruct (IH (S lo)) with (w := w1) as [Hok | (i & e & w2 & Hi & E2 & H2)];
        [intros i w' Hi; apply Hbody; lia | assumption | left; exact Hok |].
      right. exists i, e, w2. split; [lia |]. split; assumption.
    + right. exists lo, e, w1. rewrite (run_bind_err _ _ _ _ _ E1).
      split; [lia |]. split; [reflexivity | assumption].
Qed.

Lemma np_index_nat n idx :
  np_index n (Z.of_nat idx) = if idx <? n then inr idx else inl IndexError.
Proof.
  unfold np_index. destruct (Nat.ltb_spec idx n).
  - replace ((0 <=? Z.of_nat idx) && (Z.of_nat idx <? Z.of_nat n))%Z with true
      by (symmetry; apply andb_true_intro; split; [apply Z.leb_le | apply Z.ltb_lt]; lia).
    rewrite Nat2Z.id. reflexivity.
  - replace (Z.of_nat idx <? Z.of_nat n)%Z with false by (symmetry; apply Z.ltb_ge; lia).
    replace (Z.of_nat idx <? 0)%Z with false by (symmetry; apply Z.ltb_ge; lia).
    rewrite !andb_false_r. reflexivity.
Qed.

Lemma np_index_err n v e : np_index n v = inl e -> e = IndexError.
Proof.
  unfold np_index.
  repeat match goal with |- context [if ?b then _ else _] => destruct b end; congruence.
Qed.

Lemma np_index_range n v c : np_index n v = inr c -> c < n.
Proof.
  unfold np_index.
  destruct ((0 <=? v) && (v <? Z.of_nat n))%Z eqn:E1.
  - intros [= <-]. apply andb_prop in E1 as [H1 H2].
    apply Z.leb_le in H1. apply Z.ltb_lt in H2. lia.
  - destruct ((- Z.of_nat n <=? v) && (v <? 0))%Z eqn:E2; [| discriminate].
    intros [= <-]. apply andb_prop in E2 as [H1 H2].
    apply Z.leb_le in H1. apply Z.ltb_lt in H2. lia.
Qed.

(** a permutation of [0, n) indexes without wrap-around *)
Lemma np_index_in_range n v :
  (0 <= v < Z.of_nat n)%Z -> np_index n v = inr (Z.to_nat v).
Proof.
  intros [H1 H2]. unfold np_index.
  replace ((0 <=? v) && (v <? Z.of_nat n))%Z with true
    by (symmetry; apply andb_true_intro; split; [apply Z.leb_le | apply Z.ltb_lt]; lia).
  reflexivity.
Qed.

Section Permutation_loop.
Variables (o : magnetic_system) (h : list ndarray) (B : ndarray) (coilvec : list Z).
Hypothesis HB : h !! Bs o = Some B.

Lemma coil_step idx w :
  permuted_upto o h B coilvec idx w ->
  let body :=
    v ← lift (index coilvec idx);
    l ← attr Bs; B ← load l;
    s ← lift (get_coil B v);
    T ← load (length h);
    T' ← lift (set_coil T (Z.of_nat idx) s);
    store (length h) T' in
  (exists w', body w = (inr tt, w') /\ permuted_upto o h B coilvec (S idx) w')
  \/ (exists e w', body w = (inl e, w') /\ raised_in_loop o h B coilvec idx e w').
Proof.
  intros (T & -> & HT & Hinv) body. unfold body.
  assert (Hlt : Bs o < length h) by (apply lookup_lt_is_Some; eauto).
  set (w := mkWorld o (h ++ [T])).
  assert (Herr : forall A (m : M A), bad_entry B coilvec idx -> m w = (inl IndexError, w) ->
            exists e w', m w = (inl e, w') /\ raised_in_loop o h B coilvec idx e w').
  { intros A m Hbad Hm. exists IndexError, w. split; [assumption |].
    split; [reflexivity |]. split; [assumption |]. exists T. reflexivity. }
  destruct (coilvec !! idx) as [v|] eqn:Hv.
  2:{ right. apply Herr; [left; exact Hv |].
      apply run_bind_err. unfold lift, index. rewrite Hv. reflexivity. }
  rewrite (run_bind_ok _ _ w v w) by (unfold lift, index; rewrite Hv; reflexivity).
  rewrite (run_bind_ok _ _ w (Bs o) w) by reflexivity.
  rewrite (run_bind_ok _ _ w B w)
    by (apply run_load; unfold w; cbn [heap]; rewrite lookup_app_l by assumption; assumption).
  destruct (np_index (n4 (shape B)) v) as [e | c] eqn:Hc.
  { right. rewrite (np_index_err _ _ _ Hc) in Hc.
    apply Herr; [right; left; exists v; auto |].
    apply run_bind_err. unfold lift, get_coil. rewrite Hc. reflexivity. }
  rewrite (run_bind_ok _ _ w (fun i j k comp => item B i j k comp c) w)
    by (unfold lift, get_coil; rewrite Hc; reflexivity).
  rewrite (run_bind_ok _ _ w T w)
    by (apply run_load; unfold w; cbn [heap]; rewrite lookup_app_r by lia;
        rewrite Nat.sub_diag; reflexivity).
  unfold lift at 1, set_coil. rewrite HT, np_index_nat.
  destruct (Nat.ltb_spec idx (n4 (shape B))) as [Hidx | Hidx].
  2:{ right. apply Herr; [right; right; assumption | reflexivity]. }
  left. eexists. split.
  { rewrite run_bind. cbn [mbind Exc_bind mret Exc_ret]. unfold store, w. cbn [self heap].
    rewrite insert_snoc. reflexivity. }
  eexists. split; [reflexivity |]. split; [reflexivity |].
  intros n. cbn [item]. split.
  - intros Hn. destruct (Nat.eqb_spec n idx) as [-> | Hne].
    + exists v, c. auto.
    + destruct (Hinv n) as [Hdone _].
      destruct Hdone as (v' & c' & ? & ? & ? & ?); [lia |]. exists v', c'. auto.
  - intros Hn. destruct (Nat.eqb_spec n idx) as [-> | Hne]; [lia |].
    apply Hinv. lia.
Qed.

Lemma permutation_loop :
  let w1 := mkWorld o (h ++ [B]) in
  (exists w', for_range 0 6 (fun idx =>
       v ← lift (index coilvec idx);
       l ← attr Bs; B ← load l;
       s ← lift (get_coil B v);
       T ← load (length h);
       T' ← lift (set_coil T (Z.of_nat idx) s);
       store (length h) T') w1 = (inr tt, w') /\ permuted_upto o h B coilvec 6 w')
  \/ (exists idx e w', 0 <= idx < 0 + 6 /\ for_range 0 6 (fun idx =>
       v ← lift (index coilvec idx);
       l ← attr Bs; B ← load l;
       s ← lift (get_coil B v);
       T ← load (length h);
       T' ← lift (set_coil T (Z.of_nat idx) s);
       store (length h) T') w1 = (inl e, w') /\ raised_in_loop o h B coilvec idx e w').
Proof.
  intros w1.
  apply (for_range_outcome (permuted_upto o h B coilvec) (raised_in_loop o h B coilvec) _ 6 0).
  - intros i w _ Hw. apply (coil_step i w Hw).
  - exists B. split; [reflexivity |]. split; [reflexivity |].
    intros n. split; [lia | reflexivity].
Qed.
End Permutation_loop.

(** [permutate_coils] on a well-formed system: it either raises [IndexError]
    inside its loop, or runs to its end. *)
Lemma permutate_coils_run w B coilvec :
  wf w -> heap w !! Bs (self w) = Some B ->
  (exists T X Y Z,
      permutate_coils coilvec w
      = (inr tt, mkWorld (after_permutation (self w) (length (heap w)))
                   (heap w ++ [T; X; Y; Z]))
      /\ permuted_upto (self w) (heap w) B coilvec 6 (mkWorld (self w) (heap w ++ [T]))
      /\ shape X = shape B /\ shape Y = shape B /\ shape Z = shape B
      /\ (forall i j k, i < n0 (shape B) -> j < n1 (shape B) -> k < n2 (shape B) ->
            item X i j k = grad_x T (deltax (self w)) i j k)
      /\ (forall i j k, i < n0 (shape B) -> j < n1 (shape B) -> k < n2 (shape B) ->
            item Y i j k = grad_y T (deltay (self w)) i j k)
      /\ (forall i j k, i < n0 (shape B) -> j < n1 (shape B) -> k < n2 (shape B) ->
            item Z i j k = grad_z T (deltaz (self w)) i j k))
  \/ (exists T idx, idx < 6 /\ bad_entry B coilvec idx
        /\ permutate_coils coilvec w
           = (inl IndexError, mkWorld (self w) (heap w ++ [T]))).
Proof.
  intros Hwf HB. destruct w as [o h]. cbn [self heap] in *.
  destruct (wf_Bs _ Hwf) as (B' & HB' & Hsh). cbn [self heap] in HB', Hsh.
  rewrite HB in HB'. injection HB' as <-.
  destruct (wf_x _ Hwf) as (Ax & L2x & _ & _).
  destruct (wf_y _ Hwf) as (Ay & L2y & _ & _).
  destruct (wf_z _ Hwf) as (Az & L2z & _ & _). cbn [self] in *.
  assert (Hlt : Bs o < length h) by (apply lookup_lt_is_Some; eauto).
  unfold permutate_coils.
  rewrite (run_bind_ok _ _ _ (Bs o) (mkWorld o h)) by reflexivity.
  rewrite (run_bind_ok _ _ _ B (mkWorld o h)) by (apply run_load; assumption).
  rewrite (run_bind_ok _ _ _ (length h) (mkWorld o (h ++ [B]))) by reflexivity.
  destruct (permutation_loop o h B coilvec HB)
    as [(w' & E & HT) | (idx & e & w' & Hidx & E & -> & Hbad & T & ->)].
  2:{ right. exists T, idx. split; [lia |]. split; [assumption |].
      rewrite (run_bind_err _ _ _ _ _ E). reflexivity. }
  left. pose proof HT as (T & -> & HTs & _).
  rewrite (run_bind_ok _ _ _ _ _ E).
  set (o1 := set_Bs (length h) o).
  set (o2 := set_BactInterpolator (mkInterp (axes o) (length h)) o1).
  assert (HTl : (h ++ [T]) !! length h = Some T)
    by (rewrite lookup_app_r by lia; rewrite Nat.sub_diag; reflexivity).
  destruct (compute_gradient_tensor_run (mkWorld o2 (h ++ [T])) T)
    as (X & Y & Z & EG & HX & HY & HZ & VX & VY & VZ).
  { exact HTl. }
  { rewrite HTs, Hsh. exact L2x. }
  { rewrite HTs, Hsh. exact L2y. }
  { rewrite HTs, Hsh. exact L2z. }
  cbn [self heap] in EG. rewrite length_app in EG. cbn [length] in EG.
  exists T, X, Y, Z. split.
  - rewrite (run_bind_ok _ _ _ tt (mkWorld o1 (h ++ [T]))) by reflexivity.
    rewrite (run_bind_ok _ _ _ (mkInterp (axes o1) (length h)) (mkWorld o1 (h ++ [T])))
      by (apply (run_new_interpolator _ (mkWorld o1 (h ++ [T])) (length h) T); try done;
          cbn [self]; rewrite HTs, Hsh; reflexivity).
    change (axes o1) with (axes o).
    rewrite (run_bind_ok _ _ _ tt (mkWorld o2 (h ++ [T]))) by reflexivity.
    rewrite EG. unfold after_permutation. fold o1 o2.
    rewrite <- (assoc app). cbn [app].
    replace (length h + 1 + 1) with (length h + 2) by lia.
    replace (length h + 1 + 2) with (length h + 3) by lia. reflexivity.
  - split; [assumption |]. rewrite <- HTs. repeat split; assumption.
Qed.

Lemma permutate_coils_wf w coilvec w' :
  wf w -> permutate_coils coilvec w = (inr tt, w') -> wf w'.
Proof.
  intros Hwf Hrun.
  destruct (wf_Bs _ Hwf) as (B & HB & Hsh).
  destruct (permutate_coils_run w B coilvec Hwf HB)
    as [(T & X & Y & Z & E & HT & _) | (T & idx & _ & _ & E)]; [| congruence].
  rewrite E in Hrun. injection Hrun as <-.
  destruct HT as (T' & HWeq & HTs & _). injection HWeq as HWeq.
  apply app_inj_tail in HWeq as [_ <-].
  assert (Hlt : forall l V, heap w !! l = Some V -> (heap w ++ [T; X; Y; Z]) !! l = Some V).
  { intros l V HV. rewrite lookup_app_l; [assumption |]. apply lookup_lt_is_Some; eauto. }
  assert (Hbound : forall oi, bound w oi ->
            bound (mkWorld (after_permutation (self w) (length (heap w)))
                     (heap w ++ [T; X; Y; Z])) oi).
  { intros oi (i & V & -> & Hg & HV & HVs). exists i, V. repeat split; auto. }
  constructor; cbn [self heap after_permutation set_Bz set_By set_Bx set_BactInterpolator
                      set_Bs xcoords ycoords zcoords xmin xmax ymin ymax zmin zmax
                      Bs BactInterpolator BxInterpolator ByInterpolator BzInterpolator].
  - apply (wf_x _ Hwf).
  - apply (wf_y _ Hwf).
  - apply (wf_z _ Hwf).
  - exists T. split.
    + rewrite lookup_app_r by lia. rewrite Nat.sub_diag. reflexivity.
    + rewrite HTs. exact Hsh.
  - eexists. split; [reflexivity |]. split; reflexivity.
  - apply Hbound, (wf_BxI _ Hwf).
  - apply Hbound, (wf_ByI _ Hwf).
  - apply Hbound, (wf_BzI _ Hwf).
Qed.

Lemma out_of_bounds_true g lo hi x :
  axis_ok g lo hi -> (x < lo)%Qc \/ (hi < x)%Qc -> out_of_bounds g x = true.
Proof.
  intros (_ & _ & Hlo & Hhi) H. unfold out_of_bounds. rewrite Hlo, Hhi.
  apply orb_true_intro. destruct H; [left | right]; apply bool_decide_eq_true_2; assumption.
Qed.

Lemma out_of_bounds_false g lo hi x :
  axis_ok g lo hi -> (lo <= x)%Qc -> (x <= hi)%Qc -> out_of_bounds g x = false.
Proof.
  intros (_ & _ & Hlo & Hhi) H1 H2. unfold out_of_bounds. rewrite Hlo, Hhi.
  apply orb_false_intro; apply bool_decide_eq_false_2; apply Qcle_not_lt; assumption.
Qed.

(** a query inside the box of a bound interpolator returns a matrix of
    three rows and [Ncoils] columns, interpolated in one cell *)
Lemma call_in_box w itp V pos :
  wf w -> grid itp = axes (self w) -> heap w !! values itp = Some V ->
  shape V = grid_shape (self w) -> in_box (self w) pos ->
  exists i j k tx ty tz,
    RegularGridInterpolator_call itp pos w
    = (inr (to_matrix 3 (Ncoils (self w)) (trilinear V i j k tx ty tz)), w).
Proof.
  intros Hwf Hg HV Hsh Hbox. destruct pos as [[x y] z].
  destruct Hbox as (X1 & X2 & Y1 & Y2 & Z1 & Z2).
  pose proof (wf_x _ Hwf) as Okx. pose proof (wf_y _ Hwf) as Oky.
  pose proof (wf_z _ Hwf) as Okz.
  destruct (find_index_ok (xcoords (self w)) x) as (i & tx & Ei & Li); [apply Okx |].
  destruct (find_index_ok (ycoords (self w)) y) as (j & ty & Ej & Lj); [apply Oky |].
  destruct (find_index_ok (zcoords (self w)) z) as (k & tz & Ek & Lk); [apply Okz |].
  exists i, j, k, tx, ty, tz.
  rewrite (call_run itp _ _ _ V x y z i j k tx ty tz w Hg HV); try assumption.
  - rewrite Hsh. reflexivity.
  - eapply out_of_bounds_false; eassumption.
  - eapply out_of_bounds_false; eassumption.
  - eapply out_of_bounds_false; eassumption.
  - rewrite Hsh. exact Li.
  - rewrite Hsh. exact Lj.
  - rewrite Hsh. exact Lk.
Qed.

Lemma call_at_node w itp V i j k x y z :
  wf w -> grid itp = axes (self w) -> heap w !! values itp = Some V ->
  shape V = grid_shape (self w) ->
  xcoords (self w) !! i = Some x -> ycoords (self w) !! j = Some y ->
  zcoords (self w) !! k = Some z ->
  exists Mx,
    RegularGridInterpolator_call itp (x, y, z) w = (inr Mx, w)
    /\ forall c n, c < 3 -> n < Ncoils (self w) ->
         Mx !! c ≫= (fun row => row !! n) = Some (item V i j k c n).
Proof.
  intros Hwf Hg HV Hsh Hx Hy Hz.
  destruct (wf_x _ Hwf) as (Ax & L2x & _). destruct (wf_y _ Hwf) as (Ay & L2y & _).
  destruct (wf_z _ Hwf) as (Az & L2z & _).
  destruct (find_index_node _ _ _ Ax L2x Hx) as (i' & tx & Ei & Li & Ci).
  destruct (find_index_node _ _ _ Ay L2y Hy) as (j' & ty & Ej & Lj & Cj).
  destruct (find_index_node _ _ _ Az L2z Hz) as (k' & tz & Ek & Lk & Ck).
  eexists. split.
  - apply (call_run itp _ _ _ V x y z i' j' k' tx ty tz w Hg HV); try assumption.
    + eapply in_bounds_node; eassumption.
    + eapply in_bounds_node; eassumption.
    + eapply in_bounds_node; eassumption.
    + rewrite Hsh. exact Li.
    + rewrite Hsh. exact Lj.
    + rewrite Hsh. exact Lk.
  - intros c n Hc Hn. rewrite Hsh. cbn [n3 n4 grid_shape].
    rewrite to_matrix_entry by assumption. f_equal.
    apply trilinear_node; assumption.
Qed.

Lemma ncols_to_matrix r c f : 0 < r -> ncols (to_matrix (S (r - 1)) c f) = c.
Proof. intros _. unfold to_matrix. cbn. rewrite length_map, length_seq. reflexivity. Qed.

Lemma dot_to_matrix m c f :
  length m = 3 -> dot m (to_matrix 3 c f) = inr (contract m (to_matrix 3 c f) c).
Proof.
  intros Hm. destruct m as [|m0 [|m1 [|m2 [|]]]]; try discriminate.
  unfold dot. rewrite to_matrix_length. cbn [length Nat.eqb]. f_equal.
  unfold contract, ncols, to_matrix. cbn [seq map zip zip_with foldr nth fst snd].
  rewrite length_map, length_seq.
  apply map_ext. intros n. ring.
Qed.

Lemma contract_length m D c : length (contract m D c) = c.
Proof. unfold contract. rewrite length_map, length_seq. reflexivity. Qed.

Lemma grad_x_differences B d G :
  2 <= n0 (shape B) -> shape G = shape B ->
  (forall i j k, i < n0 (shape B) -> j < n1 (shape B) -> k < n2 (shape B) ->
     item G i j k = grad_x B d i j k) ->
  finite_differences dX d B G.
Proof.
  intros H2 Hsh Hv. split; [assumption |].
  intros i j k c n Hi Hj Hk. cbn [pos_along axis_len along].
  rewrite (Hv i j k Hi Hj Hk). unfold grad_x, diff_quot.
  repeat split.
  - intros ->. reflexivity.
  - intros ->. destruct (Nat.eqb_spec (n0 (shape B) - 1) 0) as [Eq | Ne]; [lia |]; clear Ne.
    rewrite Nat.eqb_refl. reflexivity.
  - intros Ht. destruct (Nat.eqb_spec i 0) as [Eq | Ne]; [lia |]; clear Ne.
    destruct (Nat.eqb_spec i (n0 (shape B) - 1)) as [Eq | Ne]; [lia |]; clear Ne. reflexivity.
Qed.

Lemma grad_y_differences B d G :
  2 <= n1 (shape B) -> shape G = shape B ->
  (forall i j k, i < n0 (shape B) -> j < n1 (shape B) -> k < n2 (shape B) ->
     item G i j k = grad_y B d i j k) ->
  finite_differences dY d B G.
Proof.
  intros H2 Hsh Hv. split; [assumption |].
  intros i j k c n Hi Hj Hk. cbn [pos_along axis_len along].
  rewrite (Hv i j k Hi Hj Hk). unfold grad_y, diff_quot.
  repeat split.
  - intros ->. reflexivity.
  - intros ->. destruct (Nat.eqb_spec (n1 (shape B) - 1) 0) as [Eq | Ne]; [lia |]; clear Ne.
    rewrite Nat.eqb_refl. reflexivity.
  - intros Ht. destruct (Nat.eqb_spec j 0) as [Eq | Ne]; [lia |]; clear Ne.
    destruct (Nat.eqb_spec j (n1 (shape B) - 1)) as [Eq | Ne]; [lia |]; clear Ne. reflexivity.
Qed.

Lemma grad_z_differences B d G :
  2 <= n2 (shape B) -> shape G = shape B ->
  (forall i j k, i < n0 (shape B) -> j < n1 (shape B) -> k < n2 (shape B) ->
     item G i j k = grad_z B d i j k) ->
  finite_differences dZ d B G.
Proof.
  intros H2 Hsh Hv. split; [assumption |].
  intros i j k c n Hi Hj Hk. cbn [pos_along axis_len along].
  rewrite (Hv i j k Hi Hj Hk). unfold grad_z, diff_quot.
  repeat split.
  - intros ->. reflexivity.
  - intros ->. destruct (Nat.eqb_spec (n2 (shape B) - 1) 0) as [Eq | Ne]; [lia |]; clear Ne.
    rewrite Nat.eqb_refl. reflexivity.
  - intros Ht. destruct (Nat.eqb_spec k 0) as [Eq | Ne]; [lia |]; clear Ne.
    destruct (Nat.eqb_spec k (n2 (shape B) - 1)) as [Eq | Ne]; [lia |]; clear Ne. reflexivity.
Qed.

Lemma bound_call_in_box w oi pos :
  wf w -> bound w oi -> in_box (self w) pos ->
  exists itp V i j k tx ty tz,
    oi = Some itp /\
    RegularGridInterpolator_call itp pos w
    = (inr (to_matrix 3 (Ncoils (self w)) (trilinear V i j k tx ty tz)), w).
Proof.
  intros Hwf (itp & V & -> & Hg & HV & Hsh) Hbox.
  destruct (call_in_box w itp V pos Hwf Hg HV Hsh Hbox) as (i & j & k & tx & ty & tz & E).
  exists itp, V, i, j, k, tx, ty, tz. auto.
Qed.

(** with six coils and six entries in [0, 6) the copy holds the coils in the
    order of the entries *)
Lemma permutate_coils_six w B coilvec :
  wf w -> heap w !! Bs (self w) = Some B -> n4 (shape B) = 6 ->
  length coilvec = 6 -> Forall (fun v => (0 <= v < 6)%Z) coilvec ->
  exists w' T,
    permutate_coils coilvec w = (inr tt, w')
    /\ heap w' !! Bs (self w') = Some T /\ shape T = shape B
    /\ forall n v, coilvec !! n = Some v ->
         forall i j k c, item T i j k c n = item B i j k c (Z.to_nat v).
Proof.
  intros Hwf HB H6 Hlen Hall. rewrite Forall_forall in Hall.
  destruct (permutate_coils_run w B coilvec Hwf HB)
    as [(T & X & Y & Z & E & HT & _) | (T & idx & Hidx & Hbad & E)].
  - eexists _, T. split; [exact E |].
    destruct HT as (T' & HWeq & HTs & Hinv). injection HWeq as HWeq.
    apply app_inj_tail in HWeq as [_ <-].
    cbn [self heap after_permutation set_Bz set_By set_Bx set_BactInterpolator set_Bs Bs].
    split; [rewrite lookup_app_r by lia; rewrite Nat.sub_diag; reflexivity |].
    split; [assumption |].
    intros n v Hv i j k c.
    assert (Hn : n < 6) by (rewrite <- Hlen; apply lookup_lt_is_Some; eauto).
    destruct (Hinv n) as [Hdone _].
    destruct (Hdone Hn) as (v' & c' & Hv' & Hc' & _ & Hitem).
    rewrite Hv in Hv'. injection Hv' as <-.
    rewrite Hitem. f_equal.
    rewrite H6, np_index_in_range in Hc'; [congruence |].
    apply Hall. eapply list_elem_of_lookup_2. eassumption.
  - exfalso. destruct Hbad as [Hnone | [(v & Hv & Hc) | Hge]].
    + apply lookup_ge_None in Hnone. lia.
    + rewrite H6, np_index_in_range in Hc; [discriminate |].
      apply Hall. eapply list_elem_of_lookup_2. eassumption.
    + lia.
Qed.

(** a query reads the heap only at the array of its interpolator *)
Lemma call_heap_local itp pos o o' h h' :
  h !! values itp = h' !! values itp ->
  fst (RegularGridInterpolator_call itp pos (mkWorld o h))
  = fst (RegularGridInterpolator_call itp pos (mkWorld o' h')).
Proof.
  intros Hl. unfold RegularGridInterpolator_call.
  destruct (grid itp) as [[gx gy] gz]. destruct pos as [[x y] z].
  destruct (out_of_bounds gx x || out_of_bounds gy y || out_of_bounds gz z); [reflexivity |].
  rewrite !run_bind. unfold load. cbn [heap]. rewrite <- Hl.
  destruct (h !! values itp) as [V|]; [| reflexivity].
  unfold lift.
  repeat match goal with
         | |- context [(?r, ?w) ≫= _] => idtac
         end.
  destruct (find_index gx x) as [e | [i tx]]; [reflexivity |]. rewrite !run_bind.
  destruct (find_index gy y) as [e | [j ty]]; [reflexivity |]. rewrite !run_bind.
  destruct (find_index gz z) as [e | [k tz]]; [reflexivity |].
  repeat (rewrite run_bind;
          match goal with
          | |- context [get_node ?V ?a ?b ?c] =>
              destruct (get_node V a b c); [reflexivity |]
          end).
  reflexivity.
Qed.

Lemma call_pure itp pos w : snd (RegularGridInterpolator_call itp pos w) = w.
Proof.
  unfold RegularGridInterpolator_call.
  destruct (grid itp) as [[gx gy] gz]. destruct pos as [[x y] z].
  destruct (out_of_bounds gx x || out_of_bounds gy y || out_of_bounds gz z); [reflexivity |].
  rewrite !run_bind. unfold load.
  destruct (heap w !! values itp) as [V|]; [| reflexivity].
  unfold lift.
  destruct (find_index gx x) as [e | [i tx]]; [reflexivity |]. rewrite !run_bind.
  destruct (find_index gy y) as [e | [j ty]]; [reflexivity |]. rewrite !run_bind.
  destruct (find_index gz z) as [e | [k tz]]; [reflexivity |].
  repeat (rewrite run_bind;
          match goal with
          | |- context [get_node ?V ?a ?b ?c] =>
              destruct (get_node V a b c); [reflexivity |]
          end).
  reflexivity.
Qed.

(** after a permutation the derivative interpolators are the ones bound
    before it, and answer as before it *)
Lemma permutate_coils_keeps_derivative_interpolators w coilvec w' pos :
  wf w -> permutate_coils coilvec w = (inr tt, w') ->
  BxInterpolator (self w') = BxInterpolator (self w)
  /\ ByInterpolator (self w') = ByInterpolator (self w)
  /\ BzInterpolator (self w') = BzInterpolator (self w)
  /\ fst (getDerMatrices pos w') = fst (getDerMatrices pos w).
Proof.
  intros Hwf Hrun. destruct (wf_Bs _ Hwf) as (B & HB & _).
  destruct (permutate_coils_run w B coilvec Hwf HB)
    as [(T & X & Y & Z & E & _) | (T & idx & _ & _ & E)]; rewrite E in Hrun; [| discriminate].
  injection Hrun as <-. cbn [self]. repeat (split; [reflexivity |]).
  destruct (wf_BxI _ Hwf) as (ix & Vx & Hix & _ & HVx & _).
  destruct (wf_ByI _ Hwf) as (iy & Vy & Hiy & _ & HVy & _).
  destruct (wf_BzI _ Hwf) as (iz & Vz & Hiz & _ & HVz & _).
  destruct w as [o h]. cbn [self heap] in *.
  set (o' := after_permutation o (length h)). set (h' := h ++ [T; X; Y; Z]).
  assert (Hsame : forall l V, h !! l = Some V -> h !! l = h' !! l).
  { intros l V HV. unfold h'. rewrite lookup_app_l; [reflexivity |].
    apply lookup_lt_is_Some; eauto. }
  assert (Hcall : forall itp V, h !! values itp = Some V ->
            RegularGridInterpolator_call itp pos (mkWorld o' h')
            = (fst (RegularGridInterpolator_call itp pos (mkWorld o h)), mkWorld o' h')).
  { intros itp V HV.
    rewrite (surjective_pairing (RegularGridInterpolator_call itp pos (mkWorld o' h'))).
    rewrite call_pure. f_equal. symmetry. apply call_heap_local. eapply Hsame; eassumption. }
  assert (Hcall0 : forall itp,
            RegularGridInterpolator_call itp pos (mkWorld o h)
            = (fst (RegularGridInterpolator_call itp pos (mkWorld o h)), mkWorld o h)).
  { intros itp.
    rewrite (surjective_pairing (RegularGridInterpolator_call itp pos (mkWorld o h))) at 1.
    rewrite call_pure. reflexivity. }
  unfold getDerMatrices.
  rewrite (run_bind_ok _ _ (mkWorld o' h') ix (mkWorld o' h'))
    by (apply run_attr_opt; exact Hix).
  rewrite (run_bind_ok _ _ (mkWorld o h) ix (mkWorld o h)) by (apply run_attr_opt; exact Hix).
  rewrite run_bind, (Hcall ix Vx HVx). rewrite (run_bind _ _ (mkWorld o h)), (Hcall0 ix).
  destruct (fst (RegularGridInterpolator_call ix pos (mkWorld o h))) as [e | dx];
    [reflexivity |]. cbn [fst].
  rewrite (run_bind_ok _ _ (mkWorld o' h') iy (mkWorld o' h'))
    by (apply run_attr_opt; exact Hiy).
  rewrite (run_bind_ok _ _ (mkWorld o h) iy (mkWorld o h)) by (apply run_attr_opt; exact Hiy).
  rewrite run_bind, (Hcall iy Vy HVy). rewrite (run_bind _ _ (mkWorld o h)), (Hcall0 iy).
  destruct (fst (RegularGridInterpolator_call iy pos (mkWorld o h))) as [e | dy];
    [reflexivity |]. cbn [fst].
  rewrite (run_bind_ok _ _ (mkWorld o' h') iz (mkWorld o' h'))
    by (apply run_attr_opt; exact Hiz).
  rewrite (run_bind_ok _ _ (mkWorld o h) iz (mkWorld o h)) by (apply run_attr_opt; exact Hiz).
  rewrite run_bind, (Hcall iz Vz HVz). rewrite (run_bind _ _ (mkWorld o h)), (Hcall0 iz).
  destruct (fst (RegularGridInterpolator_call iz pos (mkWorld o h))) as [e | dz];
    reflexivity.
Qed.

(** ** The constructor, continued *)

Lemma axis_of_axis col x0 x1 :
  axis col !! 1 = Some x1 -> axis col !! 0 = Some x0 ->
  axis_of col (axis col) (x1 - x0)%Qc.
Proof.
  intros H1 H0. split; [reflexivity |]. split; [apply elem_of_axis |].
  split; [apply axis_strictly_sorted |]. split.
  - apply lookup_lt_Some in H1. lia.
  - exists x0, x1. auto.
Qed.

Lemma init_axes_posunit B coords N pu :
  init_axes (B, coords) N pu = init_axes (B, used_coordinates pu coords) N "m".
Proof.
  unfold init_axes, used_coordinates.
  destruct (String.eqb_spec pu "mm") as [-> | Hne]; case_decide; try contradiction;
    reflexivity.
Qed.

Lemma init_heap_Bs B coords N pu w :
  __init__ (B, coords) N pu = inr w -> heap w !! Bs (self w) = Some B.
Proof.
  intros H. apply init_world in H
    as (x1 & x0 & y1 & y0 & z1 & z0 & X & Y & Z & o
        & _ & _ & _ & _ & _ & _ & _ & _ & HBs & _ & _ & _ & _ & _ & _
        & _ & _ & _ & _ & _ & _ & _ & _ & _ & _ & _ & _ & ->).
  cbn. rewrite HBs. reflexivity.
Qed.

(** ** The example systems *)

(** a run is known by its result *)
Lemma run_fst {A} (m : M A) (w : world) (r : Exc A) :
  fst (m w) = r -> m w = (r, snd (m w)).
Proof. intros <-. apply surjective_pairing. Qed.

Lemma built_inr (r : Exc world) :
  match r with inr _ => true | inl _ => false end = true -> r = inr (built r).
Proof. destruct r; [discriminate | reflexivity]. Qed.

Lemma sys6_init : __init__ (B6, pts6) 6 "m" = inr sys6.
Proof. apply built_inr. vm_compute. reflexivity. Qed.

Lemma sys6_wf : wf sys6.
Proof. apply (init_wf _ _ _ _ _ sys6_init); reflexivity. Qed.

Lemma sys6_Bs : heap sys6 !! Bs (self sys6) = Some B6.
Proof. exact (init_heap_Bs _ _ _ _ _ sys6_init). Qed.

Lemma sys3_init : __init__ (Bconst 3, pts2) 3 "m" = inr sys3.
Proof. apply built_inr. vm_compute. reflexivity. Qed.

Lemma sys7_init : __init__ (Bconst 7, pts2) 7 "m" = inr sys7.
Proof. apply built_inr. vm_compute. reflexivity. Qed.

Lemma sys_lin_init : __init__ (Blin, pts3) 1 "m" = inr sys_lin.
Proof. apply built_inr. vm_compute. reflexivity. Qed.

Lemma sys9_init : __init__ (Bconst 1, pts9) 1 "m" = inr sys9.
Proof. apply built_inr. vm_compute. reflexivity. Qed.

(** [round_sig] on a few values *)
Example round_sig_small : round_sig 6 (Q2Qc (123456789 # 10000000000)) = Q2Qc (123457 # 10000000).
Proof. by_eval. Qed.

Example round_sig_large : round_sig 6 (Q2Qc (1234567 # 1)) = Q2Qc (1234570 # 1).
Proof. by_eval. Qed.

Example round_sig_short : round_sig 6 (Q2Qc (-5 # 1000)) = Q2Qc (-5 # 1000).
Proof. by_eval. Qed.

Example round_sig_carry : round_sig 3 (Q2Qc (99951 # 100)) = Q2Qc (1000 # 1).
Proof. by_eval. Qed.

Example round_1e6_small : round_1e6 (Q2Qc (123456789 # 10000000000)) = Q2Qc (12346 # 1000000).
Proof. by_eval. Qed.

(** * Further lemmas *)


(** ** Outcomes of the constructor *)

Lemma axis_steps col :
  2 <= length (axis col) ->
  exists x1 x0 lo hi,
    index (axis col) 1 = inr x1 /\ index (axis col) 0 = inr x0
    /\ py_min (axis col) = inr lo /\ py_max (axis col) = inr hi.
Proof.
  intros Hlen.
  destruct (lookup_lt_is_Some_2 (axis col) 1) as [x1 H1]; [lia |].
  destruct (lookup_lt_is_Some_2 (axis col) 0) as [x0 H0]; [lia |].
  exists x1, x0. rewrite (index_ok _ _ _ H1), (index_ok _ _ _ H0).
  destruct (axis col) as [|a l]; [discriminate |].
  eexists _, _. repeat split; reflexivity.
Qed.

Lemma axis_short col : length (axis col) < 2 -> index (axis col) 1 = inl IndexError.
Proof.
  intros Hlen. unfold index. rewrite lookup_ge_None_2 by lia. reflexivity.
Qed.

Lemma init_axes_unfold B coords N pu :
  let cs := used_coordinates pu coords in
  init_axes (B, coords) N pu
  = (x1 ← index (axis (xcol cs)) 1; x0 ← index (axis (xcol cs)) 0;
     xlo ← py_min (axis (xcol cs)); xhi ← py_max (axis (xcol cs));
     y1 ← index (axis (ycol cs)) 1; y0 ← index (axis (ycol cs)) 0;
     ylo ← py_min (axis (ycol cs)); yhi ← py_max (axis (ycol cs));
     z1 ← index (axis (zcol cs)) 1; z0 ← index (axis (zcol cs)) 0;
     zlo ← py_min (axis (zcol cs)); zhi ← py_max (axis (zcol cs));
     mret (mkWorld
             (mkSys 0 cs N
                (axis (xcol cs)) (x1 - x0)%Qc xlo xhi
                (axis (ycol cs)) (y1 - y0)%Qc ylo yhi
                (axis (zcol cs)) (z1 - z0)%Qc zlo zhi
                None None None None None None None)
             [B])).
Proof.
  intros cs. unfold init_axes.
  assert (Hcs : (if String.eqb pu "mm" then scale_mm coords else coords) = cs).
  { unfold cs, used_coordinates.
    destruct (String.eqb_spec pu "mm"); case_decide; first [reflexivity | contradiction]. }
  rewrite Hcs. reflexivity.
Qed.

(** an axis with fewer than two values stops the constructor *)
Lemma init_short_axis B coords N pu :
  let cs := used_coordinates pu coords in
  length (axis (xcol cs)) < 2 \/ length (axis (ycol cs)) < 2 \/ length (axis (zcol cs)) < 2 ->
  __init__ (B, coords) N pu = inl IndexError.
Proof.
  intros cs H. unfold __init__. rewrite init_axes_unfold. fold cs.
  destruct (le_lt_dec 2 (length (axis (xcol cs)))) as [Lx | Lx].
  2:{ rewrite (axis_short _ Lx). reflexivity. }
  destruct (axis_steps _ Lx) as (x1 & x0 & xlo & xhi & -> & -> & -> & ->).
  cbn [mbind Exc_bind].
  destruct (le_lt_dec 2 (length (axis (ycol cs)))) as [Ly | Ly].
  2:{ rewrite (axis_short _ Ly). reflexivity. }
  destruct (axis_steps _ Ly) as (y1 & y0 & ylo & yhi & -> & -> & -> & ->).
  cbn [mbind Exc_bind].
  destruct (le_lt_dec 2 (length (axis (zcol cs)))) as [Lz | Lz].
  2:{ rewrite (axis_short _ Lz). reflexivity. }
  lia.
Qed.

Lemma init_axes_ok B coords N pu :
  let cs := used_coordinates pu coords in
  2 <= length (axis (xcol cs)) -> 2 <= length (axis (ycol cs)) ->
  2 <= length (axis (zcol cs)) ->
  exists o, init_axes (B, coords) N pu = inr (mkWorld o [B])
    /\ Bs o = 0 /\ BactInterpolator o = None
    /\ xcoords o = axis (xcol cs) /\ ycoords o = axis (ycol cs)
    /\ zcoords o = axis (zcol cs).
Proof.
  intros cs Lx Ly Lz. rewrite init_axes_unfold. fold cs.
  destruct (axis_steps _ Lx) as (x1 & x0 & xlo & xhi & -> & -> & -> & ->).
  destruct (axis_steps _ Ly) as (y1 & y0 & ylo & yhi & -> & -> & -> & ->).
  destruct (axis_steps _ Lz) as (z1 & z0 & zlo & zhi & -> & -> & -> & ->).
  cbn [mbind Exc_bind mret Exc_ret]. eexists. split; [reflexivity |].
  repeat split; reflexivity.
Qed.

Lemma axis_ascending col : strictly_ascending (axis col) = true.
Proof. apply strictly_ascending_sorted, axis_strictly_sorted. Qed.

(** axes that do not fit the array stop the constructor at the first
    interpolator *)
Lemma init_shape_mismatch B coords N pu :
  let cs := used_coordinates pu coords in
  2 <= length (axis (xcol cs)) -> 2 <= length (axis (ycol cs)) ->
  2 <= length (axis (zcol cs)) ->
  (length (axis (xcol cs)), length (axis (ycol cs)), length (axis (zcol cs)))
  <> (n0 (shape B), n1 (shape B), n2 (shape B)) ->
  __init__ (B, coords) N pu = inl ValueError.
Proof.
  intros cs Lx Ly Lz Hne.
  destruct (init_axes_ok B coords N pu Lx Ly Lz) as (o & E & HBs & _ & Ex & Ey & Ez).
  fold cs in Ex, Ey, Ez.
  unfold __init__. rewrite E. cbn [mbind Exc_bind].
  unfold init_interpolators. rewrite run_bind.
  unfold new_interpolator.
  rewrite (run_bind_ok _ _ _ (xcoords o) (mkWorld o [B])) by reflexivity.
  rewrite (run_bind_ok _ _ _ (ycoords o) (mkWorld o [B])) by reflexivity.
  rewrite (run_bind_ok _ _ _ (zcoords o) (mkWorld o [B])) by reflexivity.
  rewrite (run_bind_ok _ _ _ (Bs o) (mkWorld o [B])) by reflexivity.
  unfold RegularGridInterpolator.
  rewrite (run_bind_ok _ _ _ B (mkWorld o [B])) by (apply run_load; rewrite HBs; reflexivity).
  rewrite Ex, Ey, Ez, !axis_ascending. cbn [andb negb].
  destruct (Nat.eqb_spec (length (axis (xcol cs))) (n0 (shape B))) as [Hx | Hx];
    [| reflexivity].
  destruct (Nat.eqb_spec (length (axis (ycol cs))) (n1 (shape B))) as [Hy | Hy];
    [| reflexivity].
  destruct (Nat.eqb_spec (length (axis (zcol cs))) (n2 (shape B))) as [Hz | Hz];
    [| reflexivity].
  congruence.
Qed.

(** on coordinates that fit the array the constructor returns *)
Lemma init_succeeds B coords N pu :
  let cs := used_coordinates pu coords in
  2 <= length (axis (xcol cs)) -> 2 <= length (axis (ycol cs)) ->
  2 <= length (axis (zcol cs)) ->
  length (axis (xcol cs)) = n0 (shape B) -> length (axis (ycol cs)) = n1 (shape B) ->
  length (axis (zcol cs)) = n2 (shape B) ->
  exists w, __init__ (B, coords) N pu = inr w.
Proof.
  intros cs Lx Ly Lz Hx Hy Hz.
  destruct (init_axes_ok B coords N pu Lx Ly Lz) as (o & E & HBs & HNone & Ex & Ey & Ez).
  fold cs in Ex, Ey, Ez.
  destruct (init_interpolators_run o [B] B) as (X & Y & Z & Er & _);
    try assumption; rewrite ?Ex, ?Ey, ?Ez, ?HBs; try assumption; try reflexivity;
    try apply axis_ascending.
  eexists. unfold __init__. rewrite E. cbn [mbind Exc_bind]. rewrite Er. reflexivity.
Qed.

(** ** Which arguments [permutate_coils] accepts *)

Lemma np_index_ok_iff n v : (exists c, np_index n v = inr c) <-> (- Z.of_nat n <= v < Z.of_nat n)%Z.
Proof.
  unfold np_index. split.
  - intros [c H].
    destruct ((0 <=? v) && (v <? Z.of_nat n))%Z eqn:E1.
    + apply andb_prop in E1 as [H1 H2]. apply Z.leb_le in H1. apply Z.ltb_lt in H2. lia.
    + destruct ((- Z.of_nat n <=? v) && (v <? 0))%Z eqn:E2; [| discriminate].
      apply andb_prop in E2 as [H1 H2]. apply Z.leb_le in H1. apply Z.ltb_lt in H2. lia.
  - intros Hr. destruct (Z.leb_spec 0 v) as [H0 | H0].
    + destruct (Z.ltb_spec v (Z.of_nat n)); [| lia]. cbn [andb]. eauto.
    + cbn [andb]. destruct (Z.leb_spec (- Z.of_nat n) v); [| lia].
      destruct (Z.ltb_spec v 0); [| lia]. cbn [andb]. eauto.
Qed.

Lemma accepted_no_bad_entry B coilvec :
  accepted (n4 (shape B)) coilvec <-> forall idx, idx < 6 -> ~ bad_entry B coilvec idx.
Proof.
  split.
  - intros [H6 Hall] idx Hidx [Hnone | [(v & Hv & Hc) | Hge]].
    + destruct (Hall idx Hidx) as (v & Hv & _). congruence.
    + destruct (Hall idx Hidx) as (v' & Hv' & Hr). rewrite Hv in Hv'. injection Hv' as <-.
      apply np_index_ok_iff in Hr as [c Hc']. congruence.
    + lia.
  - intros Hgood. split.
    + destruct (le_lt_dec 6 (n4 (shape B))) as [H | H]; [assumption |].
      exfalso. apply (Hgood (n4 (shape B)) H). right. right. lia.
    + intros idx Hidx. destruct (coilvec !! idx) as [v|] eqn:Hv.
      * exists v. split; [reflexivity |]. apply np_index_ok_iff.
        destruct (np_index (n4 (shape B)) v) as [e | c] eqn:Hc; [| eauto].
        exfalso. apply (Hgood idx Hidx). right. left. exists v.
        rewrite (np_index_err _ _ _ Hc) in Hc. auto.
      * exfalso. apply (Hgood idx Hidx). left. assumption.
Qed.

Lemma permutate_coils_outcome w B coilvec :
  wf w -> heap w !! Bs (self w) = Some B ->
  (accepted (n4 (shape B)) coilvec /\ fst (permutate_coils coilvec w) = inr tt)
  \/ (~ accepted (n4 (shape B)) coilvec /\ fst (permutate_coils coilvec w) = inl IndexError).
Proof.
  intros Hwf HB.
  destruct (permutate_coils_run w B coilvec Hwf HB)
    as [(T & X & Y & Z & E & HT & _) | (T & idx & Hidx & Hbad & E)]; rewrite E; cbn [fst].
  - left. split; [| reflexivity]. apply accepted_no_bad_entry.
    destruct HT as (T' & _ & _ & Hinv).
    intros idx Hidx. destruct (Hinv idx) as [Hdone _].
    destruct (Hdone Hidx) as (v & c & Hv & Hc & Hlt & _).
    intros [Hnone | [(v' & Hv' & Hc') | Hge]]; [congruence | | lia].
    rewrite Hv in Hv'. injection Hv' as <-. congruence.
  - right. split; [| reflexivity]. rewrite accepted_no_bad_entry.
    intros Hgood. exact (Hgood idx Hidx Hbad).
Qed.

(** ** Two permutations in a row *)

Lemma permutate_coils_twice w B cv cv' :
  wf w -> heap w !! Bs (self w) = Some B -> n4 (shape B) = 6 ->
  length cv = 6 -> Forall (fun v => (0 <= v < 6)%Z) cv ->
  length cv' = 6 -> Forall (fun v => (0 <= v < 6)%Z) cv' ->
  exists w2 T2,
    (permutate_coils cv;; permutate_coils cv') w = (inr tt, w2)
    /\ wf w2
    /\ heap w2 !! Bs (self w2) = Some T2 /\ shape T2 = shape B
    /\ forall n v' v, cv' !! n = Some v' -> cv !! Z.to_nat v' = Some v ->
         forall i j k c, item T2 i j k c n = item B i j k c (Z.to_nat v).
Proof.
  intros Hwf HB H6 Hlen Hall Hlen' Hall'.
  destruct (permutate_coils_six w B cv Hwf HB H6 Hlen Hall) as (w1 & T1 & E1 & HT1 & Hs1 & V1).
  pose proof (permutate_coils_wf _ _ _ Hwf E1) as Hwf1.
  destruct (permutate_coils_six w1 T1 cv' Hwf1 HT1) as (w2 & T2 & E2 & HT2 & Hs2 & V2);
    try assumption; [rewrite Hs1; assumption |].
  exists w2, T2. split; [rewrite (run_bind_ok _ _ _ _ _ E1); exact E2 |].
  split; [exact (permutate_coils_wf _ _ _ Hwf1 E2) |].
  split; [assumption |]. split; [congruence |].
  intros n v' v Hv' Hv i j k c.
  rewrite (V2 n v' Hv'). apply V1. assumption.
Qed.

Lemma read_only_bind {A B} (m : M A) (f : A -> M B) :
  read_only m -> (forall a, read_only (f a)) -> read_only (m ≫= f).
Proof.
  intros Hm Hf w. rewrite run_bind. specialize (Hm w).
  destruct (m w) as [[e | a] w']; cbn [snd] in Hm; subst w'; [reflexivity | apply Hf].
Qed.

Lemma read_only_attr_opt {A} (F : magnetic_system -> option A) : read_only (attr_opt F).
Proof. intros w. unfold attr_opt. destruct (F (self w)); reflexivity. Qed.

Lemma read_only_lift {A} (r : Exc A) : read_only (lift r).
Proof. intros w. reflexivity. Qed.

Lemma read_only_ret {A} (a : A) : read_only (mret a : M A).
Proof. intros w. reflexivity. Qed.

Lemma read_only_call itp pos : read_only (RegularGridInterpolator_call itp pos).
Proof. intros w. apply call_pure. Qed.

Lemma read_only_getBact pos : read_only (getBact pos).
Proof.
  unfold getBact. apply read_only_bind; [apply read_only_attr_opt |].
  intros itp. apply read_only_call.
Qed.

Lemma read_only_getDerMatrices pos : read_only (getDerMatrices pos).
Proof.
  unfold getDerMatrices.
  repeat first
    [ apply read_only_bind; [first [apply read_only_attr_opt | apply read_only_call] |]; intros ?
    | apply read_only_ret ].
Qed.

Lemma read_only_getA pos m : read_only (getA pos m).
Proof.
  unfold getA. apply read_only_bind; [apply read_only_getDerMatrices |].
  intros [[dx dy] dz]. apply read_only_bind; [apply read_only_getBact |]. intros Bact.
  repeat (apply read_only_bind; [apply read_only_lift |]; intros ?).
  apply read_only_lift.
Qed.

(** ** [_compute_gradient_tensor] on a grid of one node along x *)

Lemma gradient_single_node w B :
  heap w !! Bs (self w) = Some B ->
  n0 (shape B) = 1 -> 1 <= n1 (shape B) -> 1 <= n2 (shape B) ->
  _compute_gradient_tensor w
  = (inl IndexError,
     mkWorld (set_Bx (length (heap w)) (self w)) (heap w ++ [np_zeros (shape B)])).
Proof.
  intros HB H0 H1 H2. destruct w as [o h]. cbn [self heap] in *.
  assert (Hlt : Bs o < length h) by (apply lookup_lt_is_Some; eauto).
  unfold _compute_gradient_tensor.
  rewrite (run_bind_ok _ _ _ (Bs o) (mkWorld o h)) by reflexivity.
  rewrite (run_bind_ok _ _ _ B (mkWorld o h)) by (apply run_load; assumption).
  rewrite (run_bind_ok _ _ _ (Bs o) (mkWorld o h)) by reflexivity.
  rewrite (run_bind_ok _ _ _ B (mkWorld o h)) by (apply run_load; assumption).
  rewrite (run_bind_ok _ _ _ (length h) (mkWorld o (h ++ [np_zeros (shape B)])))
    by reflexivity.
  rewrite (run_bind_ok _ _ _ tt (mkWorld (set_Bx (length h) o) (h ++ [np_zeros (shape B)])))
    by reflexivity.
  apply run_bind_err. rewrite H0.
  destruct (n1 (shape B)) as [|m1] eqn:E1; [lia |].
  destruct (n2 (shape B)) as [|m2] eqn:E2; [lia |].
  cbn [for_range]. apply run_bind_err. apply run_bind_err. apply run_bind_err.
  cbn [Nat.eqb]. apply run_bind_err.
  unfold Bs_node.
  rewrite (run_bind_ok _ _ _ (Bs o) (mkWorld (set_Bx (length h) o) (h ++ [np_zeros (shape B)])))
    by reflexivity.
  rewrite (run_bind_ok _ _ _ B (mkWorld (set_Bx (length h) o) (h ++ [np_zeros (shape B)])))
    by (apply run_load; cbn [heap]; rewrite lookup_app_l by assumption; assumption).
  unfold lift, get_node. rewrite H0. reflexivity.
Qed.

(** ** Integers among the rationals *)

Lemma this_Z2Qc z : this (Z2Qc z) = inject_Z z.
Proof.
  unfold Z2Qc. cbn [this Q2Qc]. apply Qred_identity. cbn. apply Z.gcd_1_r.
Qed.

(** ** The derivative matrices at a node of a new system *)

Lemma init_derivatives_at_node B coords N pu w i j k x y z :
  __init__ (B, coords) N pu = inr w ->
  n3 (shape B) = 3 -> n4 (shape B) = N ->
  xcoords (self w) !! i = Some x -> ycoords (self w) !! j = Some y ->
  zcoords (self w) !! k = Some z ->
  exists Gx Gy Gz dx dy dz,
    finite_differences dX (deltax (self w)) B Gx
    /\ finite_differences dY (deltay (self w)) B Gy
    /\ finite_differences dZ (deltaz (self w)) B Gz
    /\ getDerMatrices (x, y, z) w = (inr (dx, dy, dz), w)
    /\ forall c n, c < 3 -> n < N ->
         dx !! c ≫= (fun row => row !! n) = Some (item Gx i j k c n)
         /\ dy !! c ≫= (fun row => row !! n) = Some (item Gy i j k c n)
         /\ dz !! c ≫= (fun row => row !! n) = Some (item Gz i j k c n).
Proof.
  intros Hinit H3 H4 Hx Hy Hz.
  pose proof (init_wf _ _ _ _ _ Hinit H3 H4) as Hwf.
  apply init_world in Hinit
    as (x1 & x0 & y1 & y0 & z1 & z0 & X & Y & Z & o
        & _ & _ & _ & _ & _ & _ & _ & HN & HBs & _ & _ & _ & _ & _ & _
        & Okx & Oky & Okz & Lx & Ly & Lz & HX & HY & HZ & VX & VY & VZ & ->).
  set (w := mkWorld _ _) in *.
  assert (Hsh : shape B = grid_shape (self w)).
  { unfold grid_shape. cbn [self w set_BzInterpolator set_ByInterpolator set_BxInterpolator
      set_Bz set_By set_Bx set_BactInterpolator xcoords ycoords zcoords Ncoils].
    rewrite Lx, Ly, Lz, HN, <- H3, <- H4. destruct (shape B); reflexivity. }
  assert (L2x : 2 <= n0 (shape B)) by (rewrite <- Lx; apply Okx).
  assert (L2y : 2 <= n1 (shape B)) by (rewrite <- Ly; apply Oky).
  assert (L2z : 2 <= n2 (shape B)) by (rewrite <- Lz; apply Okz).
  destruct (call_at_node w (mkInterp (axes o) 1) X i j k x y z Hwf)
    as (dx & Ex & Vx); try assumption; try reflexivity; [congruence |].
  destruct (call_at_node w (mkInterp (axes o) 2) Y i j k x y z Hwf)
    as (dy & Ey & Vy); try assumption; try reflexivity; [congruence |].
  destruct (call_at_node w (mkInterp (axes o) 3) Z i j k x y z Hwf)
    as (dz & Ez & Vz); try assumption; try reflexivity; [congruence |].
  exists X, Y, Z, dx, dy, dz.
  split; [apply grad_x_differences; assumption |].
  split; [apply grad_y_differences; assumption |].
  split; [apply grad_z_differences; assumption |].
  split.
  - unfold getDerMatrices.
    rewrite (run_bind_ok _ _ w (mkInterp (axes o) 1) w) by reflexivity.
    rewrite (run_bind_ok _ _ w dx w Ex).
    rewrite (run_bind_ok _ _ w (mkInterp (axes o) 2) w) by reflexivity.
    rewrite (run_bind_ok _ _ w dy w Ey).
    rewrite (run_bind_ok _ _ w (mkInterp (axes o) 3) w) by reflexivity.
    rewrite (run_bind_ok _ _ w dz w Ez). reflexivity.
  - intros c n Hc Hn.
    assert (Hn' : n < Ncoils (self w)) by (cbn; rewrite HN; assumption).
    auto.
Qed.



(** ** The loader of sampled calibration data *)

(** a loop over a local value: an invariant that each returning pass keeps
    holds at the end, and a failure is that of one pass *)
Lemma for_each_outcome {T} (I : nat -> T -> Prop) (E : exn -> Prop)
    (body : nat -> T -> Exc T) n :
  forall lo s,
  I lo s ->
  (forall i s1, lo <= i < lo + n -> I i s1 ->
     match body i s1 with inr s2 => I (S i) s2 | inl e => E e end) ->
  match for_each lo n body s with inr s' => I (lo + n) s' | inl e => E e end.
Proof.
  induction n as [|n IH]; intros lo s H0 Hstep; cbn [for_each].
  - rewrite Nat.add_0_r. exact H0.
  - pose proof (Hstep lo s ltac:(lia) H0) as Hb.
    destruct (body lo s) as [e | s1]; cbn; [exact Hb |].
    replace (lo + S n) with (S lo + n) by lia.
    apply IH; [exact Hb |]. intros i s2 Hi. apply Hstep. lia.
Qed.

Lemma sampling_steps_unfold coords :
  sampling_steps coords
  = (a1 ← index (axis (xcol coords)) 1; a0 ← index (axis (xcol coords)) 0;
     lo0 ← py_min (axis (xcol coords)); hi0 ← py_max (axis (xcol coords));
     b1 ← index (axis (ycol coords)) 1; b0 ← index (axis (ycol coords)) 0;
     lo1 ← py_min (axis (ycol coords)); hi1 ← py_max (axis (ycol coords));
     c1 ← index (axis (zcol coords)) 1; c0 ← index (axis (zcol coords)) 0;
     lo2 ← py_min (axis (zcol coords)); hi2 ← py_max (axis (zcol coords));
     mret (mkSampling lo0 hi0 (a1 - a0)%Qc lo1 hi1 (b1 - b0)%Qc lo2 hi2 (c1 - c0)%Qc)).
Proof. reflexivity. Qed.

Lemma sampling_steps_short coords :
  length (axis (xcol coords)) < 2 \/ length (axis (ycol coords)) < 2
  \/ length (axis (zcol coords)) < 2 ->
  sampling_steps coords = inl IndexError.
Proof.
  intros H. rewrite sampling_steps_unfold.
  destruct (decide (length (axis (xcol coords)) < 2)) as [Lx | Lx].
  { rewrite (axis_short _ Lx). reflexivity. }
  destruct (axis_steps (xcol coords) ltac:(lia)) as (x1 & x0 & xlo & xhi & -> & -> & -> & ->).
  cbn.
  destruct (decide (length (axis (ycol coords)) < 2)) as [Ly | Ly].
  { rewrite (axis_short _ Ly). reflexivity. }
  destruct (axis_steps (ycol coords) ltac:(lia)) as (y1 & y0 & ylo & yhi & -> & -> & -> & ->).
  cbn.
  assert (Lz : length (axis (zcol coords)) < 2) by lia.
  rewrite (axis_short _ Lz). reflexivity.
Qed.

Lemma sampling_steps_inv coords g :
  sampling_steps coords = inr g ->
  steps_of (xcol coords) (lo_x g) (hi_x g) (delta_x g)
  /\ steps_of (ycol coords) (lo_y g) (hi_y g) (delta_y g)
  /\ steps_of (zcol coords) (lo_z g) (hi_z g) (delta_z g).
Proof.
  rewrite sampling_steps_unfold. intros H.
  repeat (apply Exc_bind_inr in H as (? & ? & H)).
  injection H as <-. cbn [lo_x hi_x delta_x lo_y hi_y delta_y lo_z hi_z delta_z].
  repeat split; eexists _, _;
    (split; [eapply index_inv; eassumption |]);
    (split; [eapply index_inv; eassumption |]);
    (split; [reflexivity |]); eapply axis_ok_of; eassumption.
Qed.

Lemma sampling_steps_ok coords :
  2 <= length (axis (xcol coords)) -> 2 <= length (axis (ycol coords)) ->
  2 <= length (axis (zcol coords)) ->
  exists g, sampling_steps coords = inr g.
Proof.
  intros Lx Ly Lz. rewrite sampling_steps_unfold.
  destruct (axis_steps _ Lx) as (x1 & x0 & xlo & xhi & -> & -> & -> & ->).
  destruct (axis_steps _ Ly) as (y1 & y0 & ylo & yhi & -> & -> & -> & ->).
  destruct (axis_steps _ Lz) as (z1 & z0 & zlo & zhi & -> & -> & -> & ->).
  eexists. reflexivity.
Qed.

Lemma sampling_steps_error coords e : sampling_steps coords = inl e -> e = IndexError.
Proof.
  intros H.
  destruct (decide (2 <= length (axis (xcol coords)) /\ 2 <= length (axis (ycol coords))
                    /\ 2 <= length (axis (zcol coords)))) as [(Lx & Ly & Lz) | No].
  - destruct (sampling_steps_ok coords Lx Ly Lz) as [g Hg]. congruence.
  - rewrite sampling_steps_short in H by lia. congruence.
Qed.

Lemma Z2Qc_le a b : (a <= b)%Z -> (Z2Qc a <= Z2Qc b)%Qc.
Proof.
  intros H. unfold Qcle. rewrite !this_Z2Qc. rewrite <- Zle_Qle. exact H.
Qed.

Lemma py_round_ge_1 q : (1 <= q)%Qc -> (1 <= py_round q)%Z.
Proof.
  intros H. destruct (py_round_nearest q) as [_ Hu].
  destruct (Z_le_gt_dec 1 (py_round q)) as [Ok | Lt]; [exact Ok | exfalso].
  assert (Hz : (Z2Qc (py_round q) <= Z2Qc 0)%Qc) by (apply Z2Qc_le; lia).
  assert (Hq : (q <= Z2Qc 0 + Q2Qc (1 # 2))%Qc).
  { eapply Qcle_trans; [exact Hu |]. apply Qcplus_le_compat; [exact Hz | apply Qcle_refl]. }
  assert (Hc : (1 <= Z2Qc 0 + Q2Qc (1 # 2))%Qc) by (eapply Qcle_trans; eassumption).
  revert Hc. vm_compute. intros Hc. apply Hc. reflexivity.
Qed.

Lemma steps_of_bounds col lo hi d :
  steps_of col lo hi d -> (0 < d)%Qc /\ (d <= hi - lo)%Qc.
Proof.
  intros (a1 & a0 & H1 & H0 & -> & Asc & Len & Hd & Lst).
  assert (a0 = lo) as ->.
  { rewrite head_lookup in Hd. congruence. }
  assert (Lt : (lo < a1)%Qc) by (eapply (strictly_ascending_lookup _ Asc 0 1); eauto).
  assert (Le : (a1 <= hi)%Qc).
  { rewrite last_lookup in Lst.
    destruct (decide (1 = pred (length (axis col)))) as [E | NE].
    - rewrite <- E in Lst. replace hi with a1 by congruence. apply Qcle_refl.
    - apply Qclt_le_weak.
      eapply (strictly_ascending_lookup _ Asc 1 (pred (length (axis col)))); eauto. lia. }
  split.
  - apply Qclt_minus_iff in Lt. exact Lt.
  - unfold Qcminus. apply Qcplus_le_compat; [exact Le | apply Qcle_refl].
Qed.

(** every direction gets two nodes or more *)
Lemma dimension_two col lo hi d : steps_of col lo hi d -> (2 <= dimension lo hi d)%Z.
Proof.
  intros H. apply steps_of_bounds in H as [Pos Le].
  unfold dimension.
  assert (1 <= py_round ((hi - lo) / d)%Qc)%Z; [| lia].
  apply py_round_ge_1.
  apply (Qcmult_lt_0_le_reg_r _ _ d Pos).
  rewrite Qcmult_1_l, Qcmult_comm, Qcmult_div_r; [exact Le |].
  intros ->. apply Qclt_not_le in Pos. apply Pos, Qcle_refl.
Qed.

Lemma np_dim_ok z : (0 <= z)%Z -> np_dim z = inr (Z.to_nat z).
Proof.
  intros H. unfold np_dim.
  replace (z <? 0)%Z with false by (symmetry; apply Z.ltb_ge; exact H). reflexivity.
Qed.

Lemma set_vector_outcome a ix iy iz n v :
  n3 (shape a) = 3 ->
  match set_vector a ix iy iz n v with
  | inl e => e = IndexError
  | inr a' =>
      exists i j k,
        np_index (n0 (shape a)) ix = inr i /\ np_index (n1 (shape a)) iy = inr j
        /\ np_index (n2 (shape a)) iz = inr k /\ n < n4 (shape a)
        /\ shape a' = shape a
        /\ forall i' j' k' c n',
             item a' i' j' k' c n'
             = if (i' =? i) && (j' =? j) && (k' =? k) && (n' =? n)
               then component c v else item a i' j' k' c n'
  end.
Proof.
  intros H3. unfold set_vector.
  destruct (np_index (n0 (shape a)) ix) as [e | i] eqn:Hi; cbn -[Nat.ltb Nat.eqb].
  { eapply np_index_err; eassumption. }
  destruct (np_index (n1 (shape a)) iy) as [e | j] eqn:Hj; cbn -[Nat.ltb Nat.eqb].
  { eapply np_index_err; eassumption. }
  destruct (np_index (n2 (shape a)) iz) as [e | k] eqn:Hk; cbn -[Nat.ltb Nat.eqb].
  { eapply np_index_err; eassumption. }
  destruct (n <? n4 (shape a)) eqn:Hn; cbn -[Nat.ltb Nat.eqb]; [| reflexivity].
  rewrite H3. cbn.
  exists i, j, k. apply Nat.ltb_lt in Hn. repeat split; try reflexivity. exact Hn.
Qed.

Lemma node_of_inr g sh p i j k :
  np_index (n0 sh) (nearest_index p.1.1 (lo_x g) (delta_x g)) = inr i ->
  np_index (n1 sh) (nearest_index p.1.2 (lo_y g) (delta_y g)) = inr j ->
  np_index (n2 sh) (nearest_index p.2 (lo_z g) (delta_z g)) = inr k ->
  node_of g sh p = inr (i, j, k).
Proof. intros Hi Hj Hk. unfold node_of. rewrite Hi, Hj, Hk. reflexivity. Qed.

Lemma same_node (r : nat * nat * nat) i j k :
  (r.1.1 =? i) && (r.1.2 =? j) && (r.2 =? k) = true <-> r = (i, j, k).
Proof.
  destruct r as [[a b] c]. cbn. rewrite !andb_true_iff, !Nat.eqb_eq.
  split; [intros [[-> ->] ->]; reflexivity | intros [= -> -> ->]; auto].
Qed.

Section Loader_loops.
Variables (data : calibration_data) (g : sampling) (sh : Shape).
Hypothesis Hsh3 : n3 sh = 3.

(** one pass of the inner loop *)
Lemma place_step n T0 i T :
  inner_inv data g sh n T0 i T ->
  match
    c ← index (sampled_points data) i;
    fn ← index (field_measurements data) n;
    v ← index fn i;
    set_vector T (nearest_index c.1.1 (lo_x g) (delta_x g))
      (nearest_index c.1.2 (lo_y g) (delta_y g))
      (nearest_index c.2 (lo_z g) (delta_z g)) n v
  with
  | inr T' => inner_inv data g sh n T0 (S i) T'
  | inl e => e = IndexError
  end.
Proof.
  intros (Hs & Hoth & Hlast & Hnone).
  destruct (sampled_points data !! i) as [c |] eqn:Hc.
  2:{ unfold index. rewrite Hc. reflexivity. }
  rewrite (index_ok _ _ _ Hc). cbn -[index set_vector nearest_index].
  destruct (field_measurements data !! n) as [fn |] eqn:Hfn.
  2:{ unfold index. rewrite Hfn. reflexivity. }
  rewrite (index_ok _ _ _ Hfn). cbn -[index set_vector nearest_index].
  destruct (fn !! i) as [v |] eqn:Hv.
  2:{ unfold index. rewrite Hv. reflexivity. }
  rewrite (index_ok _ _ _ Hv). cbn -[index set_vector nearest_index].
  match goal with |- match ?m with _ => _ end =>
    pose proof (set_vector_outcome T (nearest_index c.1.1 (lo_x g) (delta_x g))
                  (nearest_index c.1.2 (lo_y g) (delta_y g))
                  (nearest_index c.2 (lo_z g) (delta_z g)) n v) as Hset;
    destruct m as [e | T']
  end.
  { apply Hset. rewrite Hs. exact Hsh3. }
  destruct Hset as (a & b & k & Ha & Hb & Hk & Hn & Hs' & Hit); [rewrite Hs; exact Hsh3 |].
  rewrite Hs in Ha, Hb, Hk.
  pose proof (node_of_inr g sh c a b k Ha Hb Hk) as Hnode.
  assert (Hm : measurement data n i = Some v).
  { unfold measurement. rewrite Hfn. exact Hv. }
  split; [congruence |]. split; [| split].
  - intros n' i' j' k' c' Hne. rewrite Hit.
    replace (n' =? n) with false by (symmetry; apply Nat.eqb_neq; exact Hne).
    rewrite andb_false_r. apply Hoth. exact Hne.
  - intros i' r v' comp (Hlt & (p & Hp & Hr) & Hlater) Hm'. rewrite Hit.
    destruct (decide (i' = i)) as [-> | Hne].
    + assert (p = c) as -> by congruence. assert (v' = v) as -> by congruence.
      assert (r = (a, b, k)) as -> by congruence.
      cbn [fst snd]. rewrite !Nat.eqb_refl. reflexivity.
    + assert (Hr' : (r.1.1 =? a) && (r.1.2 =? b) && (r.2 =? k) = false).
      { apply not_true_is_false. intros E. apply same_node in E. subst r.
        apply (Hlater i c); [lia | exact Hc | exact Hnode]. }
      rewrite Hr'. cbn [andb]. apply (Hlast i' r v' comp); [| exact Hm'].
      split; [lia |]. split; [exists p; split; assumption |].
      intros j q Hj. apply Hlater. lia.
  - intros r comp Hno. rewrite Hit.
    assert (Hr' : (r.1.1 =? a) && (r.1.2 =? b) && (r.2 =? k) = false).
    { apply not_true_is_false. intros E. apply same_node in E. subst r.
      apply (Hno i c); [lia | exact Hc | exact Hnode]. }
    rewrite Hr'. cbn [andb]. apply Hnone.
    intros j q Hj. apply Hno. lia.
Qed.

Lemma inner_start n T0 : shape T0 = sh -> inner_inv data g sh n T0 0 T0.
Proof.
  intros Hs. split; [exact Hs |]. split; [reflexivity |]. split.
  - intros i r v comp (Hlt & _). lia.
  - reflexivity.
Qed.

(** the inner loop for one coil *)
Lemma place_coil n m T0 :
  shape T0 = sh ->
  match
    for_each 0 m (fun i Bs_ =>
      c ← index (sampled_points data) i;
      fn ← index (field_measurements data) n;
      v ← index fn i;
      set_vector Bs_ (nearest_index c.1.1 (lo_x g) (delta_x g))
        (nearest_index c.1.2 (lo_y g) (delta_y g))
        (nearest_index c.2 (lo_z g) (delta_z g)) n v) T0
  with
  | inr T => inner_inv data g sh n T0 m T
  | inl e => e = IndexError
  end.
Proof.
  intros Hs.
  apply (for_each_outcome (inner_inv data g sh n T0) (fun e => e = IndexError)).
  - apply inner_start. exact Hs.
  - intros i T _ Hinv. apply place_step. exact Hinv.
Qed.

(** one pass of the outer loop *)
Lemma coil_pass n T :
  outer_inv data g sh n T ->
  match
    f0 ← index (field_measurements data) 0;
    for_each 0 (length f0) (fun i Bs_ =>
      c ← index (sampled_points data) i;
      fn ← index (field_measurements data) n;
      v ← index fn i;
      set_vector Bs_ (nearest_index c.1.1 (lo_x g) (delta_x g))
        (nearest_index c.1.2 (lo_y g) (delta_y g))
        (nearest_index c.2 (lo_z g) (delta_z g)) n v) T
  with
  | inr T' => outer_inv data g sh (S n) T'
  | inl e => e = IndexError
  end.
Proof.
  intros (Hs & Hdone & Hrest).
  destruct (field_measurements data !! 0) as [f0 |] eqn:Hf0.
  2:{ unfold index. rewrite Hf0. reflexivity. }
  rewrite (index_ok _ _ _ Hf0). cbn -[index set_vector nearest_index for_each].
  assert (Hm : npoints data = length f0) by (unfold npoints; rewrite Hf0; reflexivity).
  pose proof (place_coil n (length f0) T Hs) as Hin.
  match goal with |- match ?m with _ => _ end => destruct m as [e | T'] end;
    [exact Hin |].
  destruct Hin as (Hs' & Hoth & Hlast & Hnone).
  split; [exact Hs' |]. split.
  - intros n' Hn'. rewrite Hm.
    destruct (decide (n' = n)) as [-> | Hne].
    + split; [exact Hlast |].
      intros r comp Hno. rewrite (Hnone r comp Hno). apply Hrest. lia.
    + destruct (Hdone n' ltac:(lia)) as [Hl Hn0]. rewrite Hm in Hl, Hn0. split.
      * intros i r v comp Hla Hme. rewrite Hoth by exact Hne. eapply Hl; eassumption.
      * intros r comp Hno. rewrite Hoth by exact Hne. apply Hn0. exact Hno.
  - intros n' i j k c Hn'. rewrite Hoth by lia. apply Hrest. lia.
Qed.

Lemma outer_start : outer_inv data g sh 0 (np_zeros sh).
Proof.
  split; [reflexivity |]. split; [intros n Hn; lia |]. reflexivity.
Qed.

Lemma place_all N :
  match
    for_each 0 N (fun ncoil Bs_ =>
      f0 ← index (field_measurements data) 0;
      for_each 0 (length f0) (fun i Bs_ =>
        c ← index (sampled_points data) i;
        fn ← index (field_measurements data) ncoil;
        v ← index fn i;
        set_vector Bs_ (nearest_index c.1.1 (lo_x g) (delta_x g))
          (nearest_index c.1.2 (lo_y g) (delta_y g))
          (nearest_index c.2 (lo_z g) (delta_z g)) ncoil v) Bs_) (np_zeros sh)
  with
  | inr T => outer_inv data g sh N T
  | inl e => e = IndexError
  end.
Proof.
  apply (for_each_outcome (outer_inv data g sh) (fun e => e = IndexError)).
  - apply outer_start.
  - intros n T _ Hinv. apply coil_pass. exact Hinv.
Qed.

End Loader_loops.

(** what the loader returns, and how it fails *)
Lemma loader_outcome data N :
  match get_magfield_data_sampled data N with
  | inl e => e = IndexError
  | inr (B, cs, (Nx, Ny, Nz)) =>
      exists g T,
        sampling_steps (sampled_points data) = inr g
        /\ cs = sampled_points data
        /\ Z.of_nat Nx = dimension (lo_x g) (hi_x g) (delta_x g)
        /\ Z.of_nat Ny = dimension (lo_y g) (hi_y g) (delta_y g)
        /\ Z.of_nat Nz = dimension (lo_z g) (hi_z g) (delta_z g)
        /\ B = np_divide T (calibration_current data)
        /\ outer_inv data g (mkShape Nx Ny Nz 3 N) N T
  end.
Proof.
  unfold get_magfield_data_sampled.
  destruct (sampling_steps (sampled_points data)) as [e | g] eqn:Hg; cbn.
  { eapply sampling_steps_error; eassumption. }
  destruct (sampling_steps_inv _ _ Hg) as (Sx & Sy & Sz).
  apply dimension_two in Sx, Sy, Sz. unfold dimension in Sx, Sy, Sz.
  rewrite !np_dim_ok by lia. cbn.
  match goal with |- context [for_each 0 N ?b (np_zeros ?s)] =>
    pose proof (place_all data g s eq_refl N) as Hall
  end.
  cbv beta in Hall.
  match type of Hall with match ?m with _ => _ end => destruct m as [e | T] end;
    cbn; [exact Hall |].
  exists g, T. unfold dimension.
  split; [reflexivity |]. split; [reflexivity |].
  split; [rewrite Z2Nat.id; lia |]. split; [rewrite Z2Nat.id; lia |].
  split; [rewrite Z2Nat.id; lia |]. split; [reflexivity | exact Hall].
Qed.

Lemma loaded_inr (r : Exc (ndarray * list (Qc * Qc * Qc) * (nat * nat * nat))) :
  match r with inr _ => true | inl _ => false end = true -> r = inr (loaded r).
Proof. destruct r; [discriminate | reflexivity]. Qed.

Lemma cal_dup_loaded :
  get_magfield_data_sampled cal_dup 1 = inr (B_dup, pts_dup, (2, 2, 2)).
Proof.
  rewrite (loaded_inr (get_magfield_data_sampled cal_dup 1)) by (vm_compute; reflexivity).
  assert (E2 : (loaded (get_magfield_data_sampled cal_dup 1)).1.2 = pts_dup)
    by (vm_compute; reflexivity).
  assert (E3 : (loaded (get_magfield_data_sampled cal_dup 1)).2 = (2, 2, 2))
    by (vm_compute; reflexivity).
  unfold B_dup. revert E2 E3.
  destruct (loaded (get_magfield_data_sampled cal_dup 1)) as [[B cs] d].
  cbn [fst snd]. intros -> ->. reflexivity.
Qed.

Lemma loader_inv data N B cs Nx Ny Nz :
  get_magfield_data_sampled data N = inr (B, cs, (Nx, Ny, Nz)) ->
  exists g T,
    sampling_steps (sampled_points data) = inr g
    /\ cs = sampled_points data
    /\ Z.of_nat Nx = dimension (lo_x g) (hi_x g) (delta_x g)
    /\ Z.of_nat Ny = dimension (lo_y g) (hi_y g) (delta_y g)
    /\ Z.of_nat Nz = dimension (lo_z g) (hi_z g) (delta_z g)
    /\ B = np_divide T (calibration_current data)
    /\ outer_inv data g (mkShape Nx Ny Nz 3 N) N T.
Proof.
  intros H. pose proof (loader_outcome data N) as Ho. rewrite H in Ho. exact Ho.
Qed.

Lemma loader_shape data N B cs Nx Ny Nz :
  get_magfield_data_sampled data N = inr (B, cs, (Nx, Ny, Nz)) ->
  shape B = mkShape Nx Ny Nz 3 N.
Proof.
  intros H. apply loader_inv in H as (g & T & _ & _ & _ & _ & _ & -> & Hs & _).
  exact Hs.
Qed.

Lemma loader_axes data N B cs Nx Ny Nz :
  get_magfield_data_sampled data N = inr (B, cs, (Nx, Ny, Nz)) ->
  2 <= length (axis (xcol cs)) /\ 2 <= length (axis (ycol cs))
  /\ 2 <= length (axis (zcol cs)).
Proof.
  intros H. apply loader_inv in H as (g & T & Hg & -> & _).
  destruct (sampling_steps_inv _ _ Hg) as (Sx & Sy & Sz).
  destruct Sx as (? & ? & _ & _ & _ & _ & Lx & _).
  destruct Sy as (? & ? & _ & _ & _ & _ & Ly & _).
  destruct Sz as (? & ? & _ & _ & _ & _ & Lz & _).
  auto.
Qed.

Lemma used_coordinates_other pu cs : pu <> "mm" -> used_coordinates pu cs = cs.
Proof. intros H. unfold used_coordinates. destruct (decide (pu = "mm")); congruence. Qed.

Lemma steps_inr (r : Exc sampling) :
  match r with inr _ => true | inl _ => false end = true -> r = inr (steps r).
Proof. destruct r; [discriminate | reflexivity]. Qed.

Lemma steps_dup_run : sampling_steps (sampled_points cal_dup) = inr steps_dup.
Proof. apply steps_inr. vm_compute. reflexivity. Qed.

Lemma cal_gap_loaded :
  get_magfield_data_sampled cal_gap 1 = inr (B_gap, pts_gap, (4, 2, 2)).
Proof.
  rewrite (loaded_inr (get_magfield_data_sampled cal_gap 1)) by (vm_compute; reflexivity).
  assert (E2 : (loaded (get_magfield_data_sampled cal_gap 1)).1.2 = pts_gap)
    by (vm_compute; reflexivity).
  assert (E3 : (loaded (get_magfield_data_sampled cal_gap 1)).2 = (4, 2, 2))
    by (vm_compute; reflexivity).
  unfold B_gap. revert E2 E3.
  destruct (loaded (get_magfield_data_sampled cal_gap 1)) as [[B cs] d].
  cbn [fst snd]. intros -> ->. reflexivity.
Qed.

(** ** The getters *)

(** where a permutation leaves the object and the heap, whatever its outcome *)
Lemma permutate_coils_frame w coilvec :
  wf w ->
  axes (self (snd (permutate_coils coilvec w))) = axes (self w)
  /\ (forall l a, heap w !! l = Some a -> heap (snd (permutate_coils coilvec w)) !! l = Some a)
  /\ (fst (permutate_coils coilvec w) = inr tt ->
      Bs (self (snd (permutate_coils coilvec w))) = length (heap w)).
Proof.
  intros Hwf. destruct (wf_Bs _ Hwf) as (B & HB & _).
  destruct (permutate_coils_run w B coilvec Hwf HB)
    as [(T & X & Y & Z & E & _) | (T & idx & _ & _ & E)]; rewrite E; cbn [fst snd self heap].
  - split; [reflexivity |]. split; [| reflexivity].
    intros l a Hl. apply lookup_app_l_Some. exact Hl.
  - split; [reflexivity |]. split; [| discriminate].
    intros l a Hl. apply lookup_app_l_Some. exact Hl.
Qed.

Lemma getCoords_run w : getCoords w = (inr (axes (self w)), w).
Proof. reflexivity. Qed.

(** ** True division below 2^53 *)

Section True_division.
Local Open Scope Z_scope.

Lemma round_half_even_bounds N D :
  (0 < D)%Z ->
  (N / D <= round_half_even N D <= N / D + 1)%Z
  /\ (round_half_even N D = N / D + 1 -> D <= 2 * (N mod D))%Z.
Proof.
  intros HD. unfold round_half_even.
  destruct (Z.ltb_spec (2 * (N mod D)) D) as [Lt | Ge]; [lia |].
  destruct (Z.ltb_spec D (2 * (N mod D))) as [Gt | Le]; [lia |].
  destruct (Z.even (N / D)); lia.
Qed.

(** [2 ^ l <= p / q] for the exponent [l = ilog2_quot p q] *)
Lemma ilog2_quot_lower p q :
  (0 < p)%Z -> (0 < q)%Z ->
  (q * 2 ^ Z.max (ilog2_quot p q) 0 <= p * 2 ^ Z.max (- ilog2_quot p q) 0)%Z.
Proof.
  intros Hp Hq. unfold ilog2_quot.
  set (d := (Z.log2 p - Z.log2 q)%Z).
  destruct (Z.leb_spec (q * 2 ^ Z.max d 0) (p * 2 ^ Z.max (- d) 0)) as [Le | Gt];
    [exact Le |].
  destruct (Z.log2_spec p Hp) as [Lp Up]. destruct (Z.log2_spec q Hq) as [Lq Uq].
  pose proof (Z.log2_nonneg p) as Np. pose proof (Z.log2_nonneg q) as Nq.
  destruct (Z_le_gt_dec 1 d) as [Pos | Neg].
  - rewrite (Z.max_l (d - 1) 0), (Z.max_r (- (d - 1)) 0) by lia.
    rewrite Z.pow_0_r, Z.mul_1_r.
    assert (E : (2 ^ Z.log2 p = 2 ^ Z.succ (Z.log2 q) * 2 ^ (d - 1))%Z).
    { rewrite <- Z.pow_add_r by lia. f_equal. unfold d. lia. }
    assert (0 < 2 ^ (d - 1))%Z by (apply Z.pow_pos_nonneg; lia).
    nia.
  - rewrite (Z.max_r (d - 1) 0), (Z.max_l (- (d - 1)) 0) by lia.
    rewrite Z.pow_0_r, Z.mul_1_r.
    assert (E : (2 ^ Z.succ (Z.log2 q) = 2 ^ Z.log2 p * 2 ^ (- (d - 1)))%Z).
    { rewrite <- Z.pow_add_r by lia. f_equal. unfold d. lia. }
    assert (0 < 2 ^ (- (d - 1)))%Z by (apply Z.pow_pos_nonneg; lia).
    nia.
Qed.

Lemma ilog2_quot_range p q :
  (0 < p < 2 ^ 53)%Z -> (0 < q < 2 ^ 53)%Z -> (-53 <= ilog2_quot p q <= 52)%Z.
Proof.
  intros Hp Hq.
  assert (Lp : (Z.log2 p < 53)%Z) by (apply Z.log2_lt_pow2; lia).
  assert (Lq : (Z.log2 q < 53)%Z) by (apply Z.log2_lt_pow2; lia).
  pose proof (Z.log2_nonneg p). pose proof (Z.log2_nonneg q).
  unfold ilog2_quot. destruct (_ <=? _)%Z; lia.
Qed.

(** the nearest multiple of [1 / s] to [a / b] has the integer part of [a / b]
    when [b < 2 s] *)
Lemma floor_of_rounded a b s :
  (0 <= a)%Z -> (0 < b)%Z -> (0 < s)%Z -> (b < 2 * s)%Z ->
  (round_half_even (a * s) b / s = a / b)%Z.
Proof.
  intros Ha Hb Hs Hbs.
  destruct (round_half_even_bounds (a * s) b Hb) as [[Lo Hi] Up].
  pose proof (Z.div_mod a b ltac:(lia)) as Da.
  pose proof (Z.mod_pos_bound a b Hb) as Ra.
  pose proof (Z.div_mod (a * s) b ltac:(lia)) as Ds.
  pose proof (Z.mod_pos_bound (a * s) b Hb) as Rs.
  set (Q := (a / b)%Z) in *. set (r := (a mod b)%Z) in *.
  set (F := ((a * s) / b)%Z) in *. set (u := ((a * s) mod b)%Z) in *.
  set (m := round_half_even (a * s) b) in *.
  assert (HF1 : (Q * s <= F)%Z) by nia.
  assert (HF2 : (F < (Q + 1) * s)%Z) by nia.
  assert (Hm : (Q * s <= m < (Q + 1) * s)%Z).
  { split; [lia |].
    destruct (Z.eq_dec m (F + 1)%Z) as [E | NE]; [| lia].
    specialize (Up E).
    destruct (Z.eq_dec F ((Q + 1) * s - 1)%Z) as [EF | NF]; [| lia].
    exfalso. nia. }
  symmetry. apply Z.div_unique with (r := (m - Q * s)%Z); [lia | ring].
Qed.

(** below 2^53, the floor of the true quotient is the integer quotient *)
Lemma floor_truediv a b :
  (0 <= a < 2 ^ 53)%Z -> (0 < b < 2 ^ 53)%Z ->
  exists x, int_truediv a b = inr x /\ math_floor x = (a / b)%Z.
Proof.
  intros Ha Hb. unfold int_truediv.
  destruct (Z.eqb_spec b 0) as [E | _]; [lia |].
  destruct (Z.eqb_spec a 0) as [-> | Na].
  { eexists. split; [reflexivity |]. reflexivity. }
  rewrite (Z.abs_eq a), (Z.abs_eq b) by lia.
  pose proof (ilog2_quot_lower a b ltac:(lia) ltac:(lia)) as Low.
  pose proof (ilog2_quot_range a b ltac:(lia) ltac:(lia)) as Rng.
  set (l := ilog2_quot a b) in *.
  rewrite (Z.max_l (l - 52) (-1074)) by lia.
  replace (Z.sgn a * Z.sgn b)%Z with 1%Z
    by (rewrite (Z.sgn_pos a), (Z.sgn_pos b) by lia; reflexivity).
  destruct (Z.eq_dec l 52) as [E52 | N52].
  - (* the quotient is 2^52 or more: the divisor is 1 *)
    replace (l - 52) with 0 by lia.
    change (Z.max 0 0) with 0. change (Z.max (- 0) 0) with 0.
    assert (Hmax1 : Z.max l 0 = 52) by lia.
    assert (Hmax2 : Z.max (- l) 0 = 0) by lia.
    rewrite Hmax1, Hmax2 in Low. rewrite Z.pow_0_r, Z.mul_1_r in Low.
    assert (b = 1)%Z as -> by nia.
    change (2 ^ 0)%Z with 1%Z. rewrite !Z.mul_1_r.
    assert (Hr : round_half_even a 1 = a).
    { unfold round_half_even. rewrite Z.mod_1_r, Z.div_1_r. reflexivity. }
    rewrite Hr.
    destruct (Z.leb_spec (2 ^ 1024) a) as [Big | _].
    { exfalso. assert (2 ^ 53 < 2 ^ 1024)%Z by reflexivity. lia. }
    eexists. split; [reflexivity |].
    unfold math_floor. cbn [expo mant]. change (0 <=? 0)%Z with true. cbn beta iota.
    rewrite Z.mul_1_l, Z.div_1_r. change (2 ^ 0)%Z with 1%Z. lia.
  - rewrite (Z.max_r (l - 52) 0), (Z.max_l (- (l - 52)) 0) by lia.
    change (2 ^ 0)%Z with 1%Z. rewrite !Z.mul_1_r.
    set (s := (2 ^ (- (l - 52)))%Z).
    assert (Hs : (0 < s)%Z) by (apply Z.pow_pos_nonneg; lia).
    assert (Hbs : (b < 2 * s)%Z).
    { assert (b * 2 ^ 52 <= a * s)%Z; [| nia].
      destruct (Z_le_gt_dec 0 l) as [Pos | Neg].
      - rewrite (Z.max_l l 0), (Z.max_r (- l) 0) in Low by lia.
        rewrite Z.pow_0_r, Z.mul_1_r in Low.
        assert (E : (2 ^ 52 = 2 ^ l * s)%Z).
        { unfold s. rewrite <- Z.pow_add_r by lia. f_equal. lia. }
        rewrite E. nia.
      - rewrite (Z.max_r l 0), (Z.max_l (- l) 0) in Low by lia.
        rewrite Z.pow_0_r, Z.mul_1_r in Low.
        assert (E : (s = 2 ^ (- l) * 2 ^ 52)%Z).
        { unfold s. rewrite <- Z.pow_add_r by lia. f_equal. lia. }
        rewrite E. nia. }
    pose proof (floor_of_rounded a b s ltac:(lia) ltac:(lia) Hs Hbs) as Hfl.
    set (m := round_half_even (a * s) b) in *.
    assert (Hm : (m < 2 ^ 1024)%Z).
    { destruct (round_half_even_bounds (a * s) b ltac:(lia)) as [[_ Hi] _]. fold m in Hi.
      assert (a * s / b <= a * s)%Z by (apply Z.div_le_upper_bound; nia).
      assert (s <= 2 ^ 105)%Z by (unfold s; apply Z.pow_le_mono_r; lia).
      assert (2 ^ 53 * 2 ^ 105 + 1 < 2 ^ 1024)%Z by reflexivity.
      nia. }
    destruct (Z.leb_spec (2 ^ 1024) m) as [Big | _]; [lia |].
    eexists. split; [reflexivity |].
    unfold math_floor. cbn [expo mant].
    destruct (Z.leb_spec 0 (l - 52)) as [Pos | _]; [lia |].
    rewrite Z.mul_1_l. exact Hfl.
Qed.

End True_division.

(** what [_linidx2volidx] returns below 2^53 *)
Lemma linidx2volidx_small Nx Ny n :
  (0 < Nx)%Z -> (0 < Ny)%Z -> (Nx * Ny < 2 ^ 53)%Z -> (0 <= n < 2 ^ 53)%Z ->
  _linidx2volidx Nx Ny n
  = inr ((n mod Nx)%Z, ((n mod (Nx * Ny)) / Nx)%Z, (n / (Nx * Ny))%Z).
Proof.
  intros Hx Hy Hxy Hn. unfold _linidx2volidx, int_mod.
  destruct (Z.eqb_spec Nx 0) as [E | _]; [lia |].
  destruct (Z.eqb_spec (Nx * Ny) 0) as [E | _]; [nia |].
  cbn [mbind Arith_bind].
  assert (Pxy : (0 < Nx * Ny)%Z) by nia.
  pose proof (Z.mod_pos_bound n (Nx * Ny) Pxy) as Hr.
  destruct (floor_truediv (n mod (Nx * Ny)) Nx ltac:(lia) ltac:(nia)) as (y & -> & Hy').
  cbn [mbind Arith_bind].
  destruct (floor_truediv n (Nx * Ny) ltac:(lia) ltac:(lia)) as (z & -> & Hz').
  cbn [mbind Arith_bind mret Arith_ret]. rewrite Hy', Hz'. reflexivity.
Qed.

(** beyond 2^53 the last index can be off by one *)
Lemma linidx2volidx_large :
  _linidx2volidx 3 3 (10 ^ 17 + 1) = inr (2, 0, 11111111111111112)%Z
  /\ ((10 ^ 17 + 1) / (3 * 3) = 11111111111111111)%Z.
Proof. split; vm_compute; reflexivity. Qed.

(** ** Queries at a position of either kind *)

Lemma ncols_to_matrix_3 c f : ncols (to_matrix 3 c f) = c.
Proof. unfold to_matrix. cbn. rewrite length_map, length_seq. reflexivity. Qed.

Lemma of_matrix_to_matrix c f :
  of_matrix (to_matrix 3 c f) = mkArray [3; c] (concat (to_matrix 3 c f)).
Proof. unfold of_matrix. rewrite to_matrix_length, ncols_to_matrix_3. reflexivity. Qed.

(** a call of a bound interpolator inside the box, on a position of either kind *)
Lemma call_at_in_box w oi pos :
  wf w -> bound w oi -> in_box (self w) (point pos) ->
  exists itp A,
    oi = Some itp
    /\ RegularGridInterpolator_call itp (point pos) w = (inr A, w)
    /\ of_matrix A = mkArray [3; Ncoils (self w)] (concat A)
    /\ length A = 3 /\ Forall (fun row => length row = Ncoils (self w)) A
    /\ (forall m, length m = 3 -> dot m A = inr (contract m A (Ncoils (self w))))
    /\ call_at itp pos w
       = (inr (match pos with
               | as_tuple _ => mkArray [3; Ncoils (self w)] (concat A)
               | as_array _ => mkArray [1; 3; Ncoils (self w)] (concat A)
               end), w).
Proof.
  intros Hwf Hb Hbox.
  destruct (bound_call_in_box w oi (point pos) Hwf Hb Hbox)
    as (itp & V & i & j & k & tx & ty & tz & Hoi & E).
  eexists itp, _. split; [exact Hoi |]. split; [exact E |].
  split; [apply of_matrix_to_matrix |].
  split; [apply to_matrix_length |]. split; [apply to_matrix_rows |].
  split; [intros m Hm; apply dot_to_matrix; exact Hm |].
  unfold call_at. rewrite (run_bind_ok _ _ w _ w E).
  rewrite of_matrix_to_matrix. destruct pos; reflexivity.
Qed.

Lemma wf_Bact_bound w : wf w -> bound w (BactInterpolator (self w)).
Proof.
  intros Hwf. destruct (wf_Bact _ Hwf) as (i & Hi & Hg & Hv).
  destruct (wf_Bs _ Hwf) as (B & HB & Hs).
  exists i, B. rewrite Hv. auto.
Qed.

(** [m.dot(B)] on a value under one leading axis has one leading axis, or fails *)
Lemma array_dot_lead m n l :
  array_dot m (mkArray [1; 3; n] l) = inl ValueError
  \/ exists l', array_dot m (mkArray [1; 3; n] l) = inr (mkArray [1; n] l').
Proof.
  unfold array_dot. cbn [dims rev app].
  destruct (length m =? 3); [right | left; reflexivity].
  eexists. reflexivity.
Qed.

(** a value under a leading axis and a row do not stack *)
Lemma array_vstack_ranks n l0 l1 l2 l3 :
  array_vstack [mkArray [1; 3; n] l0; mkArray [1; n] l1; mkArray [1; n] l2; mkArray [1; n] l3]
  = inl ValueError.
Proof. reflexivity. Qed.

(** the entries of a matrix with rows of one length, cut into rows again *)
Lemma rows_of_concat (A : matrix) n :
  Forall (fun row => length row = n) A -> rows_of (length A) n (concat A) = A.
Proof.
  unfold rows_of. induction 1 as [|r A Hr HA IH]; [reflexivity |].
  cbn [length seq map concat]. f_equal.
  - rewrite Nat.mul_0_l, drop_0. rewrite take_app_length' by (symmetry; exact Hr). reflexivity.
  - rewrite <- seq_shift, map_map. rewrite <- IH at 2.
    apply map_ext. intros i. f_equal.
    replace (S i * n) with (length r + i * n) by (rewrite Hr; lia).
    rewrite <- drop_drop, drop_app_length. reflexivity.
Qed.

Lemma contract_rows_dot m A :
  length m = length A -> dot m A = inr (contract_rows m A (ncols A)).
Proof. intros H. unfold dot, contract_rows. rewrite H, Nat.eqb_refl. reflexivity. Qed.

(** [m.dot(B)] on a matrix of three rows is the contraction of [dot] *)
Lemma array_dot_matrix m (A : matrix) n r :
  length m = 3 -> length A = 3 -> Forall (fun row => length row = n) A ->
  dot m A = inr r ->
  array_dot m (mkArray [3; n] (concat A)) = inr (mkArray [n] r).
Proof.
  intros Hm HA Hrows Hdot.
  assert (Hn : ncols A = n).
  { destruct A as [|row A]; [discriminate |]. cbn. inversion Hrows; assumption. }
  rewrite contract_rows_dot in Hdot by congruence. injection Hdot as <-.
  unfold array_dot. cbn [dims rev app foldr seq flat_map]. rewrite Hm. cbn [Nat.eqb].
  assert (Hlen : length (concat A) = 3 * n).
  { rewrite <- HA. clear -Hrows. induction Hrows as [|row A Hr _ IH]; [reflexivity |].
    cbn [concat length]. rewrite length_app, IH, Hr. lia. }
  rewrite Nat.mul_0_l, drop_0.
  rewrite <- Hlen, firstn_all. rewrite <- HA at 1. rewrite rows_of_concat by exact Hrows.
  rewrite app_nil_r, Hn. reflexivity.
Qed.

Lemma run_lift_err {A B} (e : exn) (f : A -> M B) w :
  (lift (inl e) ≫= f) w = (inl e, w).
Proof. apply run_bind_err. reflexivity. Qed.

Lemma run_lift_ok {A B} (a : A) (f : A -> M B) w :
  (lift (inr a) ≫= f) w = f a w.
Proof. apply run_bind_ok. reflexivity. Qed.

(** what the three derivative calls and the field call return inside the box *)
Lemma queries_at_in_box w pos :
  wf w -> in_box (self w) (point pos) ->
  exists Ax Ay Az Ab,
    let lead (A : matrix) :=
      match pos with
      | as_tuple _ => mkArray [3; Ncoils (self w)] (concat A)
      | as_array _ => mkArray [1; 3; Ncoils (self w)] (concat A)
      end in
    getDerMatrices (point pos) w = (inr (Ax, Ay, Az), w)
    /\ getBact (point pos) w = (inr Ab, w)
    /\ getDerMatrices_at pos w = (inr (lead Ax, lead Ay, lead Az), w)
    /\ getBact_at pos w = (inr (lead Ab), w)
    /\ Forall (fun A => length A = 3 /\ Forall (fun row => length row = Ncoils (self w)) A
                        /\ forall m, length m = 3 ->
                             dot m A = inr (contract m A (Ncoils (self w))))
         [Ax; Ay; Az; Ab].
Proof.
  intros Hwf Hbox.
  destruct (call_at_in_box w _ pos Hwf (wf_BxI _ Hwf) Hbox)
    as (ix & Ax & Hix & Ex & _ & Lx & Rx & Dx & Cx).
  destruct (call_at_in_box w _ pos Hwf (wf_ByI _ Hwf) Hbox)
    as (iy & Ay & Hiy & Ey & _ & Ly & Ry & Dy & Cy).
  destruct (call_at_in_box w _ pos Hwf (wf_BzI _ Hwf) Hbox)
    as (iz & Az & Hiz & Ez & _ & Lz & Rz & Dz & Cz).
  destruct (call_at_in_box w _ pos Hwf (wf_Bact_bound w Hwf) Hbox)
    as (ib & Ab & Hib & Eb & _ & Lb & Rb & Db & Cb).
  exists Ax, Ay, Az, Ab. cbv zeta.
  split.
  { unfold getDerMatrices.
    rewrite (run_bind_ok _ _ w ix w) by (apply run_attr_opt; assumption).
    rewrite (run_bind_ok _ _ w Ax w Ex).
    rewrite (run_bind_ok _ _ w iy w) by (apply run_attr_opt; assumption).
    rewrite (run_bind_ok _ _ w Ay w Ey).
    rewrite (run_bind_ok _ _ w iz w) by (apply run_attr_opt; assumption).
    rewrite (run_bind_ok _ _ w Az w Ez). reflexivity. }
  split.
  { unfold getBact. rewrite (run_bind_ok _ _ w ib w) by (apply run_attr_opt; assumption).
    exact Eb. }
  split.
  { unfold getDerMatrices_at.
    rewrite (run_bind_ok _ _ w ix w) by (apply run_attr_opt; assumption).
    rewrite (run_bind_ok _ _ w _ w Cx).
    rewrite (run_bind_ok _ _ w iy w) by (apply run_attr_opt; assumption).
    rewrite (run_bind_ok _ _ w _ w Cy).
    rewrite (run_bind_ok _ _ w iz w) by (apply run_attr_opt; assumption).
    rewrite (run_bind_ok _ _ w _ w Cz). reflexivity. }
  split.
  { unfold getBact_at. rewrite (run_bind_ok _ _ w ib w) by (apply run_attr_opt; assumption).
    exact Cb. }
  repeat constructor; assumption.
Qed.

(** [getA] on a tuple is [getA_at] on it: the same matrix, as an array of
    shape (6, Ncoils) *)
Lemma getA_at_tuple_position w pos m :
  wf w -> in_box (self w) pos -> length m = 3 ->
  exists A,
    getA pos m w = (inr A, w)
    /\ getA_at (as_tuple pos) m w = (inr (of_matrix A), w)
    /\ dims (of_matrix A) = [6; Ncoils (self w)].
Proof.
  intros Hwf Hbox Hm.
  destruct (queries_at_in_box w (as_tuple pos) Hwf Hbox)
    as (Ax & Ay & Az & Ab & ED & EB & ED' & EB' & Hall).
  cbv zeta in *. cbn [point] in *.
  apply Forall_cons in Hall as [(Lx & Rx & Dx) Hall].
  apply Forall_cons in Hall as [(Ly & Ry & Dy) Hall].
  apply Forall_cons in Hall as [(Lz & Rz & Dz) Hall].
  apply Forall_cons in Hall as [(Lb & Rb & Db) _].
  set (N := Ncoils (self w)) in *.
  assert (Hnb : ncols Ab = N).
  { destruct Ab as [|row Ab]; [discriminate |]. cbn. inversion Rb; assumption. }
  exists (Ab ++ [contract m Ax N] ++ [contract m Ay N] ++ [contract m Az N]).
  split; [| split].
  - unfold getA. rewrite (run_bind_ok _ _ w _ w ED). rewrite (run_bind_ok _ _ w _ w EB).
    rewrite (Dx m Hm), (Dy m Hm), (Dz m Hm). rewrite !run_lift_ok.
    unfold lift, np_vstack. cbn [forallb ncols]. rewrite !contract_length, Hnb.
    rewrite !Nat.eqb_refl. cbn [andb concat]. rewrite app_nil_r. reflexivity.
  - unfold getA_at. rewrite (run_bind_ok _ _ w _ w ED'). rewrite (run_bind_ok _ _ w _ w EB').
    rewrite (array_dot_matrix m Ax N _ Hm Lx Rx (Dx m Hm)).
    rewrite (array_dot_matrix m Ay N _ Hm Ly Ry (Dy m Hm)).
    rewrite (array_dot_matrix m Az N _ Hm Lz Rz (Dz m Hm)).
    rewrite !run_lift_ok. unfold lift, array_vstack.
    cbn [map atleast_2d dims entries forallb length tail hd sum_list flat_map].
    rewrite !Nat.eqb_refl. rewrite !bool_decide_eq_true_2 by reflexivity. cbn [andb].
    unfold of_matrix. rewrite !length_app, Lb. cbn [length Nat.add].
    replace (ncols (Ab ++ [contract m Ax N] ++ [contract m Ay N] ++ [contract m Az N]))
      with N by (destruct Ab; [discriminate | exact (eq_sym Hnb)]).
    rewrite !concat_app. cbn [concat]. rewrite !app_nil_r.
    repeat rewrite <- app_assoc. reflexivity.
  - unfold of_matrix. cbn [dims]. rewrite !length_app, Lb. cbn [length Nat.add].
    f_equal. f_equal. destruct Ab; [discriminate | exact Hnb].
Qed.

(** ** The order of a set *)

#[local] Instance Qcle_antisymm : AntiSymm (=) Qcle.
Proof. intros x y. apply Qcle_antisym. Qed.

#[local] Instance Qcle_trans' : Transitive Qcle.
Proof. intros x y z. apply Qcle_trans. Qed.

(** [list(set(...))] gives the distinct values in an order that depends on
    the interpreter; the axes do not: in whatever order the values come,
    sorting gives the same list. *)
Lemma axis_order_independent col l :
  l ≡ₚ extract_unique_vals_tol col -> list_sort l = axis col.
Proof.
  intros Hp. unfold axis, list_sort.
  apply (Sorted_unique Qcle).
  - apply Sorted_merge_sort; apply _.
  - apply Sorted_merge_sort; apply _.
  - rewrite !merge_sort_Permutation. exact Hp.
Qed.

(** * The claims *)

(** C1 (the code departs from the claim). The claim: for every number of
    coils and every permutation [newOrder] of the coil indices,
    [permutate_coils] puts the old coil [newOrder[k]] at every index [k]. The
    loop of [permutate_coils] runs over [range(0,6)] whatever the number of
    coils. With three coils and the permutation [[2,1,0]] it raises
    [IndexError]; with seven coils and the permutation [[6,1,2,3,4,5,0]] it
    returns, coil 0 holds the old coil 6 as claimed, but coil 6 still holds
    the old coil 6 where the claim puts the old coil 0. *)
Theorem permutate_coils_is_written_for_six_coils :
  fst (permutate_coils [2; 1; 0]%Z sys3) = inl IndexError
  /\ is_permutation 3 [2; 1; 0]%Z
  /\ is_permutation 7 [6; 1; 2; 3; 4; 5; 0]%Z
  /\ fst (permutate_coils [6; 1; 2; 3; 4; 5; 0]%Z sys7) = inr tt
  /\ fst (Bs_item 0 0 0 0 0 sys7) = inr (Z2Qc 1)
  /\ fst (Bs_item 0 0 0 0 6 sys7) = inr (Z2Qc 7)
  /\ fst ((permutate_coils [6; 1; 2; 3; 4; 5; 0]%Z;; Bs_item 0 0 0 0 0) sys7) = inr (Z2Qc 7)
  /\ fst ((permutate_coils [6; 1; 2; 3; 4; 5; 0]%Z;; Bs_item 0 0 0 0 6) sys7) = inr (Z2Qc 7).
Proof. evals. Qed.

(** C2 (the code departs from the claim). The claim: after a permutation the
    derivative arrays and their interpolators are rebuilt, so that
    [getDerMatrices] answers from the permuted field. [permutate_coils]
    rebuilds [BactInterpolator] and the arrays [Bx], [By], [Bz], but not the
    three derivative interpolators, which [__init__] builds after the same
    call of [_compute_gradient_tensor]. On the six-coil example, after coils
    0 and 5 are exchanged, coil 0 of the field is 6 at the node (1,0,0) and
    [getBact] says so, the new array [Bx] holds 1200 there, and
    [getDerMatrices] still returns 200, the derivative of the old coil 0: it
    returns exactly what it returned before the permutation. *)
Theorem permutate_coils_leaves_derivative_interpolators :
  let cv := [5; 1; 2; 3; 4; 0]%Z in
  let p := (cm 1, cm 0, cm 0) in
  fst (permutate_coils cv sys6) = inr tt
  /\ fst ((permutate_coils cv;; Bs_item 1 0 0 0 0) sys6) = inr (Z2Qc 6)
  /\ fst ((permutate_coils cv;; Bx_item 1 0 0 0 0) sys6) = inr (Z2Qc 1200)
  /\ fst ((permutate_coils cv;; b ← getBact p; mret (b !! 0 ≫= (fun r => r !! 0))) sys6)
     = inr (Some (Z2Qc 6))
  /\ fst ((permutate_coils cv;; d ← getDerMatrices p;
           mret (d.1.1 !! 0 ≫= (fun r => r !! 0))) sys6)
     = inr (Some (Z2Qc 200))
  /\ fst ((permutate_coils cv;; getDerMatrices p) sys6) = fst (getDerMatrices p sys6).
Proof. cbv zeta. evals. Qed.

(** C3. On a field array whose three grid dimensions are at least 2,
    [_compute_gradient_tensor] returns and leaves in [Bx], [By], [Bz] three
    arrays of the shape of the field; along its direction each holds the
    forward difference at index 0, the backward difference at the last index
    and the difference of the two neighbours at every index in between, each
    divided by one grid spacing. *)
Theorem gradient_tensor_finite_differences w B :
  heap w !! Bs (self w) = Some B ->
  2 <= n0 (shape B) -> 2 <= n1 (shape B) -> 2 <= n2 (shape B) ->
  exists w' lx ly lz Gx Gy Gz,
    _compute_gradient_tensor w = (inr tt, w')
    /\ Bx (self w') = Some lx /\ heap w' !! lx = Some Gx
    /\ By (self w') = Some ly /\ heap w' !! ly = Some Gy
    /\ Bz (self w') = Some lz /\ heap w' !! lz = Some Gz
    /\ finite_differences dX (deltax (self w)) B Gx
    /\ finite_differences dY (deltay (self w)) B Gy
    /\ finite_differences dZ (deltaz (self w)) B Gz.
Proof.
  intros HB H0 H1 H2.
  destruct (compute_gradient_tensor_run w B HB H0 H1 H2)
    as (X & Y & Z & E & HX & HY & HZ & VX & VY & VZ).
  eexists _, (length (heap w)), (length (heap w) + 1), (length (heap w) + 2), X, Y, Z.
  split; [exact E |]. cbn [self heap Bx By Bz set_Bx set_By set_Bz].
  split; [reflexivity |].
  split; [rewrite lookup_app_r by lia; rewrite Nat.sub_diag; reflexivity |].
  split; [reflexivity |].
  split; [rewrite lookup_app_r by lia;
          replace (length (heap w) + 1 - length (heap w)) with 1 by lia; reflexivity |].
  split; [reflexivity |].
  split; [rewrite lookup_app_r by lia;
          replace (length (heap w) + 2 - length (heap w)) with 2 by lia; reflexivity |].
  split; [apply grad_x_differences; assumption |].
  split; [apply grad_y_differences; assumption | apply grad_z_differences; assumption].
Qed.

Lemma gradient_tensor_finite_differences_witness :
  exists w' lx ly lz Gx Gy Gz,
    _compute_gradient_tensor sys6 = (inr tt, w')
    /\ Bx (self w') = Some lx /\ heap w' !! lx = Some Gx
    /\ By (self w') = Some ly /\ heap w' !! ly = Some Gy
    /\ Bz (self w') = Some lz /\ heap w' !! lz = Some Gz
    /\ finite_differences dX (deltax (self sys6)) B6 Gx
    /\ finite_differences dY (deltay (self sys6)) B6 Gy
    /\ finite_differences dZ (deltaz (self sys6)) B6 Gz.
Proof.
  apply (gradient_tensor_finite_differences sys6 B6);
    [exact sys6_Bs | simpl; lia | simpl; lia | simpl; lia].
Defined.

(** C4 (the code departs from the claim). The claim: on a grid of three nodes
    per axis and a field linear in the coordinate, [B = k x], the derivative
    at the interior node and at the two boundary nodes is [k]. With [k = 5]
    and a spacing of 1 cm the array [Bx] holds 5 at the two boundary nodes
    and 10 at the interior node, and [getDerMatrices] returns 10 there: the
    difference over two cells is divided by the width of one. *)
Theorem linear_field_interior_derivative_is_doubled :
  __init__ (Blin, pts3) 1 "m" = inr sys_lin
  /\ (forall i j k c n, item Blin i j k c n = (Z2Qc 5 * cm (Z.of_nat i))%Qc)
  /\ xcoords (self sys_lin) = [cm 0; cm 1; cm 2]
  /\ fst (Bx_item 0 1 1 0 0 sys_lin) = inr (Z2Qc 5)
  /\ fst (Bx_item 1 1 1 0 0 sys_lin) = inr (Z2Qc 10)
  /\ fst (Bx_item 2 1 1 0 0 sys_lin) = inr (Z2Qc 5)
  /\ fst ((d ← getDerMatrices (cm 1, cm 1, cm 1); mret d.1.1) sys_lin)
     = inr [[Z2Qc 10]; [Z2Qc 10]; [Z2Qc 10]].
Proof.
  split; [exact sys_lin_init |]. split; [reflexivity |]. evals.
Qed.

(** C5, as it is stated, fails: the six entries [[0,0,0,0,0,0]] are no
    bijection, and [permutate_coils] accepts them on the six-coil example and
    overwrites coil 5 with the old coil 0. *)
Lemma permutate_coils_accepts_a_non_bijection :
  wf sys6
  /\ ~ is_permutation 6 [0; 0; 0; 0; 0; 0]%Z
  /\ fst (permutate_coils [0; 0; 0; 0; 0; 0]%Z sys6) = inr tt
  /\ fst (Bs_item 1 0 0 0 5 sys6) = inr (Z2Qc 6)
  /\ fst ((permutate_coils [0; 0; 0; 0; 0; 0]%Z;; Bs_item 1 0 0 0 5) sys6) = inr (Z2Qc 1).
Proof. split; [exact sys6_wf |]. evals. Qed.

(** C5, amended. [permutate_coils] does not check that its argument is a
    bijection. Whenever it fails on a well-formed system, the failure is an
    [IndexError] raised before any mutation: the attributes of the object are
    the ones before the call, and so is every array that was allocated. *)
Theorem permutate_coils_failure_changes_nothing w coilvec e w' :
  wf w -> permutate_coils coilvec w = (inl e, w') ->
  e = IndexError /\ self w' = self w /\ heap w `prefix_of` heap w'.
Proof.
  intros Hwf Hrun. destruct (wf_Bs _ Hwf) as (B & HB & _).
  destruct (permutate_coils_run w B coilvec Hwf HB)
    as [(T & X & Y & Z & E & _) | (T & idx & _ & _ & E)]; rewrite E in Hrun; [discriminate |].
  injection Hrun as <- <-. cbn [self heap].
  split; [reflexivity |]. split; [reflexivity |]. eexists. reflexivity.
Qed.

Lemma permutate_coils_failure_changes_nothing_witness :
  wf sys6
  /\ permutate_coils [9]%Z sys6 = (inl IndexError, snd (permutate_coils [9]%Z sys6))
  /\ self (snd (permutate_coils [9]%Z sys6)) = self sys6
  /\ heap sys6 `prefix_of` heap (snd (permutate_coils [9]%Z sys6)).
Proof.
  assert (H : permutate_coils [9]%Z sys6
              = (inl IndexError, snd (permutate_coils [9]%Z sys6))).
  { apply run_fst. by_eval. }
  split; [exact sys6_wf |]. split; [exact H |].
  exact (proj2 (permutate_coils_failure_changes_nothing sys6 [9]%Z IndexError _ sys6_wf H)).
Defined.

(** C6. On a well-formed system, a query of [getBact] at a position outside
    the box [[xmin,xmax] x [ymin,ymax] x [zmin,zmax]] raises
    [OutOfBoundsError] and returns no value; the system is unchanged. The
    witness is the grid of x axis [[0.0, 0.01, 0.02]] queried at [x = 0.05]. *)
Theorem getBact_out_of_bounds w pos :
  wf w -> outside_box (self w) pos ->
  getBact pos w = (inl OutOfBoundsError, w).
Proof.
  intros Hwf Hout. destruct pos as [[x y] z].
  destruct (wf_Bact _ Hwf) as (itp & Hitp & Hg & _).
  unfold getBact. rewrite (run_bind_ok _ _ w itp w) by (apply run_attr_opt; assumption).
  apply (call_out_of_bounds itp _ _ _ x y z w Hg).
  pose proof (wf_x _ Hwf) as Okx. pose proof (wf_y _ Hwf) as Oky.
  pose proof (wf_z _ Hwf) as Okz.
  destruct Hout as [H | [H | [H | [H | [H | H]]]]].
  - rewrite (out_of_bounds_true _ _ _ x Okx) by auto. reflexivity.
  - rewrite (out_of_bounds_true _ _ _ x Okx) by auto. reflexivity.
  - rewrite (out_of_bounds_true _ _ _ y Oky) by auto. apply orb_true_intro. left. apply orb_true_r.
  - rewrite (out_of_bounds_true _ _ _ y Oky) by auto. apply orb_true_intro. left. apply orb_true_r.
  - rewrite (out_of_bounds_true _ _ _ z Okz) by auto. apply orb_true_r.
  - rewrite (out_of_bounds_true _ _ _ z Okz) by auto. apply orb_true_r.
Qed.

Lemma getBact_out_of_bounds_witness :
  wf sys6
  /\ xcoords (self sys6) = [cm 0; cm 1; cm 2]
  /\ outside_box (self sys6) (cm 5, cm 0, cm 0)
  /\ getBact (cm 5, cm 0, cm 0) sys6 = (inl OutOfBoundsError, sys6).
Proof.
  assert (Hout : outside_box (self sys6) (cm 5, cm 0, cm 0)) by (right; left; by_eval).
  split; [exact sys6_wf |]. split; [by_eval |]. split; [exact Hout |].
  exact (getBact_out_of_bounds sys6 (cm 5, cm 0, cm 0) sys6_wf Hout).
Defined.

(** On a well-formed system, for a position inside the box given as a tuple
    and a dipole moment [m] of three components, [getA] returns a matrix of
    six rows and [Ncoils] columns; its first three rows are the matrix
    [getBact] returns at that position, and its rows 3, 4 and 5 are the
    contractions of [m] against the first axis of the x, y and z matrices
    that [getDerMatrices] returns. *)
Lemma getA_extended_actuation_matrix w pos m :
  wf w -> in_box (self w) pos -> length m = 3 ->
  exists Bact dx dy dz A,
    getBact pos w = (inr Bact, w)
    /\ getDerMatrices pos w = (inr (dx, dy, dz), w)
    /\ getA pos m w = (inr A, w)
    /\ length A = 6
    /\ Forall (fun row => length row = Ncoils (self w)) A
    /\ take 3 A = Bact
    /\ A !! 3 = Some (contract m dx (Ncoils (self w)))
    /\ A !! 4 = Some (contract m dy (Ncoils (self w)))
    /\ A !! 5 = Some (contract m dz (Ncoils (self w))).
Proof.
  intros Hwf Hbox Hm.
  destruct (wf_Bact _ Hwf) as (ia & Hia & Hga & Hva).
  destruct (wf_Bs _ Hwf) as (B & HB & Hsh).
  destruct (call_in_box w ia B pos Hwf Hga) as (i0 & j0 & k0 & t0 & u0 & v0 & Ea);
    try assumption; [rewrite Hva; assumption |].
  destruct (bound_call_in_box w _ pos Hwf (wf_BxI _ Hwf) Hbox)
    as (ix & Vx & i1 & j1 & k1 & t1 & u1 & v1 & Hix & Ex).
  destruct (bound_call_in_box w _ pos Hwf (wf_ByI _ Hwf) Hbox)
    as (iy & Vy & i2 & j2 & k2 & t2 & u2 & v2 & Hiy & Ey).
  destruct (bound_call_in_box w _ pos Hwf (wf_BzI _ Hwf) Hbox)
    as (iz & Vz & i3 & j3 & k3 & t3 & u3 & v3 & Hiz & Ez).
  set (N := Ncoils (self w)) in *.
  set (Bact := to_matrix 3 N (trilinear B i0 j0 k0 t0 u0 v0)) in *.
  set (dx := to_matrix 3 N (trilinear Vx i1 j1 k1 t1 u1 v1)) in *.
  set (dy := to_matrix 3 N (trilinear Vy i2 j2 k2 t2 u2 v2)) in *.
  set (dz := to_matrix 3 N (trilinear Vz i3 j3 k3 t3 u3 v3)) in *.
  assert (EB : getBact pos w = (inr Bact, w)).
  { unfold getBact. rewrite (run_bind_ok _ _ w ia w) by (apply run_attr_opt; assumption).
    exact Ea. }
  assert (ED : getDerMatrices pos w = (inr (dx, dy, dz), w)).
  { unfold getDerMatrices.
    rewrite (run_bind_ok _ _ w ix w) by (apply run_attr_opt; assumption).
    rewrite (run_bind_ok _ _ w dx w Ex).
    rewrite (run_bind_ok _ _ w iy w) by (apply run_attr_opt; assumption).
    rewrite (run_bind_ok _ _ w dy w Ey).
    rewrite (run_bind_ok _ _ w iz w) by (apply run_attr_opt; assumption).
    rewrite (run_bind_ok _ _ w dz w Ez). reflexivity. }
  exists Bact, dx, dy, dz,
    (Bact ++ [contract m dx N] ++ [contract m dy N] ++ [contract m dz N]).
  split; [exact EB |]. split; [exact ED |]. split.
  { unfold getA. rewrite (run_bind_ok _ _ w (dx, dy, dz) w ED).
    rewrite (run_bind_ok _ _ w Bact w EB).
    rewrite (run_bind_ok _ _ w (contract m dx N) w)
      by (unfold lift, dx; rewrite dot_to_matrix by assumption; reflexivity).
    rewrite (run_bind_ok _ _ w (contract m dy N) w)
      by (unfold lift, dy; rewrite dot_to_matrix by assumption; reflexivity).
    rewrite (run_bind_ok _ _ w (contract m dz N) w)
      by (unfold lift, dz; rewrite dot_to_matrix by assumption; reflexivity).
    unfold lift, np_vstack. cbn [forallb ncols].
    rewrite !contract_length.
    replace (ncols Bact) with N
      by (unfold Bact, to_matrix; cbn; rewrite length_map, length_seq; reflexivity).
    rewrite !Nat.eqb_refl. cbn [andb concat]. rewrite app_nil_r. reflexivity. }
  assert (LB : length Bact = 3) by apply to_matrix_length.
  split; [rewrite !length_app, LB; reflexivity |].
  split.
  { apply Forall_app. split; [apply to_matrix_rows |].
    repeat constructor; apply contract_length. }
  split; [rewrite take_app_length' by assumption; reflexivity |].
  repeat split; rewrite lookup_app_r by lia; rewrite LB; reflexivity.
Qed.

Lemma getA_extended_actuation_matrix_witness :
  exists Bact dx dy dz A,
    getBact (cm 1, cm 0, Q2Qc (1 # 200)) sys6 = (inr Bact, sys6)
    /\ getDerMatrices (cm 1, cm 0, Q2Qc (1 # 200)) sys6 = (inr (dx, dy, dz), sys6)
    /\ getA (cm 1, cm 0, Q2Qc (1 # 200)) [Z2Qc 1; Z2Qc 2; Z2Qc 3] sys6 = (inr A, sys6)
    /\ length A = 6
    /\ Forall (fun row => length row = Ncoils (self sys6)) A
    /\ take 3 A = Bact
    /\ A !! 3 = Some (contract [Z2Qc 1; Z2Qc 2; Z2Qc 3] dx (Ncoils (self sys6)))
    /\ A !! 4 = Some (contract [Z2Qc 1; Z2Qc 2; Z2Qc 3] dy (Ncoils (self sys6)))
    /\ A !! 5 = Some (contract [Z2Qc 1; Z2Qc 2; Z2Qc 3] dz (Ncoils (self sys6))).
Proof.
  apply (getA_extended_actuation_matrix sys6 (cm 1, cm 0, Q2Qc (1 # 200))
           [Z2Qc 1; Z2Qc 2; Z2Qc 3] sys6_wf); [| reflexivity].
  unfold in_box. evals.
Defined.

(** C7. On a well-formed system, [getA] called at a position inside the box
    that is given as an array or a list, the type its docstring names, does
    not return a matrix: the interpolators return arrays of shape
    (1, 3, Ncoils), the three products with [m] have the shape (1, Ncoils),
    and [np.vstack] refuses to stack an array of three axes on arrays of two.
    The call raises ValueError, whatever the dipole moment, and leaves the
    system as it was. *)
Theorem getA_fails_on_array_position w pos m :
  wf w -> in_box (self w) pos ->
  getA_at (as_array pos) m w = (inl ValueError, w).
Proof.
  intros Hwf Hbox.
  destruct (queries_at_in_box w (as_array pos) Hwf Hbox)
    as (Ax & Ay & Az & Ab & _ & _ & ED & EB & _).
  cbv zeta in *.
  unfold getA_at. rewrite (run_bind_ok _ _ w _ w ED). rewrite (run_bind_ok _ _ w _ w EB).
  destruct (array_dot_lead m (Ncoils (self w)) (concat Ax)) as [-> | [lx ->]];
    [apply run_lift_err | rewrite run_lift_ok].
  destruct (array_dot_lead m (Ncoils (self w)) (concat Ay)) as [-> | [ly ->]];
    [apply run_lift_err | rewrite run_lift_ok].
  destruct (array_dot_lead m (Ncoils (self w)) (concat Az)) as [-> | [lz ->]];
    [apply run_lift_err | rewrite run_lift_ok].
  rewrite array_vstack_ranks. reflexivity.
Qed.

Lemma getA_fails_on_array_position_witness :
  getA_at (as_array (cm 1, cm 0, Q2Qc (1 # 200))) [Z2Qc 1; Z2Qc 2; Z2Qc 3] sys6
  = (inl ValueError, sys6).
Proof.
  apply (getA_fails_on_array_position sys6 (cm 1, cm 0, Q2Qc (1 # 200))
           [Z2Qc 1; Z2Qc 2; Z2Qc 3] sys6_wf).
  evals.
Defined.

(** C8. On a well-formed system, [getBact] queried at the grid node
    [(xcoords[i], ycoords[j], zcoords[k])] returns, for every component [c]
    and coil [n], the stored sample [Bs[i,j,k,c,n]]. *)
Theorem getBact_at_grid_node w B i j k x y z c n :
  wf w -> heap w !! Bs (self w) = Some B ->
  xcoords (self w) !! i = Some x -> ycoords (self w) !! j = Some y ->
  zcoords (self w) !! k = Some z ->
  c < 3 -> n < Ncoils (self w) ->
  exists Mx, getBact (x, y, z) w = (inr Mx, w)
    /\ Mx !! c ≫= (fun row => row !! n) = Some (item B i j k c n).
Proof.
  intros Hwf HB Hx Hy Hz Hc Hn.
  destruct (wf_Bact _ Hwf) as (itp & Hitp & Hg & Hv).
  destruct (wf_Bs _ Hwf) as (B' & HB' & Hsh). rewrite HB in HB'. injection HB' as <-.
  destruct (call_at_node w itp B i j k x y z Hwf Hg) as (Mx & E & HM); try assumption.
  { rewrite Hv. assumption. }
  exists Mx. split; [| apply HM; assumption].
  unfold getBact. rewrite (run_bind_ok _ _ w itp w) by (apply run_attr_opt; assumption).
  exact E.
Qed.

Lemma getBact_at_grid_node_witness :
  exists Mx, getBact (cm 1, cm 1, cm 0) sys6 = (inr Mx, sys6)
    /\ Mx !! 2 ≫= (fun row => row !! 4) = Some (item B6 1 1 0 2 4).
Proof.
  apply (getBact_at_grid_node sys6 B6 1 1 0 (cm 1) (cm 1) (cm 0) 2 4 sys6_wf sys6_Bs);
    [by_eval | by_eval | by_eval | lia | by_eval].
Defined.

(** C9. The axis values are not the coordinates rounded to six significant
    digits, as the comment on line 188 of the source has it:
    [extract_unique_vals_tol] rounds to six decimal places. The coordinate
    0.0123456789 becomes the axis value 0.012346 where six significant digits
    give 0.0123457, in the exact arithmetic of the model and in binary64
    alike. *)
Theorem axis_is_not_rounded_to_six_significant_digits :
  __init__ (Bconst 1, pts9) 1 "m" = inr sys9
  /\ xcoords (self sys9) = [cm 0; Q2Qc (12346 # 1000000)]
  /\ axis_sig6 (xcol pts9) = [cm 0; Q2Qc (123457 # 10000000)]
  /\ xcoords (self sys9) <> axis_sig6 (xcol (coordinates (self sys9)))
  /\ round_1e6_binary64 0.0123456789%float = inr 0.012346%float
  /\ PrimFloat.eqb 0.012346%float 0.0123457%float = false.
Proof.
  split; [exact sys9_init |].
  split; [by_eval |]. split; [by_eval |]. split; [by_eval |].
  split; vm_compute; reflexivity.
Qed.

(** Apart from the rounding, the axes are as the specification describes
    them, in the exact arithmetic of the model: every axis of a constructed
    system is the ascending list of the distinct values of its coordinate
    column, each rounded to the nearest integer multiple of 1e-6; the axis is
    strictly increasing, has two values or more, and its spacing is the
    difference of its first two values. *)
Lemma axis_construction B coords N pu w :
  __init__ (B, coords) N pu = inr w ->
  let cs := used_coordinates pu coords in
  axis_of (xcol cs) (xcoords (self w)) (deltax (self w))
  /\ axis_of (ycol cs) (ycoords (self w)) (deltay (self w))
  /\ axis_of (zcol cs) (zcoords (self w)) (deltaz (self w))
  /\ forall c, exists z : Z,
       round_1e6 c = (Q2Qc (1 # 1000000) * Z2Qc z)%Qc
       /\ (Z2Qc z - Q2Qc (1 # 2) <= Q2Qc (1000000 # 1) * c)%Qc
       /\ (Q2Qc (1000000 # 1) * c <= Z2Qc z + Q2Qc (1 # 2))%Qc.
Proof.
  intros H cs. apply init_world in H
    as (x1 & x0 & y1 & y0 & z1 & z0 & X & Y & Z & o
        & Hx1 & Hx0 & Hy1 & Hy0 & Hz1 & Hz0 & _ & _ & _ & Ex & Ey & Ez & Dx & Dy & Dz
        & _ & _ & _ & _ & _ & _ & _ & _ & _ & _ & _ & _ & ->).
  fold cs in Hx1, Hx0, Hy1, Hy0, Hz1, Hz0, Ex, Ey, Ez.
  cbn [self xcoords ycoords zcoords deltax deltay deltaz set_BzInterpolator
         set_ByInterpolator set_BxInterpolator set_Bz set_By set_Bx set_BactInterpolator].
  rewrite Ex, Ey, Ez, Dx, Dy, Dz.
  split; [apply axis_of_axis; assumption |].
  split; [apply axis_of_axis; assumption |].
  split; [apply axis_of_axis; assumption |].
  apply round_1e6_multiple.
Qed.

Lemma axis_construction_witness :
  axis_of (xcol (used_coordinates "m" pts6)) (xcoords (self sys6)) (deltax (self sys6))
  /\ axis_of (ycol (used_coordinates "m" pts6)) (ycoords (self sys6)) (deltay (self sys6))
  /\ axis_of (zcol (used_coordinates "m" pts6)) (zcoords (self sys6)) (deltaz (self sys6))
  /\ forall c, exists z : Z,
       round_1e6 c = (Q2Qc (1 # 1000000) * Z2Qc z)%Qc
       /\ (Z2Qc z - Q2Qc (1 # 2) <= Q2Qc (1000000 # 1) * c)%Qc
       /\ (Q2Qc (1000000 # 1) * c <= Z2Qc z + Q2Qc (1 # 2))%Qc.
Proof. exact (axis_construction B6 pts6 6 "m" sys6 sys6_init). Defined.

(** C10. The constructor called with the position unit ["mm"] is the
    constructor called with ["m"] on the coordinates multiplied by 1/1000,
    and the object it builds stores these products; called with any other
    unit, known or not, it is the constructor called with ["m"] on the
    coordinates as they are, and stores them unchanged: the same object or
    the same error, and a unit that is not known raises nothing of its own. *)
Theorem posunit_rescales_only_mm B coords N pu :
  (pu = "mm" ->
   __init__ (B, coords) N pu = __init__ (B, rescaled (Q2Qc (1 # 1000)) coords) N "m"
   /\ forall w, __init__ (B, coords) N pu = inr w ->
        coordinates (self w) = rescaled (Q2Qc (1 # 1000)) coords)
  /\ (pu <> "mm" ->
      __init__ (B, coords) N pu = __init__ (B, coords) N "m"
      /\ forall w, __init__ (B, coords) N pu = inr w -> coordinates (self w) = coords).
Proof.
  assert (Hrun : __init__ (B, coords) N pu = __init__ (B, used_coordinates pu coords) N "m")
    by (unfold __init__; rewrite init_axes_posunit; reflexivity).
  assert (Hst : forall w, __init__ (B, coords) N pu = inr w ->
                  coordinates (self w) = used_coordinates pu coords).
  { intros w E. apply init_world in E
      as (x1 & x0 & y1 & y0 & z1 & z0 & X & Y & Z & o
          & _ & _ & _ & _ & _ & _ & Hc & _ & _ & _ & _ & _ & _ & _ & _
          & _ & _ & _ & _ & _ & _ & _ & _ & _ & _ & _ & _ & ->).
    exact Hc. }
  assert (Hmm : used_coordinates "mm" coords = rescaled (Q2Qc (1 # 1000)) coords).
  { unfold used_coordinates, scale_mm, rescaled. cbn.
    apply map_ext. intros [[x y] z]. cbn [fst snd].
    rewrite (Qcmult_comm x), (Qcmult_comm y), (Qcmult_comm z). reflexivity. }
  split.
  - intros ->. rewrite <- Hmm. split; [exact Hrun | exact Hst].
  - intros Hpu. pose proof (used_coordinates_other pu coords Hpu) as Hu.
    rewrite Hu in Hrun, Hst. split; [exact Hrun | exact Hst].
Qed.

(** the grid of [sys6] given in millimetres is stored in metres under "mm" *)
Lemma posunit_rescales_only_mm_witness :
  __init__ (B6, pts6_mm) 6 "mm" = __init__ (B6, rescaled (Q2Qc (1 # 1000)) pts6_mm) 6 "m"
  /\ coordinates (self (built (__init__ (B6, pts6_mm) 6 "mm")))
     = rescaled (Q2Qc (1 # 1000)) pts6_mm.
Proof.
  destruct (proj1 (posunit_rescales_only_mm B6 pts6_mm 6 "mm") eq_refl) as [H1 H2].
  split; [exact H1 |]. apply H2. apply built_inr. vm_compute. reflexivity.
Defined.

(** * Further properties of the code *)

(** ** The constructor *)

(** A constructor call that returns, on an array of three components and
    [Ncoils] coils, leaves a well-formed system: every axis is strictly
    ascending with two values or more, [xmin] and [xmax] (and so on) are its
    first and last values, the grid dimensions of the field array are the axis
    lengths, [BactInterpolator] is bound to [self.Bs] and the three derivative
    interpolators to arrays of the same shape. *)
Theorem constructor_establishes_invariant B coords N pu w :
  __init__ (B, coords) N pu = inr w ->
  n3 (shape B) = 3 -> n4 (shape B) = N ->
  wf w.
Proof. exact (init_wf B coords N pu w). Qed.

Lemma constructor_establishes_invariant_witness : wf sys6.
Proof.
  exact (constructor_establishes_invariant B6 pts6 6 "m" sys6 sys6_init eq_refl eq_refl).
Defined.

(** When the coordinates along x, y or z have fewer than two distinct values
    after rounding, the constructor raises [IndexError] (at [xcoords[1]] or
    its likes), whatever the array. *)
Theorem constructor_rejects_short_axis B coords N pu :
  let cs := used_coordinates pu coords in
  length (axis (xcol cs)) < 2 \/ length (axis (ycol cs)) < 2 \/ length (axis (zcol cs)) < 2 ->
  __init__ (B, coords) N pu = inl IndexError.
Proof. exact (init_short_axis B coords N pu). Qed.

Lemma constructor_rejects_short_axis_witness :
  __init__ (Bconst 1, pts_flat) 1 "m" = inl IndexError.
Proof.
  apply (constructor_rejects_short_axis (Bconst 1) pts_flat 1 "m").
  left. by_eval.
Defined.

(** When every axis has two values or more but the axis lengths are not the
    three grid dimensions of the array, the constructor raises [ValueError]:
    the first interpolator refuses the array. *)
Theorem constructor_rejects_misfit_array B coords N pu :
  let cs := used_coordinates pu coords in
  2 <= length (axis (xcol cs)) -> 2 <= length (axis (ycol cs)) ->
  2 <= length (axis (zcol cs)) ->
  (length (axis (xcol cs)), length (axis (ycol cs)), length (axis (zcol cs)))
  <> (n0 (shape B), n1 (shape B), n2 (shape B)) ->
  __init__ (B, coords) N pu = inl ValueError.
Proof. exact (init_shape_mismatch B coords N pu). Qed.

Lemma constructor_rejects_misfit_array_witness :
  __init__ (B6, pts2) 6 "m" = inl ValueError.
Proof.
  apply (constructor_rejects_misfit_array B6 pts2 6 "m"); by_eval.
Defined.

(** When every axis has two values or more and the axis lengths are the grid
    dimensions of the array, the constructor returns an object. *)
Theorem constructor_returns_on_fitting_data B coords N pu :
  let cs := used_coordinates pu coords in
  2 <= length (axis (xcol cs)) -> 2 <= length (axis (ycol cs)) ->
  2 <= length (axis (zcol cs)) ->
  length (axis (xcol cs)) = n0 (shape B) -> length (axis (ycol cs)) = n1 (shape B) ->
  length (axis (zcol cs)) = n2 (shape B) ->
  exists w, __init__ (B, coords) N pu = inr w.
Proof. exact (init_succeeds B coords N pu). Qed.

Lemma constructor_returns_on_fitting_data_witness :
  exists w, __init__ (B6, pts6) 6 "mm" = inr w.
Proof.
  apply (constructor_returns_on_fitting_data B6 pts6 6 "mm"); by_eval.
Defined.

(** At a grid node of a newly constructed system, [getDerMatrices] returns
    the entries that the three finite-difference arrays hold at that node,
    for every component and coil. *)
Theorem derivative_matrices_at_node B coords N pu w i j k x y z :
  __init__ (B, coords) N pu = inr w ->
  n3 (shape B) = 3 -> n4 (shape B) = N ->
  xcoords (self w) !! i = Some x -> ycoords (self w) !! j = Some y ->
  zcoords (self w) !! k = Some z ->
  exists Gx Gy Gz dx dy dz,
    finite_differences dX (deltax (self w)) B Gx
    /\ finite_differences dY (deltay (self w)) B Gy
    /\ finite_differences dZ (deltaz (self w)) B Gz
    /\ getDerMatrices (x, y, z) w = (inr (dx, dy, dz), w)
    /\ forall c n, c < 3 -> n < N ->
         dx !! c ≫= (fun row => row !! n) = Some (item Gx i j k c n)
         /\ dy !! c ≫= (fun row => row !! n) = Some (item Gy i j k c n)
         /\ dz !! c ≫= (fun row => row !! n) = Some (item Gz i j k c n).
Proof. exact (init_derivatives_at_node B coords N pu w i j k x y z). Qed.

Lemma derivative_matrices_at_node_witness :
  exists Gx Gy Gz dx dy dz,
    finite_differences dX (deltax (self sys6)) B6 Gx
    /\ finite_differences dY (deltay (self sys6)) B6 Gy
    /\ finite_differences dZ (deltaz (self sys6)) B6 Gz
    /\ getDerMatrices (cm 1, cm 1, cm 0) sys6 = (inr (dx, dy, dz), sys6)
    /\ forall c n, c < 3 -> n < 6 ->
         dx !! c ≫= (fun row => row !! n) = Some (item Gx 1 1 0 c n)
         /\ dy !! c ≫= (fun row => row !! n) = Some (item Gy 1 1 0 c n)
         /\ dz !! c ≫= (fun row => row !! n) = Some (item Gz 1 1 0 c n).
Proof.
  apply (derivative_matrices_at_node B6 pts6 6 "m" sys6 1 1 0 (cm 1) (cm 1) (cm 0)
           sys6_init eq_refl eq_refl); by_eval.
Defined.

(** ** Coil permutation *)

(** A permutation that returns leaves the system well-formed, with the axes,
    the bounds, the spacings and the number of coils it had; [self.Bs] is
    bound to an array that was not in the heap before, of the shape of the
    old one, and the old one is still where it was. *)
Theorem permutate_coils_keeps_invariant w coilvec w' :
  wf w -> permutate_coils coilvec w = (inr tt, w') ->
  wf w'
  /\ axes (self w') = axes (self w)
  /\ (xmin (self w'), xmax (self w'), ymin (self w'), ymax (self w'),
      zmin (self w'), zmax (self w'))
     = (xmin (self w), xmax (self w), ymin (self w), ymax (self w),
        zmin (self w), zmax (self w))
  /\ (deltax (self w'), deltay (self w'), deltaz (self w'))
     = (deltax (self w), deltay (self w), deltaz (self w))
  /\ Ncoils (self w') = Ncoils (self w)
  /\ Bs (self w') = length (heap w)
  /\ exists B T,
       heap w !! Bs (self w) = Some B /\ heap w' !! Bs (self w) = Some B
       /\ heap w' !! Bs (self w') = Some T /\ shape T = shape B.
Proof.
  intros Hwf E. split; [exact (permutate_coils_wf w coilvec w' Hwf E) |].
  destruct (wf_Bs _ Hwf) as (B & HB & _).
  destruct (permutate_coils_run w B coilvec Hwf HB)
    as [(T & X & Y & Z & E' & (T' & HWeq & HTs & _) & _) | (T & idx & _ & _ & E')];
    rewrite E' in E; [| discriminate].
  injection E as <-. injection HWeq as HWeq. apply app_inj_tail in HWeq as [_ <-].
  cbn [self heap after_permutation set_Bz set_By set_Bx set_BactInterpolator set_Bs
         axes xcoords ycoords zcoords xmin xmax ymin ymax zmin zmax deltax deltay deltaz
         Ncoils Bs].
  repeat (split; [reflexivity |]).
  exists B, T. split; [exact HB |].
  split; [apply lookup_app_l_Some; exact HB |].
  split; [| exact HTs].
  rewrite lookup_app_r by lia. rewrite Nat.sub_diag. reflexivity.
Qed.

Lemma permutate_coils_keeps_invariant_witness :
  wf (snd (permutate_coils [5; 1; 2; 3; 4; 0]%Z sys6))
  /\ axes (self (snd (permutate_coils [5; 1; 2; 3; 4; 0]%Z sys6))) = axes (self sys6).
Proof.
  assert (E : permutate_coils [5; 1; 2; 3; 4; 0]%Z sys6
              = (inr tt, snd (permutate_coils [5; 1; 2; 3; 4; 0]%Z sys6)))
    by (apply run_fst; by_eval).
  destruct (permutate_coils_keeps_invariant sys6 [5; 1; 2; 3; 4; 0]%Z _ sys6_wf E)
    as (H1 & H2 & _).
  split; assumption.
Defined.

(** On a well-formed system of six coils, [permutate_coils] called with six
    entries in [0, 6) returns, and the new field array has the shape of the
    old one and holds at every coil index [n] the old coil [coilvec[n]]. *)
Theorem permutate_coils_on_six_coils w B coilvec :
  wf w -> heap w !! Bs (self w) = Some B -> n4 (shape B) = 6 ->
  length coilvec = 6 -> Forall (fun v => (0 <= v < 6)%Z) coilvec ->
  exists w' T,
    permutate_coils coilvec w = (inr tt, w')
    /\ heap w' !! Bs (self w') = Some T /\ shape T = shape B
    /\ forall n v, coilvec !! n = Some v ->
         forall i j k c, item T i j k c n = item B i j k c (Z.to_nat v).
Proof. exact (permutate_coils_six w B coilvec). Qed.

Lemma permutate_coils_on_six_coils_witness :
  exists w' T,
    permutate_coils [5; 1; 2; 3; 4; 0]%Z sys6 = (inr tt, w')
    /\ heap w' !! Bs (self w') = Some T /\ shape T = shape B6
    /\ forall n v, [5; 1; 2; 3; 4; 0]%Z !! n = Some v ->
         forall i j k c, item T i j k c n = item B6 i j k c (Z.to_nat v).
Proof.
  apply (permutate_coils_on_six_coils sys6 B6 [5; 1; 2; 3; 4; 0]%Z sys6_wf sys6_Bs);
    [reflexivity | reflexivity | repeat constructor; lia].
Defined.

(** On a well-formed system, [permutate_coils] returns exactly when the field
    has six coils or more and the first six entries of [coilvec] exist and
    lie in [-Ncoils, Ncoils); in every other case it raises [IndexError]. *)
Theorem permutate_coils_acceptance w B coilvec :
  wf w -> heap w !! Bs (self w) = Some B ->
  (fst (permutate_coils coilvec w) = inr tt <-> accepted (n4 (shape B)) coilvec)
  /\ (fst (permutate_coils coilvec w) = inl IndexError <-> ~ accepted (n4 (shape B)) coilvec).
Proof.
  intros Hwf HB.
  destruct (permutate_coils_outcome w B coilvec Hwf HB) as [[Ha E] | [Hn E]]; rewrite E.
  - split; split; [auto | auto | discriminate | contradiction].
  - split; split; [discriminate | contradiction | auto | auto].
Qed.

Lemma permutate_coils_acceptance_witness :
  (fst (permutate_coils [0; -1; 7]%Z sys6) = inr tt <-> accepted (n4 (shape B6)) [0; -1; 7]%Z)
  /\ (fst (permutate_coils [0; -1; 7]%Z sys6) = inl IndexError
      <-> ~ accepted (n4 (shape B6)) [0; -1; 7]%Z).
Proof. exact (permutate_coils_acceptance sys6 B6 [0; -1; 7]%Z sys6_wf sys6_Bs). Defined.

(** On a well-formed system of six coils, a permutation followed by its
    inverse returns and leaves a field array equal, coil by coil, to the one
    before the two calls. *)
Theorem permutate_coils_inverse_restores_field w B cv cv' :
  wf w -> heap w !! Bs (self w) = Some B -> n4 (shape B) = 6 ->
  length cv = 6 -> Forall (fun v => (0 <= v < 6)%Z) cv ->
  length cv' = 6 -> Forall (fun v => (0 <= v < 6)%Z) cv' ->
  (forall n v', cv' !! n = Some v' -> cv !! Z.to_nat v' = Some (Z.of_nat n)) ->
  exists w2 T2,
    (permutate_coils cv;; permutate_coils cv') w = (inr tt, w2)
    /\ wf w2
    /\ heap w2 !! Bs (self w2) = Some T2 /\ shape T2 = shape B
    /\ forall n, n < 6 -> forall i j k c, item T2 i j k c n = item B i j k c n.
Proof.
  intros Hwf HB H6 Hlen Hall Hlen' Hall' Hinv.
  destruct (permutate_coils_twice w B cv cv' Hwf HB H6 Hlen Hall Hlen' Hall')
    as (w2 & T2 & E & Hwf2 & HT2 & Hs & V).
  exists w2, T2. repeat (split; [assumption |]).
  intros n Hn i j k c.
  destruct (lookup_lt_is_Some_2 cv' n) as [v' Hv']; [lia |].
  rewrite (V n v' (Z.of_nat n) Hv' (Hinv n v' Hv')). rewrite Nat2Z.id. reflexivity.
Qed.

Lemma permutate_coils_inverse_restores_field_witness :
  exists w2 T2,
    (permutate_coils [1; 2; 0; 3; 4; 5]%Z;; permutate_coils [2; 0; 1; 3; 4; 5]%Z) sys6
    = (inr tt, w2)
    /\ wf w2
    /\ heap w2 !! Bs (self w2) = Some T2 /\ shape T2 = shape B6
    /\ forall n, n < 6 -> forall i j k c, item T2 i j k c n = item B6 i j k c n.
Proof.
  apply (permutate_coils_inverse_restores_field sys6 B6 [1; 2; 0; 3; 4; 5]%Z
           [2; 0; 1; 3; 4; 5]%Z sys6_wf sys6_Bs);
    [reflexivity | reflexivity | repeat constructor; lia
     | reflexivity | repeat constructor; lia |].
  intros n v' H.
  do 6 (destruct n as [|n]; [injection H as <-; reflexivity |]). discriminate H.
Defined.

(** ** Queries *)

(** [getBact], [getDerMatrices] and [getA] never change the object nor any
    array, whether they return or raise. *)
Theorem queries_are_read_only w pos m :
  snd (getBact pos w) = w /\ snd (getDerMatrices pos w) = w /\ snd (getA pos m w) = w.
Proof.
  split; [apply read_only_getBact |].
  split; [apply read_only_getDerMatrices | apply read_only_getA].
Qed.

(** ** The gradient computation *)

(** On a field array with a single node along x (and one or more along y and
    z) [_compute_gradient_tensor] raises [IndexError] at its first step,
    having rebound [self.Bx] to a new array of zeros. *)
Theorem gradient_needs_two_nodes w B :
  heap w !! Bs (self w) = Some B ->
  n0 (shape B) = 1 -> 1 <= n1 (shape B) -> 1 <= n2 (shape B) ->
  _compute_gradient_tensor w
  = (inl IndexError,
     mkWorld (set_Bx (length (heap w)) (self w)) (heap w ++ [np_zeros (shape B)])).
Proof. exact (gradient_single_node w B). Qed.

Lemma gradient_needs_two_nodes_witness :
  _compute_gradient_tensor world_single
  = (inl IndexError,
     mkWorld (set_Bx (length (heap world_single)) (self world_single))
       (heap world_single ++ [np_zeros (shape B_single)])).
Proof.
  apply (gradient_needs_two_nodes world_single B_single);
    [reflexivity | reflexivity | simpl; lia | simpl; lia].
Defined.

(** ** Index arithmetic *)

(** For positive [Nx] and [Ny] whose product is below 2^53 and a linear index
    [n] from 0 to below 2^53, the range in which binary64 holds every integer,
    [_linidx2volidx] returns three indices that are not negative, the first
    below [Nx] and the second below [Ny], from which [n] is recovered as
    [nz * Nx * Ny + ny * Nx + nx]. *)
Theorem linidx_decomposition Nx Ny n :
  (0 < Nx)%Z -> (0 < Ny)%Z -> (Nx * Ny < 2 ^ 53)%Z -> (0 <= n < 2 ^ 53)%Z ->
  exists a b c, _linidx2volidx Nx Ny n = inr (a, b, c)
    /\ (0 <= a < Nx)%Z /\ (0 <= b < Ny)%Z /\ (0 <= c)%Z
    /\ (c * (Nx * Ny) + b * Nx + a = n)%Z.
Proof.
  intros Hx Hy Hxy Hn. rewrite (linidx2volidx_small Nx Ny n Hx Hy Hxy Hn).
  eexists _, _, _. split; [reflexivity |].
  assert (Pxy : (0 < Nx * Ny)%Z) by nia.
  pose proof (Z.mod_pos_bound n Nx Hx) as B1.
  pose proof (Z.mod_pos_bound n (Nx * Ny) Pxy) as B2.
  pose proof (Z.div_mod n (Nx * Ny) ltac:(lia)) as D1.
  pose proof (Z.div_mod (n mod (Nx * Ny)) Nx ltac:(lia)) as D2.
  assert (M : ((n mod (Nx * Ny)) mod Nx = n mod Nx)%Z).
  { rewrite Z.rem_mul_r by lia. rewrite (Z.mul_comm Nx).
    rewrite Z.mod_add by lia. apply Z.mod_mod. lia. }
  rewrite M in D2.
  split; [lia |]. split.
  - split; [apply Z.div_pos; lia |]. apply Z.div_lt_upper_bound; lia.
  - split; [apply Z.div_pos; lia |]. lia.
Qed.

Lemma linidx_decomposition_witness :
  exists a b c, _linidx2volidx 7 5 100 = inr (a, b, c)
    /\ (0 <= a < 7)%Z /\ (0 <= b < 5)%Z /\ (0 <= c)%Z
    /\ (c * (7 * 5) + b * 7 + a = 100)%Z.
Proof. apply (linidx_decomposition 7 5 100); lia. Defined.

(** On a cubic grid of [N] nodes per axis, [_linidx2volidx] undoes
    [_volidx2linidx] on every index triple whose first two indices are below
    [N] and whose linear index is below 2^53. *)
Theorem volidx_round_trip N nx ny nz :
  (0 <= nx < N)%Z -> (0 <= ny < N)%Z -> (0 <= nz)%Z ->
  (_volidx2linidx nx ny nz N < 2 ^ 53)%Z -> (N * N < 2 ^ 53)%Z ->
  _linidx2volidx N N (_volidx2linidx nx ny nz N) = inr (nx, ny, nz).
Proof.
  intros Hx Hy Hz Hlin HN.
  rewrite linidx2volidx_small; [| lia | lia | exact HN | unfold _volidx2linidx in *; nia].
  unfold _volidx2linidx.
  replace (N ^ 2)%Z with (N * N)%Z by ring.
  assert (H1 : ((nz * (N * N) + ny * N + nx) mod N = nx)%Z).
  { replace (nz * (N * N) + ny * N + nx)%Z with (nx + (nz * N + ny) * N)%Z by ring.
    rewrite Z.mod_add by lia. apply Z.mod_small. lia. }
  assert (H2 : ((nz * (N * N) + ny * N + nx) mod (N * N) = ny * N + nx)%Z).
  { replace (nz * (N * N) + ny * N + nx)%Z with ((ny * N + nx) + nz * (N * N))%Z by ring.
    rewrite Z.mod_add by nia. apply Z.mod_small. nia. }
  assert (H3 : ((nz * (N * N) + ny * N + nx) / (N * N) = nz)%Z).
  { replace (nz * (N * N) + ny * N + nx)%Z with ((ny * N + nx) + nz * (N * N))%Z by ring.
    rewrite Z.div_add by nia. rewrite Z.div_small by nia. lia. }
  rewrite H1, H2, H3. repeat f_equal.
  replace (ny * N + nx)%Z with (nx + ny * N)%Z by ring.
  rewrite Z.div_add by lia. rewrite Z.div_small by lia. lia.
Qed.

Lemma volidx_round_trip_witness :
  _linidx2volidx 7 7 (_volidx2linidx 3 6 2 7) = inr (3, 6, 2)%Z.
Proof. apply (volidx_round_trip 7 3 6 2); try lia; vm_compute; reflexivity. Defined.

(** ** Loading sampled calibration data *)


(** When the sampled points have fewer than two distinct values (after
    the rounding of [extract_unique_vals_tol]) in one direction,
    [get_magfield_data_sampled] raises IndexError at [cs[1]], for any fields
    and any number of coils. *)
Theorem sampled_loader_needs_two_values data N :
  length (axis (xcol (sampled_points data))) < 2
  \/ length (axis (ycol (sampled_points data))) < 2
  \/ length (axis (zcol (sampled_points data))) < 2 ->
  get_magfield_data_sampled data N = inl IndexError.
Proof.
  intros H. unfold get_magfield_data_sampled.
  rewrite (sampling_steps_short _ H). reflexivity.
Qed.

Lemma sampled_loader_needs_two_values_witness :
  get_magfield_data_sampled (mkCal pts_flat [] (Z2Qc 1)) 0 = inl IndexError.
Proof.
  apply (sampled_loader_needs_two_values (mkCal pts_flat [] (Z2Qc 1)) 0).
  left. by_eval.
Defined.

(** When [get_magfield_data_sampled] returns, the array has the shape
    (Nx, Ny, Nz, 3, Ncoils) with the three numbers it bound to [self.Nx],
    [self.Ny] and [self.Nz]; each of them is 1 + round((max - min) / delta)
    of its axis and is 2 or more; the coordinates come back as they were
    loaded. *)
Theorem sampled_loader_shape data N B cs Nx Ny Nz :
  get_magfield_data_sampled data N = inr (B, cs, (Nx, Ny, Nz)) ->
  shape B = mkShape Nx Ny Nz 3 N
  /\ cs = sampled_points data
  /\ 2 <= Nx /\ 2 <= Ny /\ 2 <= Nz
  /\ exists g, sampling_steps (sampled_points data) = inr g
       /\ Z.of_nat Nx = dimension (lo_x g) (hi_x g) (delta_x g)
       /\ Z.of_nat Ny = dimension (lo_y g) (hi_y g) (delta_y g)
       /\ Z.of_nat Nz = dimension (lo_z g) (hi_z g) (delta_z g).
Proof.
  intros H. pose proof (loader_shape _ _ _ _ _ _ _ H) as Hs.
  apply loader_inv in H as (g & T & Hg & -> & Hx & Hy & Hz & _).
  destruct (sampling_steps_inv _ _ Hg) as (Sx & Sy & Sz).
  apply dimension_two in Sx, Sy, Sz.
  split; [exact Hs |]. split; [reflexivity |].
  split; [lia |]. split; [lia |]. split; [lia |].
  exists g. auto.
Qed.

Lemma sampled_loader_shape_witness :
  shape B_dup = mkShape 2 2 2 3 1
  /\ pts_dup = sampled_points cal_dup
  /\ 2 <= 2 /\ 2 <= 2 /\ 2 <= 2
  /\ exists g, sampling_steps (sampled_points cal_dup) = inr g
       /\ Z.of_nat 2 = dimension (lo_x g) (hi_x g) (delta_x g)
       /\ Z.of_nat 2 = dimension (lo_y g) (hi_y g) (delta_y g)
       /\ Z.of_nat 2 = dimension (lo_z g) (hi_z g) (delta_z g).
Proof.
  exact (sampled_loader_shape cal_dup 1 B_dup pts_dup 2 2 2 cal_dup_loaded).
Defined.

(** In the array that [get_magfield_data_sampled] returns, a node holds,
    for each coil, the measurement of the last sample that the rounding of
    the loop sends to it, divided by the calibration current: when two
    samples land on one node, the later one is kept. *)
Theorem sampled_loader_last_sample_wins data N B cs dims g n i r v comp :
  get_magfield_data_sampled data N = inr (B, cs, dims) ->
  sampling_steps (sampled_points data) = inr g ->
  n < N ->
  last_at g (shape B) (sampled_points data) (npoints data) i r ->
  measurement data n i = Some v ->
  item B r.1.1 r.1.2 r.2 comp n = (component comp v / calibration_current data)%Qc.
Proof.
  intros H Hg Hn Hlast Hm. destruct dims as [[Nx Ny] Nz].
  pose proof (loader_shape _ _ _ _ _ _ _ H) as Hs. rewrite Hs in Hlast.
  apply loader_inv in H as (g' & T & Hg' & _ & _ & _ & _ & -> & _ & Hdone & _).
  assert (g' = g) as -> by congruence.
  destruct (Hdone n Hn) as [Hl _]. cbn [np_divide item].
  rewrite (Hl i r v comp Hlast Hm). reflexivity.
Qed.

Lemma sampled_loader_last_sample_wins_witness :
  item B_dup 0 0 0 0 0 = (Z2Qc 7 / Z2Qc 2)%Qc.
Proof.
  apply (sampled_loader_last_sample_wins cal_dup 1 B_dup pts_dup (2, 2, 2) steps_dup
           0 7 (0, 0, 0) (Z2Qc 7, cm 0, cm 0) 0 cal_dup_loaded steps_dup_run).
  - lia.
  - split; [by_eval |]. split.
    + exists (cm 0, cm 0, cm 0). split; vm_compute; reflexivity.
    + intros j q Hj. vm_compute in Hj. lia.
  - vm_compute. reflexivity.
Defined.

(** With a calibration current that is not zero, a node that no sample is
    sent to keeps the zero of [np.zeros] in the array that
    [get_magfield_data_sampled] returns, for every coil: the loader reports
    no missing sample. *)
Theorem sampled_loader_unsampled_node_is_zero data N B cs dims g n r comp :
  calibration_current data <> Q2Qc 0 ->
  get_magfield_data_sampled data N = inr (B, cs, dims) ->
  sampling_steps (sampled_points data) = inr g ->
  n < N ->
  no_sample_at g (shape B) (sampled_points data) (npoints data) r ->
  item B r.1.1 r.1.2 r.2 comp n = Q2Qc 0.
Proof.
  intros Hcur H Hg Hn Hno. destruct dims as [[Nx Ny] Nz].
  pose proof (loader_shape _ _ _ _ _ _ _ H) as Hs. rewrite Hs in Hno.
  apply loader_inv in H as (g' & T & Hg' & _ & _ & _ & _ & -> & _ & Hdone & _).
  assert (g' = g) as -> by congruence.
  destruct (Hdone n Hn) as [_ Hz]. cbn [np_divide item].
  rewrite (Hz r comp Hno). cbn [np_zeros item].
  apply (Qcmult_integral_l (calibration_current data)); [exact Hcur |].
  rewrite Qcmult_div_r by exact Hcur. ring.
Qed.

Lemma sampled_loader_unsampled_node_is_zero_witness :
  item B_dup 1 1 1 2 0 = Q2Qc 0.
Proof.
  apply (sampled_loader_unsampled_node_is_zero cal_dup 1 B_dup pts_dup (2, 2, 2) steps_dup
           0 (1, 1, 1) 2 ltac:(by_eval) cal_dup_loaded steps_dup_run).
  - lia.
  - intros i p Hi Hp. vm_compute in Hi.
    do 8 (destruct i as [|i]; [injection Hp as <-; vm_compute; discriminate |]).
    lia.
Defined.

(** A constructor call on sampled data that returns leaves an object that
    satisfies the invariant of the class (axes of two nodes or more, field
    and derivative arrays of the grid's shape, the four interpolators on
    these axes): what [get_magfield_data_sampled] returns has the three
    components and the [Ncoils] coils that the constructor relies on. *)
Theorem sampled_constructor_establishes_invariant data N pu w :
  magnetic_system_sampled data N pu = inr w -> wf w.
Proof.
  unfold magnetic_system_sampled. intros H.
  destruct (get_magfield_data_sampled data N) as [e | [[B cs] [[Nx Ny] Nz]]] eqn:E;
    [discriminate |].
  pose proof (loader_shape _ _ _ _ _ _ _ E) as Hs.
  change (__init__ (B, cs) N pu = inr w) in H.
  apply (init_wf _ _ _ _ _ H); rewrite Hs; reflexivity.
Qed.

Lemma sampled_constructor_establishes_invariant_witness : wf sys_dup.
Proof.
  apply (sampled_constructor_establishes_invariant cal_dup 1 "m" sys_dup).
  apply built_inr. vm_compute. reflexivity.
Defined.

(** With a position unit other than "mm", the constructor accepts what
    [get_magfield_data_sampled] returned exactly when the number of distinct
    values of each axis equals the dimension that the loader computed from
    the range and the first step; on an axis with a gap the two differ and
    the constructor raises ValueError. *)
Theorem sampled_constructor_needs_even_axes data N B cs Nx Ny Nz pu :
  get_magfield_data_sampled data N = inr (B, cs, (Nx, Ny, Nz)) ->
  pu <> "mm" ->
  ((length (axis (xcol cs)), length (axis (ycol cs)), length (axis (zcol cs)))
   = (Nx, Ny, Nz) -> exists w, __init__ (B, cs) N pu = inr w /\ wf w)
  /\ ((length (axis (xcol cs)), length (axis (ycol cs)), length (axis (zcol cs)))
      <> (Nx, Ny, Nz) -> __init__ (B, cs) N pu = inl ValueError).
Proof.
  intros H Hpu.
  pose proof (loader_shape _ _ _ _ _ _ _ H) as Hs.
  destruct (loader_axes _ _ _ _ _ _ _ H) as (Lx & Ly & Lz).
  pose proof (used_coordinates_other pu cs Hpu) as Hcs.
  split.
  - intros [= Fx Fy Fz].
    destruct (init_succeeds B cs N pu) as [w Hw];
      rewrite ?Hcs, ?Hs; cbn [n0 n1 n2]; try assumption.
    exists w. split; [exact Hw |].
    apply (init_wf _ _ _ _ _ Hw); rewrite Hs; reflexivity.
  - intros Misfit. apply init_shape_mismatch; rewrite ?Hcs, ?Hs; cbn [n0 n1 n2]; assumption.
Qed.

Lemma sampled_constructor_needs_even_axes_witness :
  __init__ (B_gap, pts_gap) 1 "m" = inl ValueError.
Proof.
  apply (proj2 (sampled_constructor_needs_even_axes cal_gap 1 B_gap pts_gap 4 2 2 "m"
                  cal_gap_loaded ltac:(discriminate))).
  vm_compute. discriminate.
Defined.

(** ** The getters *)

(** After a constructor call that returned, [getBArray] gives the loaded
    field array itself, and [getCoords] the three axes: the sorted distinct
    rounded coordinates of each direction, as many as the array has nodes in
    that direction. Neither call changes the object. *)
Theorem getters_after_construction B coords N pu w :
  __init__ (B, coords) N pu = inr w ->
  let cs := used_coordinates pu coords in
  (exists l, getBArray w = (inr l, w) /\ heap w !! l = Some B)
  /\ getCoords w = (inr (axis (xcol cs), axis (ycol cs), axis (zcol cs)), w)
  /\ length (axis (xcol cs)) = n0 (shape B)
  /\ length (axis (ycol cs)) = n1 (shape B)
  /\ length (axis (zcol cs)) = n2 (shape B).
Proof.
  intros H cs. pose proof (init_heap_Bs _ _ _ _ _ H) as HB.
  apply init_world in H
    as (x1 & x0 & y1 & y0 & z1 & z0 & X & Y & Z & o
        & _ & _ & _ & _ & _ & _ & _ & _ & _ & Hx & Hy & Hz & _ & _ & _
        & _ & _ & _ & Lx & Ly & Lz & _ & _ & _ & _ & _ & _ & ->).
  fold cs in Hx, Hy, Hz. rewrite <- Hx, <- Hy, <- Hz.
  split; [eexists; split; [reflexivity | exact HB] |].
  split; [reflexivity |]. auto.
Qed.

Lemma getters_after_construction_witness :
  (exists l, getBArray sys6 = (inr l, sys6) /\ heap sys6 !! l = Some B6)
  /\ getCoords sys6
     = (inr (axis (xcol (used_coordinates "m" pts6)), axis (ycol (used_coordinates "m" pts6)),
             axis (zcol (used_coordinates "m" pts6))), sys6)
  /\ length (axis (xcol (used_coordinates "m" pts6))) = n0 (shape B6)
  /\ length (axis (ycol (used_coordinates "m" pts6))) = n1 (shape B6)
  /\ length (axis (zcol (used_coordinates "m" pts6))) = n2 (shape B6).
Proof. exact (getters_after_construction B6 pts6 6 "m" sys6 sys6_init). Defined.

(** [permutate_coils] binds [self.Bs] to a new array: an array that
    [getBArray] returned before a permutation that ran to its end is as it
    was, and is not the array that [getBArray] returns afterwards. *)
Theorem field_array_reference_goes_stale w coilvec w' :
  wf w -> permutate_coils coilvec w = (inr tt, w') ->
  exists l l' B,
    getBArray w = (inr l, w) /\ getBArray w' = (inr l', w')
    /\ l' <> l /\ heap w !! l = Some B /\ heap w' !! l = Some B.
Proof.
  intros Hwf E. destruct (wf_Bs _ Hwf) as (B & HB & _).
  destruct (permutate_coils_frame w coilvec Hwf) as (_ & Hheap & Hnew).
  rewrite E in Hheap, Hnew. cbn [fst snd] in Hheap, Hnew.
  exists (Bs (self w)), (Bs (self w')), B.
  split; [reflexivity |]. split; [reflexivity |].
  split; [| split; [exact HB | apply Hheap; exact HB]].
  rewrite Hnew by reflexivity. apply lookup_lt_Some in HB. lia.
Qed.

Lemma field_array_reference_goes_stale_witness :
  exists l l' B,
    getBArray sys6 = (inr l, sys6)
    /\ getBArray (snd (permutate_coils [5; 1; 2; 3; 4; 0]%Z sys6))
       = (inr l', snd (permutate_coils [5; 1; 2; 3; 4; 0]%Z sys6))
    /\ l' <> l /\ heap sys6 !! l = Some B
    /\ heap (snd (permutate_coils [5; 1; 2; 3; 4; 0]%Z sys6)) !! l = Some B.
Proof.
  apply (field_array_reference_goes_stale sys6 [5; 1; 2; 3; 4; 0]%Z _ sys6_wf).
  apply run_fst. by_eval.
Defined.

(** Whatever [permutate_coils] is called with and however it ends, what
    [getCoords] returns is the same before and after the call. *)
Theorem permutate_coils_keeps_coordinates w coilvec :
  wf w ->
  fst (getCoords (snd (permutate_coils coilvec w))) = fst (getCoords w).
Proof.
  intros Hwf. destruct (permutate_coils_frame w coilvec Hwf) as (Hax & _).
  rewrite !getCoords_run. cbn [fst]. rewrite Hax. reflexivity.
Qed.

Lemma permutate_coils_keeps_coordinates_witness :
  fst (getCoords (snd (permutate_coils [0; 0; 0]%Z sys6))) = fst (getCoords sys6).
Proof. exact (permutate_coils_keeps_coordinates sys6 [0; 0; 0]%Z sys6_wf). Defined.
